(** * caLINEdar: the date-input controller (src/caLINEdarDateInput.js)

    A shallow embedding of [CaLINEdarDateInput] and of the platform pieces it
    relies on (the JavaScript [Date] object and [JSON.parse]), followed by the
    properties of the controller that the specification states. *)

From Stdlib Require Import ZArith Lia Bool String Ascii List.
From Stdlib Require Import DecimalString DecimalFacts DecimalPos.
From stdpp Require Import base tactics option list gmap.

Open Scope Z_scope.

(** ** The platform: JavaScript [Date]

    Time values are milliseconds since the epoch, [NaN] for an invalid date.
    The definitions follow ECMA-262 (Day, YearFromTime, MonthFromTime,
    DateFromTime, MakeDay, MakeDate, TimeClip, LocalTime, UTC). The proleptic
    Gregorian calendar is computed era by era (an era is 400 years, 146097
    days, starting on a 1st of March). *)
Module JSDate.

(** A JavaScript number as the controller meets it in date fields. *)
Inductive num := Int (z : Z) | NaN.

Record Date := mkDate { timeValue : num }.

Definition msPerDay : Z := 86400000.
Definition maxTime : Z := 8640000000000000.
Definition daysPerEra : Z := 146097.
Definition epochShift : Z := 719468.

Definition TimeClip (t : Z) : num :=
  if (Z.abs t <=? maxTime) then Int t else NaN.

Definition Day (t : Z) : Z := t / msPerDay.

(** Day of era (0 .. 146096) to year of era, month counted from March and
    day of month. *)
Definition split_doe (doe : Z) : Z * Z * Z :=
  let yoe := (doe - doe / 1460 + doe / 36524 - doe / 146096) / 365 in
  let doy := doe - (365 * yoe + yoe / 4 - yoe / 100) in
  let mp := (5 * doy + 2) / 153 in
  (yoe, mp, doy - (153 * mp + 2) / 5 + 1).

Definition join_doe (yoe mp d : Z) : Z :=
  yoe * 365 + yoe / 4 - yoe / 100 + ((153 * mp + 2) / 5 + d - 1).

(** Day number to (year, month 0..11, date 1..31). *)
Definition civil_of_days (z : Z) : Z * Z * Z :=
  let z' := z + epochShift in
  let era := z' / daysPerEra in
  let '(yoe, mp, d) := split_doe (z' mod daysPerEra) in
  (era * 400 + yoe + (if 10 <=? mp then 1 else 0), (mp + 2) mod 12, d).

(** (year, month 0..11, date) to day number. *)
Definition days_of_civil (y mn d : Z) : Z :=
  let y' := if mn <=? 1 then y - 1 else y in
  (y' / 400) * daysPerEra + join_doe (y' mod 400) ((mn + 10) mod 12) d
  - epochShift.

Definition YearFromTime (t : Z) : Z := fst (fst (civil_of_days (Day t))).
Definition MonthFromTime (t : Z) : Z := snd (fst (civil_of_days (Day t))).
Definition DateFromTime (t : Z) : Z := snd (civil_of_days (Day t)).

(** MakeDay(year, month, date): months outside 0..11 carry into the year. *)
Definition MakeDay (year month date : Z) : Z :=
  let ym := year + month / 12 in
  let mn := month mod 12 in
  days_of_civil ym mn 1 + date - 1.

Definition MakeDate (day time : Z) : Z := day * msPerDay + time.

Section LocalTime.
(** The offset of local time from UTC, in milliseconds; a zone without
    daylight-saving transitions. *)
Variable LocalTZA : Z.

Definition LocalTime (t : Z) : Z := t + LocalTZA.
Definition UTC (t : Z) : Z := t - LocalTZA.

(** [new Date(value)] for a number. *)
Definition Date_of_value (v : num) : Date :=
  match v with
  | Int t => mkDate (TimeClip t)
  | NaN => mkDate NaN
  end.

(** [new Date(year, month, date)]: a year in 0..99 means 1900 + year. *)
Definition Date_of_fields (year month date : num) : Date :=
  match year, month, date with
  | Int y, Int m, Int dt =>
      let yr := if (0 <=? y) && (y <=? 99) then 1900 + y else y in
      mkDate (TimeClip (UTC (MakeDate (MakeDay yr m dt) 0)))
  | _, _, _ => mkDate NaN
  end.

Definition getField (f : Z -> Z) (d : Date) : num :=
  match timeValue d with
  | Int t => Int (f (LocalTime t))
  | NaN => NaN
  end.

Definition getFullYear : Date -> num := getField YearFromTime.
Definition getMonth : Date -> num := getField MonthFromTime.
Definition getDate : Date -> num := getField DateFromTime.

(** The first instant of the local calendar day that contains [t]. *)
Definition startOfLocalDay (t : Z) : Z :=
  UTC (MakeDate (Day (LocalTime t)) 0).
End LocalTime.

(** *** Sanity checks of the calendar arithmetic *)
Example epoch_day : civil_of_days 0 = (1970, 0, 1).
Proof. reflexivity. Qed.
Example leap_day_2000 : civil_of_days 11016 = (2000, 1, 29).
Proof. reflexivity. Qed.
Example march_2018 : days_of_civil 2018 2 1 = 17591.
Proof. reflexivity. Qed.
Example before_epoch : civil_of_days (-1) = (1969, 11, 31).
Proof. reflexivity. Qed.
Example month_carry : MakeDay 2017 12 1 = MakeDay 2018 0 1.
Proof. reflexivity. Qed.

(** *** The fields of a day determine the day *)
Definition doe_ok (doe : Z) : bool :=
  let '(yoe, mp, d) := split_doe doe in
  (join_doe yoe mp d =? doe) && (0 <=? yoe) && (yoe <? 400)
  && (0 <=? mp) && (mp <? 12) && (1 <=? d) && (d <=? 31).

Fixpoint all_from (f : Z -> bool) (start : Z) (n : nat) : bool :=
  match n with
  | O => true
  | S k => f start && all_from f (start + 1) k
  end.

Lemma all_from_spec (f : Z -> bool) (n : nat) :
  forall start z,
    all_from f start n = true ->
    start <= z < start + Z.of_nat n -> f z = true.
Proof.
  induction n as [|k IH]; intros start z Hall Hz; [lia|].
  simpl in Hall. apply andb_prop in Hall as [Hhd Htl].
  destruct (Z.eq_dec z start) as [->|Hne]; [exact Hhd|].
  apply (IH (start + 1)); [exact Htl|lia].
Qed.

Lemma doe_ok_all : all_from doe_ok 0 (Z.to_nat daysPerEra) = true.
Proof. vm_compute. reflexivity. Qed.

Lemma split_join (doe : Z) :
  0 <= doe < daysPerEra ->
  let '(yoe, mp, d) := split_doe doe in
  join_doe yoe mp d = doe /\ 0 <= yoe < 400 /\ 0 <= mp < 12 /\ 1 <= d <= 31.
Proof.
  intros Hdoe.
  assert (Hok : doe_ok doe = true).
  { apply (all_from_spec doe_ok _ 0 doe doe_ok_all).
    rewrite Z2Nat.id by (unfold daysPerEra; lia). lia. }
  unfold doe_ok in Hok.
  destruct (split_doe doe) as [[yoe mp] d].
  repeat (apply andb_prop in Hok; destruct Hok as [Hok ?]).
  repeat split; lia.
Qed.

Lemma civil_roundtrip (z : Z) :
  let '(y, m, d) := civil_of_days z in
  days_of_civil y m d = z /\ 0 <= m <= 11 /\ 1 <= d <= 31.
Proof.
  unfold civil_of_days.
  pose proof (Z.mod_pos_bound (z + epochShift) daysPerEra eq_refl) as Hb.
  pose proof (split_join _ Hb) as Hs.
  pose proof (Z.div_mod (z + epochShift) daysPerEra) as Hdm.
  destruct (split_doe ((z + epochShift) mod daysPerEra)) as [[yoe mp] d].
  destruct Hs as (Hj & Hy & Hm & Hd).
  set (era := (z + epochShift) / daysPerEra) in *.
  assert (Hmn : 0 <= (mp + 2) mod 12 < 12) by (apply Z.mod_pos_bound; lia).
  split; [|lia].
  unfold days_of_civil.
  assert (Hmp : ((mp + 2) mod 12 + 10) mod 12 = mp).
  { rewrite Zplus_mod_idemp_l.
    replace (mp + 2 + 10) with (mp + 1 * 12) by lia.
    rewrite Z.mod_add by lia. apply Z.mod_small; lia. }
  assert (Hy' : (if (mp + 2) mod 12 <=? 1
                 then era * 400 + yoe + (if 10 <=? mp then 1 else 0) - 1
                 else era * 400 + yoe + (if 10 <=? mp then 1 else 0))
                = yoe + era * 400).
  { destruct (Z.leb_spec 10 mp).
    - replace (mp + 2) with (mp - 10 + 1 * 12) by lia.
      rewrite Z.mod_add, Z.mod_small by lia.
      destruct (Z.leb_spec (mp - 10) 1); lia.
    - rewrite Z.mod_small by lia.
      destruct (Z.leb_spec (mp + 2) 1); lia. }
  rewrite Hy', Hmp.
  rewrite Z.div_add, Z.mod_add by lia.
  rewrite Z.div_small, Z.mod_small by lia.
  rewrite Hj. lia.
Qed.

Lemma MakeDay_fields (t : Z) :
  MakeDay (YearFromTime t) (MonthFromTime t) (DateFromTime t) = Day t.
Proof.
  unfold MakeDay, YearFromTime, MonthFromTime, DateFromTime.
  pose proof (civil_roundtrip (Day t)) as H.
  destruct (civil_of_days (Day t)) as [[y m] d]. simpl.
  destruct H as (H & Hm & Hd).
  rewrite Z.div_small, Z.mod_small by lia.
  rewrite Z.add_0_r.
  unfold days_of_civil in *. unfold join_doe in *. lia.
Qed.

End JSDate.

(** ** The platform: JSON and [parseInt]

    [JSON.parse] over the JSON grammar (ECMA-404): a result, or [None] where
    the engine raises a SyntaxError. A number is kept as a decimal
    [m * 10^e]; the controller only ever writes integers. *)
Module JSON.

#[warnings="-register-all"]
Inductive json :=
| JNull
| JBool (b : bool)
| JNum (m e : Z)
| JStr (s : string)
| JArr (l : list json)
| JObj (l : list (string * json)).

Definition JInt (z : Z) : json := JNum z 0.

Definition code (c : ascii) : Z := Z.of_N (N_of_ascii c).
Definition chr (n : Z) : ascii := ascii_of_N (Z.to_N n).

Definition dquote : ascii := chr 34.
Definition backslash : ascii := chr 92.

Definition is_ws (c : ascii) : bool :=
  let n := code c in (n =? 32) || (n =? 9) || (n =? 10) || (n =? 13).

Definition is_digit (c : ascii) : bool := (48 <=? code c) && (code c <=? 57).

Fixpoint skip_ws (s : string) : string :=
  match s with
  | String c r => if is_ws c then skip_ws r else s
  | EmptyString => s
  end.

Fixpoint strip_prefix (p s : string) : option string :=
  match p, s with
  | EmptyString, _ => Some s
  | String a p', String b s' => if Ascii.eqb a b then strip_prefix p' s' else None
  | String _ _, EmptyString => None
  end.

(** A maximal run of decimal digits: the value accumulated on [acc], the
    number of digits read, the rest of the input. *)
Fixpoint read_digits (s : string) (acc n : Z) : Z * Z * string :=
  match s with
  | String c r =>
      if is_digit c then read_digits r (acc * 10 + (code c - 48)) (n + 1)
      else (acc, n, s)
  | EmptyString => (acc, n, s)
  end.

Definition hex_val (c : ascii) : option Z :=
  let n := code c in
  if (48 <=? n) && (n <=? 57) then Some (n - 48)
  else if (97 <=? n) && (n <=? 102) then Some (n - 87)
  else if (65 <=? n) && (n <=? 70) then Some (n - 55)
  else None.

(** The bytes (UTF-8) of a code unit given by a [\u] escape. *)
Definition utf8 (u : Z) : list ascii :=
  if u <? 128 then [chr u]
  else if u <? 2048 then [chr (192 + u / 64); chr (128 + u mod 64)]
  else [chr (224 + u / 4096); chr (128 + (u / 64) mod 64); chr (128 + u mod 64)].

Definition string_of_rev (l : list ascii) : string :=
  fold_left (fun acc c => String c acc) l EmptyString.

(** The characters of a string literal after its opening quote; [acc] holds
    the characters read so far, last first. *)
Fixpoint read_string (s : string) (acc : list ascii) : option (string * string) :=
  match s with
  | EmptyString => None
  | String c r =>
      if Ascii.eqb c dquote then Some (string_of_rev acc, r)
      else if Ascii.eqb c backslash then
        match r with
        | String e r1 =>
            let n := code e in
            if (n =? 34) || (n =? 92) || (n =? 47) then read_string r1 (e :: acc)
            else if n =? 98 then read_string r1 (chr 8 :: acc)
            else if n =? 102 then read_string r1 (chr 12 :: acc)
            else if n =? 110 then read_string r1 (chr 10 :: acc)
            else if n =? 114 then read_string r1 (chr 13 :: acc)
            else if n =? 116 then read_string r1 (chr 9 :: acc)
            else if n =? 117 then
              match r1 with
              | String h1 (String h2 (String h3 (String h4 r2))) =>
                  match hex_val h1, hex_val h2, hex_val h3, hex_val h4 with
                  | Some a, Some b, Some c', Some d =>
                      read_string r2
                        (List.rev (utf8 (((a * 16 + b) * 16 + c') * 16 + d)) ++ acc)
                  | _, _, _, _ => None
                  end
              | _ => None
              end
            else None
        | EmptyString => None
        end
      else if code c <? 32 then None
      else read_string r (c :: acc)
  end.

(** Trailing zeros of the mantissa are moved into a negative exponent. *)
Fixpoint normalize (fuel : nat) (m e : Z) : json :=
  match fuel with
  | O => JNum m e
  | S f =>
      if (e <? 0) && (m mod 10 =? 0) then normalize f (m / 10) (e + 1)
      else JNum m e
  end.

Definition make_number (neg : bool) (m e : Z) : json :=
  let m := if neg then - m else m in
  if 0 <=? e then JNum (m * 10 ^ e) 0 else normalize (Z.to_nat (- e)) m e.

Definition read_exponent (s : string) : option (Z * string) :=
  match s with
  | String c r =>
      if (code c =? 101) || (code c =? 69) then
        let '(neg, r1) :=
          match r with
          | String sg r' =>
              if code sg =? 45 then (true, r')
              else if code sg =? 43 then (false, r') else (false, r)
          | EmptyString => (false, r)
          end in
        let '(v, n, r2) := read_digits r1 0 0 in
        if n =? 0 then None else Some (if neg then - v else v, r2)
      else Some (0, s)
  | EmptyString => Some (0, s)
  end.

Definition read_fraction (s : string) (ip : Z) : option (Z * Z * string) :=
  match s with
  | String c r =>
      if code c =? 46 then
        let '(v, n, r1) := read_digits r ip 0 in
        if n =? 0 then None else Some (v, n, r1)
      else Some (ip, 0, s)
  | EmptyString => Some (ip, 0, s)
  end.

(** number = [-] int [frac] [exp], the integer part without leading zero. *)
Definition parse_number (s : string) : option (json * string) :=
  let '(neg, s1) :=
    match s with
    | String c r => if code c =? 45 then (true, r) else (false, s)
    | EmptyString => (false, s)
    end in
  match s1 with
  | String c r =>
      if is_digit c then
        let '(ip, s2) :=
          if code c =? 48 then (0, r)
          else let '(v, _, r') := read_digits s1 0 0 in (v, r') in
        match read_fraction s2 ip with
        | Some (m, fl, s3) =>
            match read_exponent s3 with
            | Some (ex, s4) => Some (make_number neg m (ex - fl), s4)
            | None => None
            end
        | None => None
        end
      else None
  | EmptyString => None
  end.

Fixpoint parse_value (fuel : nat) (s : string) : option (json * string) :=
  match fuel with
  | O => None
  | S f =>
      match skip_ws s with
      | EmptyString => None
      | String c r =>
          let n := code c in
          if n =? 91 then
            match skip_ws r with
            | String c' r' =>
                if code c' =? 93 then Some (JArr [], r')
                else parse_elements f r []
            | EmptyString => None
            end
          else if n =? 123 then
            match skip_ws r with
            | String c' r' =>
                if code c' =? 125 then Some (JObj [], r')
                else parse_members f r []
            | EmptyString => None
            end
          else if n =? 34 then
            match read_string r [] with
            | Some (str, r') => Some (JStr str, r')
            | None => None
            end
          else if n =? 110 then
            option_map (fun r' => (JNull, r')) (strip_prefix "null" (String c r))
          else if n =? 116 then
            option_map (fun r' => (JBool true, r')) (strip_prefix "true" (String c r))
          else if n =? 102 then
            option_map (fun r' => (JBool false, r')) (strip_prefix "false" (String c r))
          else parse_number (String c r)
      end
  end
with parse_elements (fuel : nat) (s : string) (acc : list json)
  : option (json * string) :=
  match fuel with
  | O => None
  | S f =>
      match parse_value f s with
      | Some (v, r) =>
          match skip_ws r with
          | String c r' =>
              if code c =? 44 then parse_elements f r' (v :: acc)
              else if code c =? 93 then Some (JArr (List.rev (v :: acc)), r')
              else None
          | EmptyString => None
          end
      | None => None
      end
  end
with parse_members (fuel : nat) (s : string) (acc : list (string * json))
  : option (json * string) :=
  match fuel with
  | O => None
  | S f =>
      match skip_ws s with
      | String q r =>
          if code q =? 34 then
            match read_string r [] with
            | Some (k, r1) =>
                match skip_ws r1 with
                | String c r2 =>
                    if code c =? 58 then
                      match parse_value f r2 with
                      | Some (v, r3) =>
                          match skip_ws r3 with
                          | String c' r4 =>
                              if code c' =? 44
                              then parse_members f r4 ((k, v) :: acc)
                              else if code c' =? 125
                              then Some (JObj (List.rev ((k, v) :: acc)), r4)
                              else None
                          | EmptyString => None
                          end
                      | None => None
                      end
                    else None
                | EmptyString => None
                end
            | None => None
            end
          else None
      | EmptyString => None
      end
  end.

(** [JSON.parse(text)]: one value, white space around it, nothing else. *)
Definition parse (s : string) : option json :=
  match parse_value (2 * String.length s + 2) s with
  | Some (v, r) =>
      match skip_ws r with
      | EmptyString => Some v
      | String _ _ => None
      end
  | None => None
  end.

(** *** [JSON.stringify] *)
Definition string_of_Z (z : Z) : string :=
  DecimalString.NilZero.string_of_int (Z.to_int z).

Definition hex_digit (n : Z) : ascii :=
  if n <? 10 then chr (48 + n) else chr (87 + n).

Fixpoint quote_chars (s : string) : string :=
  match s with
  | EmptyString => String dquote EmptyString
  | String c r =>
      let n := code c in
      let rest := quote_chars r in
      if (n =? 34) || (n =? 92) then String backslash (String c rest)
      else if n =? 8 then String backslash (String "b" rest)
      else if n =? 12 then String backslash (String "f" rest)
      else if n =? 10 then String backslash (String "n" rest)
      else if n =? 13 then String backslash (String "r" rest)
      else if n =? 9 then String backslash (String "t" rest)
      else if n <? 32 then
        String backslash
          (String "u" (String "0" (String "0"
             (String (hex_digit (n / 16)) (String (hex_digit (n mod 16)) rest)))))
      else String c rest
  end.

Definition quote (s : string) : string := String dquote (quote_chars s).

Fixpoint join (l : list string) : string :=
  match l with
  | [] => EmptyString
  | [x] => x
  | x :: r => (x ++ "," ++ join r)%string
  end.

Fixpoint stringify (v : json) : string :=
  match v with
  | JNull => "null"
  | JBool true => "true"
  | JBool false => "false"
  | JNum m e =>
      if e =? 0 then string_of_Z m
      else (string_of_Z m ++ "e" ++ string_of_Z e)%string
  | JStr s => quote s
  | JArr l => ("[" ++ join (List.map stringify l) ++ "]")%string
  | JObj l =>
      ("{" ++ join (List.map (fun kv => quote (fst kv) ++ ":" ++ stringify (snd kv)) l)
           ++ "}")%string
  end.

(** *** Reading a parsed value *)

(** The integer a number stands for, if it is one. *)
Definition as_int (v : json) : option Z :=
  match v with
  | JNum m e => if e =? 0 then Some m else None
  | _ => None
  end.

(** An own property of an object; the last of several equal keys wins. *)
Fixpoint lookup_key (k : string) (l : list (string * json)) : option json :=
  match l with
  | [] => None
  | (k', v) :: r =>
      match lookup_key k r with
      | Some v' => Some v'
      | None => if String.eqb k k' then Some v else None
      end
  end.

(** *** [parseInt(string)] with no radix given *)
Fixpoint read_hex (s : string) (acc n : Z) : Z * Z :=
  match s with
  | String c r =>
      match hex_val c with
      | Some d => read_hex r (acc * 16 + d) (n + 1)
      | None => (acc, n)
      end
  | EmptyString => (acc, n)
  end.

Definition parseInt (s : string) : JSDate.num :=
  let s0 := skip_ws s in
  let '(neg, s1) :=
    match s0 with
    | String c r =>
        if code c =? 45 then (true, r)
        else if code c =? 43 then (false, r) else (false, s0)
    | EmptyString => (false, s0)
    end in
  let '(v, n) :=
    match s1 with
    | String z (String x r) =>
        if (code z =? 48) && ((code x =? 120) || (code x =? 88))
        then read_hex r 0 0
        else let '(v, n, _) := read_digits s1 0 0 in (v, n)
    | _ => let '(v, n, _) := read_digits s1 0 0 in (v, n)
    end in
  if n =? 0 then JSDate.NaN else JSDate.Int (if neg then - v else v).

(** *** Sanity checks *)
Example parse_object :
  parse (stringify (JObj [("year"%string, JInt 2018); ("month"%string, JInt 3)]))
  = Some (JObj [("year"%string, JInt 2018); ("month"%string, JInt 3)]).
Proof. vm_compute. reflexivity. Qed.

Example parse_nested :
  parse "{ }" = Some (JObj []) /\
  parse " [1, [true, null], -2.50e1 ] "
  = Some (JArr [JInt 1; JArr [JBool true; JNull]; JInt (-25)]) /\
  parse "1.5" = Some (JNum 15 (-1)).
Proof. vm_compute. repeat split; reflexivity. Qed.

Example parse_malformed :
  parse "{" = None /\ parse "" = None /\ parse "[1,]" = None /\
  parse "01" = None /\ parse "nul" = None /\ parse "2018 x" = None.
Proof. vm_compute. repeat split; reflexivity. Qed.

Example parseInt_examples :
  parseInt "2018" = JSDate.Int 2018 /\ parseInt " -7px" = JSDate.Int (-7) /\
  parseInt "0x1f" = JSDate.Int 31 /\ parseInt "year" = JSDate.NaN.
Proof. vm_compute. repeat split; reflexivity. Qed.

End JSON.

(** ** The data of the controller *)

Abbreviation num := JSDate.num.
Abbreviation Date := JSDate.Date.
Abbreviation json := JSON.json.

(** A property that may be missing, [null] or a boolean. *)
Inductive jsv := Undefined | Null | Bool (b : bool).

Definition truthy (v : jsv) : bool :=
  match v with
  | Bool true => true
  | _ => false
  end.

(** [a && b] and [!a]. *)
Definition js_and (a b : jsv) : jsv := if truthy a then b else a.
Definition js_not (a : jsv) : jsv := Bool (negb (truthy a)).

(** The comma operator: both operands are evaluated, the last one counts. *)
Definition comma {A B : Type} (_ : A) (b : B) : B := b.

(** A local date as the calendar hands it out (year, month, date, day of the
    week, holiday) together with the properties that
    [_getLocalDatesToDisplay] adds to its copies: [grayOut], [special],
    [picked], [text] and [value]. *)
Record DateObj := mkDateObj {
  year : Z;
  month : Z;
  date : Z;
  day : Z;
  holiday : jsv;
  grayOut : jsv;
  special : jsv;
  picked : jsv;
  d_text : option string;
  d_value : option string;
}.

(** An entry of [getMonths] or [getDays]: [{ value, text }]. *)
Record Entry := mkEntry { value : Z; text : string }.

Record YearMonth := mkYearMonth { ym_year : Z; ym_month : Z }.

(** What [calendar.getDates] answers. *)
Inductive datesResult :=
| DatesUndefined
| DatesNull
| DatesArray (l : list DateObj).

(** [getDateStringFormat]: the texts of the year and month buttons and their
    positions in a date string. *)
Record DateStringFormat := mkFormat {
  fmt_year_text : string;
  fmt_year_pos : Z;
  fmt_month_text : string;
  fmt_month_pos : Z;
}.

(** The calendar a controller is created with (a [CaLINEdarCalender]); its
    class is not part of the controller's file, so it is an interface here. *)
Record Calendar := mkCalendar {
  convertJSDate2LocalDate : num -> num -> num -> option DateObj;
  convertLocalDate2JSDate : Z -> Z -> Z -> option (Z * Z * Z);
  toLocaleDateString : Date -> string;
  getDateStringPlaceholder : string;
  getDateStringFormat : Z -> Z -> DateStringFormat;
  getDays : list Entry;
  getMonths : Z -> list Entry;
  getDates : Z -> Z -> datesResult;
  isDateInCalendar : Z -> option Z -> bool;
  getNow : DateObj;
}.

(** The argument of [setDate]. *)
Inductive jsarg :=
| ADate (d : Date)
| AInt (n : Z)
| ANull
| AUndefined
| AOther.

(** Modelled from the spec: [caLINEdar.isInt], of the library object whose
    file is not with the controller; the spec has [setDate] take a JS Date or
    an integer unix time. *)
Definition isInt (v : jsarg) : bool :=
  match v with
  | AInt _ => true
  | _ => false
  end.

(** [date * 1000] for the values [isInt] lets through. *)
Definition times1000 (v : jsarg) : num :=
  match v with
  | AInt n => JSDate.Int (n * 1000)
  | _ => JSDate.NaN
  end.

(** *** The store *)

Abbreviation loc := nat.

(** A cell of the store: a date object or an array of references ([None] is
    a [null] element). *)
Inductive cell :=
| CObj (o : DateObj)
| CArr (a : list (option loc)).

(** A reference that may be [undefined] or [null]: the value of
    [cache[year][month]] and the result of [_getDatesWithCache]. *)
Inductive ref :=
| RUndefined
| RNull
| RArr (a : loc).

(** *** What the controller hands to the rendering layer *)

Inductive pickerId := ID_DATE_PICKER | ID_MONTH_PICKER | ID_YEAR_PICKER | ID_OTHER.

Definition pickerId_eqb (a b : pickerId) : bool :=
  match a, b with
  | ID_DATE_PICKER, ID_DATE_PICKER
  | ID_MONTH_PICKER, ID_MONTH_PICKER
  | ID_YEAR_PICKER, ID_YEAR_PICKER
  | ID_OTHER, ID_OTHER => true
  | _, _ => false
  end.

Record Btn := mkBtn { btn_text : string; btn_value : string }.

Record DatePickerParams := mkDatePickerParams {
  dp_dates : loc;
  dp_value : string;
  dp_pickerBtns : list Btn;
  dp_weekHeaders : list string;
  dp_noMoreLeft : bool;
  dp_noMoreRight : bool;
  dp_rtl : bool;
}.

Record MonthCell := mkMonthCell { mc_value : string; mc_text : string }.

Record MonthPickerParams := mkMonthPickerParams {
  mp_value : string;
  mp_months : list MonthCell;
  mp_pickerBtns : list Btn;
  mp_rtl : bool;
  mp_noMoreLeft : bool;
  mp_noMoreRight : bool;
}.

Record YearCell := mkYearCell { yc_text : Z; yc_value : Z }.

Record YearPickerParams := mkYearPickerParams {
  yp_value : string;
  yp_years : list YearCell;
  yp_noMoreLeft : bool;
  yp_noMoreRight : bool;
  yp_rtl : bool;
}.

(** A callback handed to [requestAnimationFrame]. *)
Inductive callback :=
| CbOpenCalendar
| CbBlur
| CbNotify (queue : list nat).

(** What the controller does to the world around it, in order. *)
Inductive effect :=
| ConsoleWarn (date : jsarg)
| CalendarGetDates (y m : Z)
| OpenCalendar (p : DatePickerParams)
| ShowDatePicker (p : DatePickerParams)
| ShowMonthPicker (p : MonthPickerParams)
| ShowYearPicker (p : YearPickerParams)
| CloseCalendar
| SetCurrentDateInput
| InputBlur
| RequestAnimationFrame (cb : callback)
| PreventDefault
| StopPropagation.

(** *** The state of one controller

    The store holds what the date grids are made of: the cache
    [this._datesCache], the date objects and arrays (by reference), and the
    effects so far. *)
Record Store := mkStore {
  _datesCache : option (gmap Z (gmap Z ref));
  heap : list cell;
  trace : list effect;
}.

(** [_rtl], [_events], [_unixDate] and [_localDate] are the fields of the
    instance, [input_value] is [this.input.value].

    Modelled from the spec: [currentDateInput_is_this], [calendar_is_open]
    and [smallScreen] stand for [getCurrentDateInput() === this],
    [isCalendarOpen()] and [isSmallScreen()] of the library object, whose
    file is not with the controller: one pointer to the input that owns the
    open calendar, and whether the calendar is open. *)
Record State := mkState {
  _rtl : bool;
  _events : list nat;
  _unixDate : option Date;
  _localDate : option DateObj;
  input_value : string;
  currentDateInput_is_this : bool;
  calendar_is_open : bool;
  smallScreen : bool;
  store : Store;
}.

Definition set_picked (u : option Date) (l : option DateObj) (v : string)
    (s : State) : State :=
  mkState (_rtl s) (_events s) u l v (currentDateInput_is_this s)
    (calendar_is_open s) (smallScreen s) (store s).

Definition set_events (q : list nat) (s : State) : State :=
  mkState (_rtl s) q (_unixDate s) (_localDate s) (input_value s)
    (currentDateInput_is_this s) (calendar_is_open s) (smallScreen s) (store s).

Definition set_current (b : bool) (s : State) : State :=
  mkState (_rtl s) (_events s) (_unixDate s) (_localDate s) (input_value s)
    b (calendar_is_open s) (smallScreen s) (store s).

Definition set_open (b : bool) (s : State) : State :=
  mkState (_rtl s) (_events s) (_unixDate s) (_localDate s) (input_value s)
    (currentDateInput_is_this s) b (smallScreen s) (store s).

Definition set_rtl (b : bool) (s : State) : State :=
  mkState b (_events s) (_unixDate s) (_localDate s) (input_value s)
    (currentDateInput_is_this s) (calendar_is_open s) (smallScreen s) (store s).

Definition set_store (st : Store) (s : State) : State :=
  mkState (_rtl s) (_events s) (_unixDate s) (_localDate s) (input_value s)
    (currentDateInput_is_this s) (calendar_is_open s) (smallScreen s) st.

Definition set_datesCache (c : option (gmap Z (gmap Z ref))) (st : Store) : Store :=
  mkStore c (heap st) (trace st).

Definition set_heap (h : list cell) (st : Store) : Store :=
  mkStore (_datesCache st) h (trace st).

Definition add_effect (e : effect) (st : Store) : Store :=
  mkStore (_datesCache st) (heap st) (trace st ++ [e]).

(** *** Results and the monad of the methods

    A method returns, throws, or leaves the model: [Stuck] marks a serialized
    value of a shape that the controller never writes (a year that is not an
    integer, say), where the embedding does not follow the code further. *)
Inductive exn := TypeError.

Inductive res (A : Type) :=
| Ok (a : A)
| Throw (e : exn)
| Stuck.
Arguments Ok {A} a.
Arguments Throw {A} e.
Arguments Stuck {A}.

(** A method over a state [S]: its result and the state it leaves, also
    when it throws. *)
Definition M (S A : Type) : Type := S -> res A * S.

Definition ret {S A} (a : A) : M S A := fun s => (Ok a, s).

Definition bind {S A B} (m : M S A) (k : A -> M S B) : M S B :=
  fun s =>
    match m s with
    | (Ok a, s') => k a s'
    | (Throw e, s') => (Throw e, s')
    | (Stuck, s') => (Stuck, s')
    end.

Definition throw {S A} (e : exn) : M S A := fun s => (Throw e, s).
Definition stuck {S A} : M S A := fun s => (Stuck, s).
Definition get {S} : M S S := fun s => (Ok s, s).
Definition modify {S} (f : S -> S) : M S unit := fun s => (Ok tt, f s).

(** A pure result inside a method. *)
Definition lift {S A} (r : res A) : M S A := fun s => (r, s).

(** A method of the store, run by the controller. *)
Definition liftS {A} (m : M Store A) : M State A :=
  fun s => let '(r, st) := m (store s) in (r, set_store st s).

Definition emitS (e : effect) : M Store unit := modify (add_effect e).
Definition emit (e : effect) : M State unit := liftS (emitS e).

Notation "'let*' x ':=' m 'in' k" := (bind m (fun x => k))
  (at level 10, x name, m at level 100, k at level 200).
Notation "m ';;' k" := (bind m (fun _ => k))
  (at level 100, k at level 200, right associativity).

(** Array access by a JavaScript index: [undefined] out of range. *)
Definition nth_Z {A} (l : list A) (i : Z) : option A :=
  if i <? 0 then None else l !! Z.to_nat i.

(** [findIndex]: the first index that satisfies [p], or -1. *)
Fixpoint findIndex {A} (p : A -> bool) (l : list A) : Z :=
  match l with
  | [] => -1
  | x :: r =>
      if p x then 0
      else let i := findIndex p r in if i <? 0 then -1 else i + 1
  end.

Definition len {A} (l : list A) : Z := Z.of_nat (length l).

(** ** The methods of [CaLINEdarDateInput] *)

Inductive direction := left | right.

Definition direction_eqb (a b : direction) : bool :=
  match a, b with
  | left, left | right, right => true
  | _, _ => false
  end.

Definition opposite (d : direction) : direction :=
  match d with
  | left => right
  | right => left
  end.

Definition _serializeValue (v : json) : string := JSON.stringify v.

(** [JSON.parse] in a try/catch; a missing attribute ([null]) is read as the
    text "null". *)
Definition _unserializeValue (valueStr : option string) : json :=
  let text := match valueStr with Some s => s | None => "null"%string end in
  match JSON.parse text with
  | Some v => v
  | None => JSON.JNull
  end.

(** [months[i].value]. *)
Definition month_at (months : list Entry) (i : Z) : res Z :=
  match nth_Z months i with
  | Some m => Ok (value m)
  | None => Throw TypeError
  end.

Definition _calcPrevLocalMonth (year month : Z) (months : list Entry)
    : res YearMonth :=
  let currMonthIdx := findIndex (fun m => value m =? month) months in
  if currMonthIdx =? 0 then
    match month_at months (len months - 1) with
    | Ok prevMonth => Ok (mkYearMonth (year - 1) prevMonth)
    | Throw e => Throw e
    | Stuck => Stuck
    end
  else
    match month_at months (currMonthIdx - 1) with
    | Ok prevMonth => Ok (mkYearMonth year prevMonth)
    | Throw e => Throw e
    | Stuck => Stuck
    end.

Definition _calcNextLocalMonth (year month : Z) (months : list Entry)
    : res YearMonth :=
  let currMonthIdx := findIndex (fun m => value m =? month) months in
  if currMonthIdx =? len months - 1 then
    match month_at months 0 with
    | Ok nextMonth => Ok (mkYearMonth (year + 1) nextMonth)
    | Throw e => Throw e
    | Stuck => Stuck
    end
  else
    match month_at months (currMonthIdx + 1) with
    | Ok nextMonth => Ok (mkYearMonth year nextMonth)
    | Throw e => Throw e
    | Stuck => Stuck
    end.

Definition _datesEqual (a : DateObj) (b : option DateObj) : jsv :=
  match b with
  | None => Null
  | Some b =>
      Bool ((year a =? year b) && (month a =? month b) && (date a =? date b))
  end.

Section Controller.

Variable calendar : Calendar.
(** The offset of the local time zone, for [Date]. *)
Variable LocalTZA : Z.
(** Constants of the library object. *)
Variable MAX_COUNT_YEAR_IN_YEAR_PICKER : Z.
Variable MAX_COUNT_DATES_IN_DATE_PICKER : Z.

(** The month that [_flipDatePicker] shows next. *)
Definition _flipDatePicker_target (rtl : bool) (year month : Z)
    (dir : direction) : res YearMonth :=
  let months := getMonths calendar year in
  let next := if rtl then direction_eqb dir left else direction_eqb dir right in
  if next
  then _calcNextLocalMonth year month months
  else _calcPrevLocalMonth year month months.

(** The anchor year that [_flipYearPicker] shows next. *)
Definition _flipYearPicker_anchor {A} (rtl : bool) (anchorYear : Z)
    (years : list A) (dir : direction) : Z :=
  let factor := if direction_eqb dir right then 1 else -1 in
  let factor := if rtl then factor * -1 else factor in
  anchorYear + factor * len years.

Definition _getPickerBtnsParams (year month : Z) : list Btn :=
  let format := getDateStringFormat calendar year month in
  let pickerBtns :=
    [ mkBtn (fmt_year_text format) "year-picker-btn";
      mkBtn (fmt_month_text format) "month-picker-btn" ] in
  if fmt_year_pos format >? fmt_month_pos format
  then List.rev pickerBtns
  else pickerBtns.

Definition _getMonthPickerParams (rtl : bool) (year monthPicked : Z)
    : MonthPickerParams :=
  let months := getMonths calendar year in
  let months :=
    List.map
      (fun m =>
         mkMonthCell
           (_serializeValue
              (JSON.JObj [("year"%string, JSON.JInt year);
                          ("month"%string, JSON.JInt (value m))]))
           (text m))
      months in
  let pickerBtns := _getPickerBtnsParams year monthPicked in
  let value :=
    _serializeValue
      (JSON.JObj [("year"%string, JSON.JInt year);
                  ("month"%string, JSON.JInt monthPicked)]) in
  mkMonthPickerParams value months pickerBtns rtl true true.

(** [for (let i = half; i > 0; --i) years.push(anchorYear - i)], with [n]
    turns left. *)
Fixpoint push_before (n : nat) (anchorYear : Z) (years : list Z) : list Z :=
  match n with
  | O => years
  | S k => push_before k anchorYear (years ++ [anchorYear - Z.of_nat (S k)])
  end.

(** [for (let i = 1; i <= rest; ++i) years.push(anchorYear + i)], with [n]
    turns left. *)
Fixpoint push_after (n : nat) (i anchorYear : Z) (years : list Z) : list Z :=
  match n with
  | O => years
  | S k => push_after k (i + 1) anchorYear (years ++ [anchorYear + i])
  end.

(** The years collected before any is removed: [half] years before the
    anchor, the anchor, and years after it up to COUNT. *)
Definition year_block (anchorYear : Z) : list Z :=
  let COUNT := MAX_COUNT_YEAR_IN_YEAR_PICKER in
  let half := COUNT / 2 in
  let years := push_before (Z.to_nat half) anchorYear [] in
  let years := years ++ [anchorYear] in
  let rest := COUNT - len years in
  push_after (Z.to_nat rest) 1 anchorYear years.

Definition _getYearPickerParams (rtl : bool) (anchorYear anchorMonth : Z)
    : res YearPickerParams :=
  let COUNT := MAX_COUNT_YEAR_IN_YEAR_PICKER in
  let years := year_block anchorYear in
  match nth_Z years 0, nth_Z years (COUNT - 1) with
  | Some first, Some last =>
      let noMoreLeft := negb (isDateInCalendar calendar (first - 1) None) in
      let noMoreRight := negb (isDateInCalendar calendar (last + 1) None) in
      let '(noMoreRight, noMoreLeft) :=
        if rtl then (noMoreLeft, noMoreRight) else (noMoreRight, noMoreLeft) in
      let years :=
        List.filter (fun y => isDateInCalendar calendar y None) years in
      let value :=
        _serializeValue
          (JSON.JObj [("anchorYear"%string, JSON.JInt anchorYear);
                      ("anchorMonth"%string, JSON.JInt anchorMonth);
                      ("years"%string, JSON.JArr (List.map JSON.JInt years))]) in
      let years := List.map (fun y => mkYearCell y y) years in
      Ok (mkYearPickerParams value years noMoreLeft noMoreRight rtl)
  | _, _ => Stuck
  end.

(** *** The store: objects and arrays by reference *)

Definition alloc (c : cell) : M Store loc :=
  fun s => (Ok (length (heap s)), set_heap (heap s ++ [c]) s).

Definition read_obj (l : loc) : M Store DateObj :=
  fun s =>
    match heap s !! l with
    | Some (CObj o) => (Ok o, s)
    | _ => (Stuck, s)
    end.

Definition read_arr (l : loc) : M Store (list (option loc)) :=
  fun s =>
    match heap s !! l with
    | Some (CArr a) => (Ok a, s)
    | _ => (Stuck, s)
    end.

Definition write (l : loc) (c : cell) : M Store unit :=
  modify (fun s => set_heap (<[l := c]> (heap s)) s).

Definition update_obj (l : loc) (f : DateObj -> DateObj) : M Store unit :=
  let* o := read_obj l in write l (CObj (f o)).

(** [arr[i]] used as an object: a TypeError when it is [undefined] or
    [null]. *)
Definition element (arr : loc) (i : Z) : M Store loc :=
  let* els := read_arr arr in
  match nth_Z els i with
  | Some (Some l) => ret l
  | _ => throw TypeError
  end.

Definition array_length (arr : loc) : M Store Z :=
  let* els := read_arr arr in ret (len els).

Definition unshift (arr : loc) (x : option loc) : M Store unit :=
  let* els := read_arr arr in write arr (CArr (x :: els)).

Definition push (arr : loc) (x : option loc) : M Store unit :=
  let* els := read_arr arr in write arr (CArr (els ++ [x])).

(** *** [_getDatesWithCache] *)

Fixpoint alloc_objs (l : list DateObj) : M Store (list (option loc)) :=
  match l with
  | [] => ret []
  | o :: r =>
      let* a := alloc (CObj o) in
      let* rest := alloc_objs r in
      ret (Some a :: rest)
  end.

(** [this._calendar.getDates(year, month)]: the call is recorded and the
    array it answers, with its date objects, enters the store. *)
Definition calendar_getDates (year month : Z) : M Store ref :=
  emitS (CalendarGetDates year month) ;;
  match getDates calendar year month with
  | DatesUndefined => ret RUndefined
  | DatesNull => ret RNull
  | DatesArray l =>
      let* els := alloc_objs l in
      let* a := alloc (CArr els) in
      ret (RArr a)
  end.

(** [dates.map(d => Object.assign({}, d))]: a new object for each element.
    The arrays of the cache hold no [null]. *)
Fixpoint copy_objs (els : list (option loc)) : M Store (list (option loc)) :=
  match els with
  | [] => ret []
  | Some l :: r =>
      let* o := read_obj l in
      let* a := alloc (CObj o) in
      let* rest := copy_objs r in
      ret (Some a :: rest)
  | None :: _ => stuck
  end.

(** [dates && dates.map(d => Object.assign({}, d))]. *)
Definition copy_dates (dates : ref) : M Store ref :=
  match dates with
  | RArr a =>
      let* els := read_arr a in
      let* copies := copy_objs els in
      let* a' := alloc (CArr copies) in
      ret (RArr a')
  | _ => ret dates
  end.

Definition cache_lookup (cache : gmap Z (gmap Z ref)) (year month : Z) : ref :=
  match cache !! year with
  | Some byMonth =>
      match byMonth !! month with
      | Some r => r
      | None => RUndefined
      end
  | None => RUndefined
  end.

Definition cache_store (cache : gmap Z (gmap Z ref)) (year month : Z) (r : ref)
    : gmap Z (gmap Z ref) :=
  <[year := <[month := r]> (default ∅ (cache !! year))]> cache.

Definition _getDatesWithCache (year month : Z) : M Store ref :=
  let* s := get in
  let cache := default ∅ (_datesCache s) in
  let cache :=
    match cache !! year with
    | Some _ => cache
    | None => <[year := ∅]> cache
    end in
  modify (set_datesCache (Some cache)) ;;
  let dates := cache_lookup cache year month in
  let* dates :=
    match dates with
    | RUndefined =>
        let* dates := calendar_getDates year month in
        modify (set_datesCache (Some (cache_store cache year month dates))) ;;
        ret dates
    | _ => ret dates
    end in
  copy_dates dates.

(** *** [_getLocalDatesToDisplay] *)

Definition set_grayOut (v : jsv) (d : DateObj) : DateObj :=
  mkDateObj (year d) (month d) (date d) (day d) (holiday d) v (special d)
    (picked d) (d_text d) (d_value d).

Definition set_special (v : jsv) (d : DateObj) : DateObj :=
  mkDateObj (year d) (month d) (date d) (day d) (holiday d) (grayOut d) v
    (picked d) (d_text d) (d_value d).

Definition set_pickedFlag (v : jsv) (d : DateObj) : DateObj :=
  mkDateObj (year d) (month d) (date d) (day d) (holiday d) (grayOut d)
    (special d) v (d_text d) (d_value d).

Definition set_text (v : string) (d : DateObj) : DateObj :=
  mkDateObj (year d) (month d) (date d) (day d) (holiday d) (grayOut d)
    (special d) (picked d) (Some v) (d_value d).

Definition set_value (v : string) (d : DateObj) : DateObj :=
  mkDateObj (year d) (month d) (date d) (day d) (holiday d) (grayOut d)
    (special d) (picked d) (d_text d) (Some v).

Definition json_of_jsv (k : string) (v : jsv) : list (string * json) :=
  match v with
  | Undefined => []
  | Null => [(k, JSON.JNull)]
  | Bool b => [(k, JSON.JBool b)]
  end.

Definition json_of_string (k : string) (v : option string)
    : list (string * json) :=
  match v with
  | Some s => [(k, JSON.JStr s)]
  | None => []
  end.

(** The own properties of a date object, as [JSON.stringify] sees them. *)
Definition json_of_DateObj (d : DateObj) : json :=
  JSON.JObj
    ([("year"%string, JSON.JInt (year d)); ("month"%string, JSON.JInt (month d));
      ("date"%string, JSON.JInt (date d)); ("day"%string, JSON.JInt (day d))]
     ++ json_of_jsv "holiday" (holiday d)
     ++ json_of_jsv "grayOut" (grayOut d)
     ++ json_of_jsv "special" (special d)
     ++ json_of_jsv "picked" (picked d)
     ++ json_of_string "text" (d_text d)
     ++ json_of_string "value" (d_value d)).

(** The body of the final [forEach]. *)
Definition tag (datePicked : option DateObj) (d : DateObj) : DateObj :=
  let d := set_special (js_and (holiday d) (js_not (grayOut d))) d in
  let d := set_pickedFlag (_datesEqual d datePicked) d in
  let d := set_text (JSON.string_of_Z (date d)) d in
  set_value (_serializeValue (json_of_DateObj d)) d.

Fixpoint tag_all (datePicked : option DateObj) (els : list (option loc))
    : M Store unit :=
  match els with
  | [] => ret tt
  | Some l :: r => update_obj l (tag datePicked) ;; tag_all datePicked r
  | None :: r => tag_all datePicked r
  end.

(** [for (let i = prevDates.length - 1; emptyCountInStart > 0, i >= 0;)] *)
Fixpoint fill_start (fuel : nat) (prevDates dates : loc)
    (i emptyCountInStart : Z) : M Store Z :=
  if comma (emptyCountInStart >? 0) (i >=? 0) then
    match fuel with
    | O => stuck
    | S f =>
        let* d := element prevDates i in
        update_obj d (set_grayOut (Bool true)) ;;
        unshift dates (Some d) ;;
        fill_start f prevDates dates (i - 1) (emptyCountInStart - 1)
    end
  else ret emptyCountInStart.

(** [while (emptyCountInStart > 0)] *)
Fixpoint fill_start_null (fuel : nat) (dates : loc) (emptyCountInStart : Z)
    : M Store Z :=
  if emptyCountInStart >? 0 then
    match fuel with
    | O => stuck
    | S f =>
        unshift dates None ;;
        fill_start_null f dates (emptyCountInStart - 1)
    end
  else ret emptyCountInStart.

(** [for (let i = 0; emptyCountInTail > 0, i < nextDates.length;)] *)
Fixpoint fill_tail (fuel : nat) (nextDates dates : loc)
    (i emptyCountInTail : Z) : M Store Z :=
  let* n := array_length nextDates in
  if comma (emptyCountInTail >? 0) (i <? n) then
    match fuel with
    | O => stuck
    | S f =>
        let* d := element nextDates i in
        update_obj d (set_grayOut (Bool true)) ;;
        push dates (Some d) ;;
        fill_tail f nextDates dates (i + 1) (emptyCountInTail - 1)
    end
  else ret emptyCountInTail.

(** [while (emptyCountInTail > 0)] *)
Fixpoint fill_tail_null (fuel : nat) (dates : loc) (emptyCountInTail : Z)
    : M Store Z :=
  if emptyCountInTail >? 0 then
    match fuel with
    | O => stuck
    | S f =>
        push dates None ;;
        fill_tail_null f dates (emptyCountInTail - 1)
    end
  else ret emptyCountInTail.

(** [days.findIndex(d => d.value === dates[0].day)]: [dates[0]] is read by
    the callback, at each of its calls, and not at all when there is no
    day. *)
Fixpoint findIndex_day (days : list Entry) (dates : loc) : M Store Z :=
  match days with
  | [] => ret (-1)
  | d :: r =>
      let* first := element dates 0 in
      let* first := read_obj first in
      if value d =? day first then ret 0
      else
        let* i := findIndex_day r dates in
        ret (if i <? 0 then -1 else i + 1)
  end.

(** When [dates] is [null] or [undefined] the method throws a TypeError
    before it does anything else: in the callback of [findIndex], or, when
    the calendar has no day, at [dates.length], which is the next thing
    evaluated on [dates] then (without days [emptyCountInStart] is -1, so
    that no previous month is asked for and both loops over the start are
    skipped). *)
Definition _getLocalDatesToDisplay (year month : Z)
    (datePicked : option DateObj) : M Store loc :=
  let days := getDays calendar in
  let months := getMonths calendar year in
  let* dates := _getDatesWithCache year month in
  match dates with
  | RArr dates =>
      let* firstDayIdx := findIndex_day days dates in
      let emptyCountInStart := firstDayIdx in
      let* prevDates :=
        if emptyCountInStart >? 0 then
          let* prev := lift (_calcPrevLocalMonth year month months) in
          _getDatesWithCache (ym_year prev) (ym_month prev)
        else ret RNull in
      let* emptyCountInStart :=
        match prevDates with
        | RArr prevDates =>
            let* n := array_length prevDates in
            fill_start (Z.to_nat n) prevDates dates (n - 1) emptyCountInStart
        | _ => ret emptyCountInStart
        end in
      let* _ :=
        fill_start_null (Z.to_nat emptyCountInStart) dates emptyCountInStart in
      let* n := array_length dates in
      let emptyCountInTail := MAX_COUNT_DATES_IN_DATE_PICKER - n in
      let* nextDates :=
        if emptyCountInTail >? 0 then
          let* next := lift (_calcNextLocalMonth year month months) in
          _getDatesWithCache (ym_year next) (ym_month next)
        else ret RNull in
      let* emptyCountInTail :=
        match nextDates with
        | RArr nextDates =>
            let* n := array_length nextDates in
            fill_tail (Z.to_nat n) nextDates dates 0 emptyCountInTail
        | _ => ret emptyCountInTail
        end in
      let* _ :=
        fill_tail_null (Z.to_nat emptyCountInTail) dates emptyCountInTail in
      let* els := read_arr dates in
      tag_all datePicked els ;;
      ret dates
  | _ => throw TypeError
  end.

Definition _getDatePickerParams (year month : Z) (datePicked : option DateObj)
    : M State DatePickerParams :=
  let* s := get in
  let pickerBtns := _getPickerBtnsParams year month in
  let days := getDays calendar in
  let weekHeaders := List.map text days in
  let months := getMonths calendar year in
  let* prev := lift (_calcPrevLocalMonth year month months) in
  let* next := lift (_calcNextLocalMonth year month months) in
  let noMoreLeft :=
    negb (isDateInCalendar calendar (ym_year prev) (Some (ym_month prev))) in
  let noMoreRight :=
    negb (isDateInCalendar calendar (ym_year next) (Some (ym_month next))) in
  let '(noMoreRight, noMoreLeft) :=
    if _rtl s then (noMoreLeft, noMoreRight) else (noMoreRight, noMoreLeft) in
  let value :=
    _serializeValue
      (JSON.JObj [("year"%string, JSON.JInt year);
                  ("month"%string, JSON.JInt month)]) in
  let* dates := liftS (_getLocalDatesToDisplay year month datePicked) in
  ret (mkDatePickerParams dates value pickerBtns weekHeaders noMoreLeft
         noMoreRight (_rtl s)).

(** *** Public API *)

Definition getDate (s : State) : option num :=
  match _unixDate s with
  | Some d =>
      Some (match JSDate.timeValue d with
            | JSDate.Int t => JSDate.Int (t / 1000)
            | JSDate.NaN => JSDate.NaN
            end)
  | None => None
  end.

(** [new Date(d.getFullYear(), d.getMonth(), d.getDate())]. *)
Definition align (d : Date) : Date :=
  JSDate.Date_of_fields LocalTZA
    (JSDate.getFullYear LocalTZA d)
    (JSDate.getMonth LocalTZA d)
    (JSDate.getDate LocalTZA d).

(** The [Date] that [setDate] makes of its argument, [None] for [null]. *)
Definition newDate_of (date : jsarg) : option Date :=
  match date with
  | ADate d => Some d
  | _ =>
      if isInt date then Some (JSDate.Date_of_value (times1000 date))
      else None
  end.

Definition local_of (newDate : Date) : option DateObj :=
  convertJSDate2LocalDate calendar
    (JSDate.getFullYear LocalTZA newDate)
    (JSDate.getMonth LocalTZA newDate)
    (JSDate.getDate LocalTZA newDate).

Definition setDate (date : jsarg) : M State bool :=
  match newDate_of date with
  | None => ret false
  | Some newDate =>
      let newDate := align newDate in
      match local_of newDate with
      | None => emit (ConsoleWarn date) ;; ret false
      | Some local =>
          modify (set_picked (Some newDate) (Some local)
                    (toLocaleDateString calendar newDate)) ;;
          ret true
      end
  end.

Definition clearDate : M State unit :=
  modify (set_picked None None (getDateStringPlaceholder calendar)).

Definition openCalendar : M State unit :=
  let* s := get in
  if negb (currentDateInput_is_this s) then
    modify (set_current true) ;;
    emit SetCurrentDateInput ;;
    emit (RequestAnimationFrame CbOpenCalendar)
  else if negb (calendar_is_open s) then
    emit (RequestAnimationFrame CbOpenCalendar)
  else ret tt.

Definition closeCalendar : M State unit :=
  let* s := get in
  if negb (currentDateInput_is_this s) then ret tt
  else
    let* ok :=
      setDate (match _unixDate s with Some d => ADate d | None => ANull end) in
    (if negb ok then clearDate else ret tt) ;;
    emit CloseCalendar ;;
    modify (set_open false).

(** A handler is a function ([Some] of its identity) or something else. *)
Definition subscribe (eventType : string) (handler : option nat) : M State unit :=
  match handler with
  | Some h =>
      if String.eqb eventType "onChange"
      then let* s := get in modify (set_events (_events s ++ [h]))
      else ret tt
  | None => ret tt
  end.

Definition unsubscribe (eventType : string) (handler : option nat) : M State unit :=
  match handler with
  | Some h =>
      if String.eqb eventType "onChange"
      then
        let* s := get in
        modify (set_events (List.filter (fun h' => negb (Nat.eqb h' h)) (_events s)))
      else ret tt
  | None => ret tt
  end.

Fixpoint subscribe_all (props : list (string * option nat)) : M State unit :=
  match props with
  | [] => ret tt
  | (prop, handler) :: r => subscribe prop handler ;; subscribe_all r
  end.

(** The state a constructor starts from: nothing picked, no subscriber, no
    cache, an empty store. *)
Definition fresh (rtl : bool) (input0 : string) (current isOpen small : bool)
    : State :=
  mkState rtl [] None None input0 current isOpen small (mkStore None [] []).

Definition constructor (date : jsarg) (props : list (string * option nat))
    : M State unit :=
  let* ok := setDate date in
  (if negb ok then clearDate else ret tt) ;;
  subscribe_all props.

(** *** Showing pickers *)

Definition _notify (eventType : string) : M State unit :=
  let* s := get in
  let queue := if String.eqb eventType "onChange" then _events s else [] in
  if 0 <? len queue
  then emit (RequestAnimationFrame (CbNotify queue))
  else ret tt.

Definition _openCalendar : M State unit :=
  let* s := get in
  let datePicked := _localDate s in
  let dateLocal := default (getNow calendar) datePicked in
  let* params :=
    _getDatePickerParams (year dateLocal) (month dateLocal) datePicked in
  emit (OpenCalendar params) ;;
  modify (set_open true).

Definition _showDatePicker (year month : Z) (datePicked : option DateObj)
    : M State unit :=
  let* params := _getDatePickerParams year month datePicked in
  emit (ShowDatePicker params).

Definition _showMonthPicker (year monthPicked : Z) : M State unit :=
  let* s := get in
  emit (ShowMonthPicker (_getMonthPickerParams (_rtl s) year monthPicked)).

Definition _showYearPicker (anchorYear anchorMonth : Z) : M State unit :=
  let* s := get in
  let* params := lift (_getYearPickerParams (_rtl s) anchorYear anchorMonth) in
  emit (ShowYearPicker params).

Definition _flipDatePicker (year month : Z) (dir : direction) : M State unit :=
  let* s := get in
  let* target := lift (_flipDatePicker_target (_rtl s) year month dir) in
  let* params :=
    _getDatePickerParams (ym_year target) (ym_month target) (_localDate s) in
  emit (ShowDatePicker params).

Definition _flipYearPicker {A} (anchorYear anchorMonth : Z) (years : list A)
    (dir : direction) : M State unit :=
  let* s := get in
  let anchorYear := _flipYearPicker_anchor (_rtl s) anchorYear years dir in
  let* params := lift (_getYearPickerParams (_rtl s) anchorYear anchorMonth) in
  emit (ShowYearPicker params).

(** *** Events *)

(** An element as the handlers see it: [id], [classList], [tagName] and
    the attribute [data-caLINEdar-value] ([None] when it is not set). *)
Record Element := mkElement {
  el_id : pickerId;
  classList : list string;
  tagName : string;
  data_caLINEdar_value : option string;
}.

Definition contains (cls : list string) (c : string) : bool :=
  existsb (String.eqb c) cls.

Definition lower (c : ascii) : ascii :=
  let n := JSON.code c in
  if (65 <=? n) && (n <=? 90) then JSON.chr (n + 32) else c.

Fixpoint toLowerCase (s : string) : string :=
  match s with
  | EmptyString => EmptyString
  | String c r => String (lower c) (toLowerCase r)
  end.

(** [v.k]: a TypeError on [null], [undefined] where there is no such
    property. *)
Definition prop (v : json) (k : string) : M State (option json) :=
  match v with
  | JSON.JNull => throw TypeError
  | JSON.JObj l => ret (JSON.lookup_key k l)
  | _ => ret None
  end.

(** An argument that the methods take as an integer. *)
Definition int_arg (v : option json) : M State Z :=
  match v with
  | Some j =>
      match JSON.as_int j with
      | Some z => ret z
      | None => stuck
      end
  | None => stuck
  end.

(** [years] as [_flipYearPicker] uses it: [years.length]. *)
Definition array_arg (v : option json) : M State (list json) :=
  match v with
  | Some (JSON.JArr l) => ret l
  | Some JSON.JNull | None => throw TypeError
  | Some _ => stuck
  end.

Definition onFocus : M State unit :=
  let* s := get in
  (if smallScreen s
   then emit InputBlur ;; emit (RequestAnimationFrame CbBlur)
   else ret tt) ;;
  openCalendar.

Definition _onClickOutside : M State unit :=
  emit PreventDefault ;;
  emit StopPropagation ;;
  closeCalendar.

Definition _onClearBtnClick : M State unit :=
  emit PreventDefault ;;
  emit StopPropagation ;;
  clearDate ;;
  _notify "onChange".

Definition _onPanelButtonClick (picker target : Element) : M State unit :=
  let value := _unserializeValue (data_caLINEdar_value picker) in
  let btnValue := data_caLINEdar_value target in
  let btn_is v := match btnValue with Some b => String.eqb b v | None => false end in
  let* returned :=
    if btn_is "year-picker-btn"%string then
      if negb (pickerId_eqb (el_id picker) ID_YEAR_PICKER) then
        let* y := prop value "year" in
        let* m := prop value "month" in
        let* y := int_arg y in
        let* m := int_arg m in
        _showYearPicker y m ;; ret true
      else ret false
    else if btn_is "month-picker-btn"%string then
      if negb (pickerId_eqb (el_id picker) ID_MONTH_PICKER) then
        let* y := prop value "year" in
        let* m := prop value "month" in
        let* y := int_arg y in
        let* m := int_arg m in
        _showMonthPicker y m ;; ret true
      else ret false
    else ret false in
  if (returned : bool) then ret tt
  else
    let goLeft := contains (classList target) "left-btn" in
    let goRight := contains (classList target) "right-btn" in
    match el_id picker with
    | ID_DATE_PICKER =>
        if goLeft || goRight then
          let* y := prop value "year" in
          let* m := prop value "month" in
          let* y := int_arg y in
          let* m := int_arg m in
          _flipDatePicker y m (if goLeft then left else right)
        else ret tt
    | ID_YEAR_PICKER =>
        if goLeft || goRight then
          let* y := prop value "anchorYear" in
          let* m := prop value "anchorMonth" in
          let* ys := prop value "years" in
          let* ys := array_arg ys in
          let* y := int_arg y in
          let* m := int_arg m in
          _flipYearPicker y m ys (if goLeft then left else right)
        else ret tt
    | _ => ret tt
    end.

Definition _onPick (picker target : Element) : M State unit :=
  match data_caLINEdar_value target with
  | None => ret tt
  | Some EmptyString => ret tt
  | Some value =>
      match el_id picker with
      | ID_DATE_PICKER =>
          let value := _unserializeValue (Some value) in
          let* y := prop value "year" in
          let* m := prop value "month" in
          let* d := prop value "date" in
          let* y := int_arg y in
          let* m := int_arg m in
          let* d := int_arg d in
          match convertLocalDate2JSDate calendar y m d with
          | None => throw TypeError
          | Some (jy, jm, jd) =>
              let jsDate :=
                JSDate.Date_of_fields LocalTZA
                  (JSDate.Int jy) (JSDate.Int jm) (JSDate.Int jd) in
              let* ok := setDate (ADate jsDate) in
              if ok then
                let* s := get in
                match _localDate s with
                | Some l =>
                    _showDatePicker (year l) (month l) (Some l) ;;
                    _notify "onChange"
                | None => throw TypeError
                end
              else ret tt
          end
      | ID_MONTH_PICKER =>
          let value := _unserializeValue (Some value) in
          let* y := prop value "year" in
          let* m := prop value "month" in
          let* y := int_arg y in
          let* m := int_arg m in
          let* s := get in
          _showDatePicker y m (_localDate s)
      | ID_YEAR_PICKER =>
          let year := JSON.parseInt value in
          let data := _unserializeValue (data_caLINEdar_value picker) in
          let* am := prop data "anchorMonth" in
          let* am := int_arg am in
          match year with
          | JSDate.Int year =>
              let* s := get in
              _showDatePicker year am (_localDate s)
          | JSDate.NaN => stuck
          end
      | ID_OTHER => ret tt
      end
  end.

(** The listener is an [async] function: what it throws rejects the
    promise it returns. *)
Definition _onPickerClick (picker target : Element) : M State unit :=
  emit PreventDefault ;;
  emit StopPropagation ;;
  let cls := classList target in
  if contains cls "caLINEdar-panel__btn" then
    _onPanelButtonClick picker target
  else if contains cls "caLINEdar-table-cell"
          && String.eqb (toLowerCase (tagName target)) "td" then
    _onPick picker target
  else ret tt.

(** A callback of [requestAnimationFrame] when its frame comes; the
    subscribers of [onChange] are the application's. *)
Definition run_callback (cb : callback) : M State unit :=
  match cb with
  | CbOpenCalendar => _openCalendar
  | CbBlur => emit InputBlur
  | CbNotify _ => ret tt
  end.

End Controller.

(** ** A calendar to run the controller with

    The Gregorian calendar between two years: months 0..11, weeks from
    Sunday, Sundays as holidays. *)
Module Gregorian.

Definition weekday (y m d : Z) : Z := (JSDate.MakeDay y m d + 4) mod 7.

Definition daysInMonth (y m : Z) : Z :=
  JSDate.MakeDay y (m + 1) 1 - JSDate.MakeDay y m 1.

Definition inRange (lo hi y : Z) : bool := (lo <=? y) && (y <=? hi).

Definition isMonth (m : Z) : bool := (0 <=? m) && (m <=? 11).

Definition mkDay (y m d : Z) : DateObj :=
  mkDateObj y m d (weekday y m d) (Bool (weekday y m d =? 0))
    Undefined Undefined Undefined None None.

Definition dates (y m : Z) : list DateObj :=
  List.map (mkDay y m) (seqZ 1 (daysInMonth y m)).

Definition months : list Entry :=
  [ mkEntry 0 "Jan"; mkEntry 1 "Feb"; mkEntry 2 "Mar"; mkEntry 3 "Apr";
    mkEntry 4 "May"; mkEntry 5 "Jun"; mkEntry 6 "Jul"; mkEntry 7 "Aug";
    mkEntry 8 "Sep"; mkEntry 9 "Oct"; mkEntry 10 "Nov"; mkEntry 11 "Dec" ].

Definition days : list Entry :=
  [ mkEntry 0 "Su"; mkEntry 1 "Mo"; mkEntry 2 "Tu"; mkEntry 3 "We";
    mkEntry 4 "Th"; mkEntry 5 "Fr"; mkEntry 6 "Sa" ].

Definition dateString (y m d : Z) : string :=
  (JSON.string_of_Z y ++ "/" ++ JSON.string_of_Z (m + 1) ++ "/"
   ++ JSON.string_of_Z d)%string.

Definition calendar (tza lo hi : Z) : Calendar :=
  {| convertJSDate2LocalDate := fun y m d =>
       match y, m, d with
       | JSDate.Int y, JSDate.Int m, JSDate.Int d =>
           if inRange lo hi y then Some (mkDay y m d) else None
       | _, _, _ => None
       end;
     convertLocalDate2JSDate := fun y m d => Some (y, m, d);
     toLocaleDateString := fun dt =>
       match JSDate.getFullYear tza dt, JSDate.getMonth tza dt,
             JSDate.getDate tza dt with
       | JSDate.Int y, JSDate.Int m, JSDate.Int d => dateString y m d
       | _, _, _ => "Invalid Date"%string
       end;
     getDateStringPlaceholder := "YYYY/MM/DD";
     getDateStringFormat := fun y m =>
       mkFormat (JSON.string_of_Z y) 0 (JSON.string_of_Z (m + 1)) 1;
     getDays := days;
     getMonths := fun _ => months;
     getDates := fun y m =>
       if inRange lo hi y && isMonth m then DatesArray (dates y m)
       else DatesNull;
     isDateInCalendar := fun y m =>
       inRange lo hi y && match m with Some m => isMonth m | None => true end;
     getNow := mkDay 2018 2 1 |}.

Example march_2018_starts_on_thursday :
  weekday 2018 2 1 = 4 /\ daysInMonth 2018 2 = 31 /\ daysInMonth 2018 1 = 28
  /\ daysInMonth 2000 1 = 29 /\ daysInMonth 2017 11 = 31.
Proof. vm_compute. repeat split; reflexivity. Qed.

End Gregorian.

(** ** Properties of the navigation *)

Lemma nth_Z_of_nat {A} (l : list A) (k : nat) : nth_Z l (Z.of_nat k) = l !! k.
Proof.
  unfold nth_Z. destruct (Z.ltb_spec (Z.of_nat k) 0); [lia|].
  by rewrite Nat2Z.id.
Qed.

(** Read [nth_Z l i] as the lookup at the natural number [k]. *)
Ltac nth_Z_at k :=
  match goal with
  | |- context [nth_Z ?l ?i] =>
      replace (nth_Z l i) with (l !! k)
        by (rewrite <- nth_Z_of_nat; f_equal; lia)
  end.

Lemma findIndex_lookup (l : list Entry) :
  forall (k : nat) (m : Entry),
    NoDup (List.map value l) ->
    l !! k = Some m ->
    findIndex (fun x => value x =? value m) l = Z.of_nat k.
Proof.
  induction l as [|x r IH]; intros k m Hnd Hk; [done|].
  simpl in Hnd. apply NoDup_cons in Hnd as [Hx Hnd].
  destruct k as [|k]; simpl in *.
  - injection Hk as ->. by rewrite Z.eqb_refl.
  - assert (Hne : value x <> value m).
    { intros Heq. apply Hx. rewrite Heq.
      apply list_elem_of_In, in_map, list_elem_of_In.
      by eapply list_elem_of_lookup_2. }
    apply Z.eqb_neq in Hne. rewrite Hne.
    rewrite (IH k m Hnd Hk).
    destruct (Z.ltb_spec (Z.of_nat k) 0); lia.
Qed.

Lemma month_position (months : list Entry) (month : Z) :
  In month (List.map value months) ->
  exists (k : nat) (m : Entry), months !! k = Some m /\ value m = month.
Proof.
  intros Hin. apply in_map_iff in Hin as (m & Hv & Hm).
  apply list_elem_of_In, list_elem_of_lookup in Hm as [k Hk]. eauto.
Qed.

(** With distinct month values, the month after and the month before undo
    each other, across the end of the year too. *)
Lemma calcPrev_calcNext (months : list Entry) (year month : Z) :
  NoDup (List.map value months) ->
  In month (List.map value months) ->
  exists t,
    _calcNextLocalMonth year month months = Ok t /\
    _calcPrevLocalMonth (ym_year t) (ym_month t) months
    = Ok (mkYearMonth year month).
Proof.
  intros Hnd Hin.
  destruct (month_position _ _ Hin) as (k & m & Hk & <-).
  pose proof (lookup_lt_Some _ _ _ Hk) as Hlt.
  unfold _calcNextLocalMonth, _calcPrevLocalMonth, month_at, len.
  rewrite (findIndex_lookup _ _ _ Hnd Hk).
  destruct (Z.eqb_spec (Z.of_nat k) (Z.of_nat (length months) - 1)) as [Hlast|Hmid].
  - destruct (lookup_lt_is_Some_2 months 0%nat ltac:(lia)) as [m0 H0].
    nth_Z_at 0%nat. rewrite H0.
    eexists; split; [reflexivity|]. simpl.
    rewrite (findIndex_lookup _ _ _ Hnd H0). simpl.
    nth_Z_at k. rewrite Hk.
    f_equal. f_equal. lia.
  - destruct (lookup_lt_is_Some_2 months (S k) ltac:(lia)) as [m1 H1].
    nth_Z_at (S k). rewrite H1.
    eexists; split; [reflexivity|]. simpl.
    rewrite (findIndex_lookup _ _ _ Hnd H1).
    destruct (Z.eqb_spec (Z.of_nat (S k)) 0); [lia|].
    nth_Z_at k. by rewrite Hk.
Qed.

Lemma calcNext_calcPrev (months : list Entry) (year month : Z) :
  NoDup (List.map value months) ->
  In month (List.map value months) ->
  exists t,
    _calcPrevLocalMonth year month months = Ok t /\
    _calcNextLocalMonth (ym_year t) (ym_month t) months
    = Ok (mkYearMonth year month).
Proof.
  intros Hnd Hin.
  destruct (month_position _ _ Hin) as (k & m & Hk & <-).
  pose proof (lookup_lt_Some _ _ _ Hk) as Hlt.
  unfold _calcNextLocalMonth, _calcPrevLocalMonth, month_at, len.
  rewrite (findIndex_lookup _ _ _ Hnd Hk).
  destruct (Z.eqb_spec (Z.of_nat k) 0) as [Hfirst|Hmid].
  - destruct (lookup_lt_is_Some_2 months (length months - 1)%nat ltac:(lia))
      as [m1 H1].
    nth_Z_at (length months - 1)%nat. rewrite H1.
    eexists; split; [reflexivity|]. simpl.
    rewrite (findIndex_lookup _ _ _ Hnd H1).
    destruct (Z.eqb_spec (Z.of_nat (length months - 1))
                (Z.of_nat (length months) - 1)); [|lia].
    assert (k = 0%nat) as -> by lia.
    nth_Z_at 0%nat. rewrite Hk.
    f_equal. f_equal. lia.
  - destruct (lookup_lt_is_Some_2 months (k - 1)%nat ltac:(lia)) as [m1 H1].
    nth_Z_at (k - 1)%nat. rewrite H1.
    eexists; split; [reflexivity|]. simpl.
    rewrite (findIndex_lookup _ _ _ Hnd H1).
    destruct (Z.eqb_spec (Z.of_nat (k - 1)) (Z.of_nat (length months) - 1));
      [lia|].
    nth_Z_at k. by rewrite Hk.
Qed.

(** C3. In a calendar whose months are one fixed list of distinct values,
    turning the date picker one month in a direction and then one month in
    the opposite direction shows the month it started from:
    [_calcNextLocalMonth] and [_calcPrevLocalMonth] undo each other, also
    where the year changes. *)
Theorem flipDatePicker_there_and_back (calendar : Calendar) (rtl : bool)
    (year month : Z) (dir : direction) :
  NoDup (List.map value (getMonths calendar year)) ->
  In month (List.map value (getMonths calendar year)) ->
  (forall y, getMonths calendar y = getMonths calendar year) ->
  exists t,
    _flipDatePicker_target calendar rtl year month dir = Ok t /\
    _flipDatePicker_target calendar rtl (ym_year t) (ym_month t) (opposite dir)
    = Ok (mkYearMonth year month).
Proof.
  intros Hnd Hin Hfixed.
  unfold _flipDatePicker_target.
  destruct rtl, dir; simpl.
  - destruct (calcPrev_calcNext _ year month Hnd Hin) as (t & Ht & Hback).
    exists t. by rewrite (Hfixed (ym_year t)).
  - destruct (calcNext_calcPrev _ year month Hnd Hin) as (t & Ht & Hback).
    exists t. by rewrite (Hfixed (ym_year t)).
  - destruct (calcNext_calcPrev _ year month Hnd Hin) as (t & Ht & Hback).
    exists t. by rewrite (Hfixed (ym_year t)).
  - destruct (calcPrev_calcNext _ year month Hnd Hin) as (t & Ht & Hback).
    exists t. by rewrite (Hfixed (ym_year t)).
Qed.

Lemma Gregorian_months_NoDup : NoDup (List.map value Gregorian.months).
Proof. apply (bool_decide_unpack _). vm_compute. reflexivity. Qed.

Lemma flipDatePicker_there_and_back_witness :
  exists t,
    _flipDatePicker_target (Gregorian.calendar 0 1900 2100) false 2018 11 right
    = Ok t /\
    _flipDatePicker_target (Gregorian.calendar 0 1900 2100) false
      (ym_year t) (ym_month t) (opposite right)
    = Ok (mkYearMonth 2018 11).
Proof.
  apply (flipDatePicker_there_and_back (Gregorian.calendar 0 1900 2100)).
  - exact Gregorian_months_NoDup.
  - simpl. tauto.
  - reflexivity.
Defined.

Example december_wraps :
  _flipDatePicker_target (Gregorian.calendar 0 1900 2100) false 2018 11 right
  = Ok (mkYearMonth 2019 0) /\
  _flipDatePicker_target (Gregorian.calendar 0 1900 2100) false 2019 0 left
  = Ok (mkYearMonth 2018 11).
Proof. split; reflexivity. Qed.

(** ** Properties of the year picker *)

Lemma push_before_seqZ (n : nat) (anchorYear : Z) :
  forall years,
    push_before n anchorYear years
    = years ++ seqZ (anchorYear - Z.of_nat n) (Z.of_nat n).
Proof.
  induction n as [|k IH]; intros years.
  - simpl. by rewrite app_nil_r.
  - cbn [push_before]. rewrite IH, <- app_assoc. f_equal.
    rewrite (seqZ_cons (anchorYear - Z.of_nat (S k))) by lia.
    simpl. do 2 f_equal; lia.
Qed.

Lemma push_after_seqZ (n : nat) (anchorYear : Z) :
  forall i years,
    push_after n i anchorYear years
    = years ++ seqZ (anchorYear + i) (Z.of_nat n).
Proof.
  induction n as [|k IH]; intros i years.
  - simpl. by rewrite app_nil_r.
  - cbn [push_after]. rewrite IH, <- app_assoc. f_equal.
    rewrite (seqZ_cons (anchorYear + i)) by lia.
    simpl. do 2 f_equal; lia.
Qed.

(** The block is COUNT consecutive years, [COUNT / 2] of them before the
    anchor. *)
Lemma year_block_seqZ (COUNT anchorYear : Z) :
  0 < COUNT ->
  year_block COUNT anchorYear = seqZ (anchorYear - COUNT / 2) COUNT.
Proof.
  intros Hpos. unfold year_block.
  assert (Hhalf : 0 <= COUNT / 2 < COUNT).
  { split; [apply Z.div_pos; lia|apply Z.div_lt; lia]. }
  remember (COUNT / 2) as h eqn:Hh. clear Hh.
  rewrite push_before_seqZ, app_nil_l, push_after_seqZ.
  unfold len. rewrite length_app, length_seqZ. simpl.
  rewrite !Z2Nat.id by lia.
  assert (Hsplit : seqZ (anchorYear - h) COUNT
                   = seqZ (anchorYear - h) h
                     ++ seqZ anchorYear 1 ++ seqZ (anchorYear + 1) (COUNT - h - 1)).
  { replace COUNT with (h + (1 + (COUNT - h - 1))) at 1 by lia.
    rewrite (seqZ_app _ h) by lia.
    rewrite (seqZ_app _ 1) by lia.
    replace (anchorYear - h + h) with anchorYear by lia.
    reflexivity. }
  rewrite Hsplit, <- app_assoc.
  do 3 f_equal. lia.
Qed.

Lemma nth_Z_seqZ (m n i : Z) :
  0 <= i < n -> nth_Z (seqZ m n) i = Some (m + i).
Proof.
  intros Hi. unfold nth_Z.
  destruct (Z.ltb_spec i 0); [lia|].
  rewrite lookup_seqZ_lt by lia. f_equal. lia.
Qed.

(** The sign of a move of the year picker: the years grow to the right,
    or to the left under RTL. *)
Definition year_sign (rtl : bool) (dir : direction) : Z :=
  if direction_eqb dir (if rtl then left else right) then 1 else -1.

Lemma flipYearPicker_anchor_sign {A} (rtl : bool) (anchorYear : Z)
    (years : list A) (dir : direction) :
  _flipYearPicker_anchor rtl anchorYear years dir
  = anchorYear + year_sign rtl dir * len years.
Proof. unfold _flipYearPicker_anchor, year_sign. destruct rtl, dir; simpl; lia. Qed.

(** C5. With a block of COUNT years around the anchor, from
    [anchor - COUNT / 2] on, [noMoreLeft] holds exactly when the year before
    the first year of the block is not in the calendar and [noMoreRight]
    exactly when the year after its last year is not; under RTL the two
    flags change places. *)
Theorem yearPicker_boundary_flags (calendar : Calendar) (COUNT : Z)
    (rtl : bool) (anchorYear anchorMonth : Z) :
  0 < COUNT ->
  let first := anchorYear - COUNT / 2 in
  let last := first + COUNT - 1 in
  exists p,
    _getYearPickerParams calendar COUNT rtl anchorYear anchorMonth = Ok p /\
    year_block COUNT anchorYear = seqZ first COUNT /\
    (yp_noMoreLeft p = true <->
     isDateInCalendar calendar (if rtl then last + 1 else first - 1) None = false) /\
    (yp_noMoreRight p = true <->
     isDateInCalendar calendar (if rtl then first - 1 else last + 1) None = false).
Proof.
  intros Hpos first last.
  unfold _getYearPickerParams.
  rewrite (year_block_seqZ _ _ Hpos).
  rewrite !nth_Z_seqZ by lia.
  fold first. replace (first + (COUNT - 1)) with last by (unfold last; lia).
  rewrite Z.add_0_r.
  destruct rtl; eexists; (split; [reflexivity|]); simpl;
    (split; [reflexivity|]); split; apply negb_true_iff.
Qed.

Lemma yearPicker_boundary_flags_witness :
  exists p,
    _getYearPickerParams (Gregorian.calendar 0 2000 2100) 9 false 2002 5 = Ok p /\
    year_block 9 2002 = seqZ (2002 - 9 / 2) 9 /\
    (yp_noMoreLeft p = true <->
     isDateInCalendar (Gregorian.calendar 0 2000 2100)
       (2002 - 9 / 2 - 1) None = false) /\
    (yp_noMoreRight p = true <->
     isDateInCalendar (Gregorian.calendar 0 2000 2100)
       (2002 - 9 / 2 + 9 - 1 + 1) None = false).
Proof.
  apply (yearPicker_boundary_flags (Gregorian.calendar 0 2000 2100) 9 false 2002 5).
  lia.
Defined.

(** The years that the year picker shows and writes into its value. *)
Definition shown_years (calendar : Calendar) (COUNT anchorYear : Z) : list Z :=
  List.filter (fun y => isDateInCalendar calendar y None)
    (year_block COUNT anchorYear).

Lemma getYearPickerParams_years (calendar : Calendar) (COUNT : Z) (rtl : bool)
    (anchorYear anchorMonth : Z) (p : YearPickerParams) :
  _getYearPickerParams calendar COUNT rtl anchorYear anchorMonth = Ok p ->
  yp_years p
  = List.map (fun y => mkYearCell y y) (shown_years calendar COUNT anchorYear) /\
  yp_value p
  = _serializeValue
      (JSON.JObj
         [("anchorYear"%string, JSON.JInt anchorYear);
          ("anchorMonth"%string, JSON.JInt anchorMonth);
          ("years"%string,
           JSON.JArr (List.map JSON.JInt (shown_years calendar COUNT anchorYear)))]).
Proof.
  unfold _getYearPickerParams, shown_years.
  destruct (nth_Z _ 0); [|discriminate].
  destruct (nth_Z _ _); [|discriminate].
  destruct rtl; intros [= <-]; split; reflexivity.
Qed.

Lemma filter_len_le {A} (f : A -> bool) (l : list A) :
  len (List.filter f l) <= len l.
Proof.
  unfold len. induction l as [|x r IH]; simpl; [lia|].
  destruct (f x); simpl; lia.
Qed.

Lemma filter_all {A} (f : A -> bool) (l : list A) :
  forallb f l = true -> List.filter f l = l.
Proof.
  induction l as [|x r IH]; simpl; [done|].
  intros [Hx Hr]%andb_prop. rewrite Hx. f_equal. auto.
Qed.

Lemma filter_len_lt {A} (f : A -> bool) (l : list A) :
  forallb f l = false -> len (List.filter f l) < len l.
Proof.
  induction l as [|x r IH]; simpl; [done|].
  pose proof (filter_len_le f r) as Hle. unfold len in *.
  destruct (f x); simpl; intros Hall; cbn [length]; [|lia].
  specialize (IH Hall). lia.
Qed.

(** The year picker has parameters only for a block of at least one
    year. *)
Lemma getYearPickerParams_count (calendar : Calendar) (COUNT : Z) (rtl : bool)
    (anchorYear anchorMonth : Z) (p : YearPickerParams) :
  _getYearPickerParams calendar COUNT rtl anchorYear anchorMonth = Ok p ->
  0 < COUNT.
Proof.
  unfold _getYearPickerParams.
  destruct (nth_Z _ 0); [|discriminate].
  destruct (nth_Z _ (COUNT - 1)) eqn:Hlast; [|discriminate].
  intros _. unfold nth_Z in Hlast.
  destruct (Z.ltb_spec (COUNT - 1) 0); [discriminate|lia].
Qed.

(** C6, as the specification has it, fails at a boundary of the calendar.
    In a calendar of the years 2000 to 2100 and with blocks of 9 years, the
    picker anchored at 2002 shows 2000 to 2006 and lets the user go right;
    the click on its right button shows the picker anchored at 2009, seven
    years on and not nine. *)
Lemma flipYearPicker_short_step :
  let cal := Gregorian.calendar 0 2000 2100 in
  exists p p',
    _getYearPickerParams cal 9 false 2002 5 = Ok p /\
    yp_noMoreRight p = false /\
    _getYearPickerParams cal 9 false 2009 5 = Ok p' /\
    trace (store (snd (_onPickerClick cal 0 9 42
                         (mkElement ID_YEAR_PICKER [] "DIV" (Some (yp_value p)))
                         (mkElement ID_OTHER
                            ["caLINEdar-panel__btn"; "right-btn"]%string "DIV" None)
                         (fresh false "" true true false))))
    = [PreventDefault; StopPropagation; ShowYearPicker p'] /\
    _flipYearPicker_anchor false 2002 (shown_years cal 9 2002) right = 2009 /\
    2009 <> 2002 + 9.
Proof.
  do 2 eexists.
  split; [vm_compute; reflexivity|].
  split; [reflexivity|].
  split; [vm_compute; reflexivity|].
  split; [vm_compute; reflexivity|].
  split; [vm_compute; reflexivity|].
  discriminate.
Qed.

(** ** Right-to-left *)

(** The parameters of a date picker under RTL and without it: the same
    dates, value, buttons and headers, the two boundary flags exchanged. *)
Definition dp_mirrored (p1 p2 : DatePickerParams) : Prop :=
  dp_dates p1 = dp_dates p2 /\
  dp_value p1 = dp_value p2 /\
  dp_pickerBtns p1 = dp_pickerBtns p2 /\
  dp_weekHeaders p1 = dp_weekHeaders p2 /\
  dp_noMoreLeft p1 = dp_noMoreRight p2 /\
  dp_noMoreRight p1 = dp_noMoreLeft p2.

Definition yp_mirrored (p1 p2 : YearPickerParams) : Prop :=
  yp_years p1 = yp_years p2 /\
  yp_value p1 = yp_value p2 /\
  yp_noMoreLeft p1 = yp_noMoreRight p2 /\
  yp_noMoreRight p1 = yp_noMoreLeft p2.

Definition mirrored {A} (R : A -> A -> Prop) (r1 r2 : res A) : Prop :=
  match r1, r2 with
  | Ok a1, Ok a2 => R a1 a2
  | Throw e1, Throw e2 => e1 = e2
  | Stuck, Stuck => True
  | _, _ => False
  end.

(** C7. A move to the left or right under RTL goes to the month, or to the
    anchor year, of the opposite move without RTL; the parameters of the
    date picker and of the year picker have [noMoreLeft] and [noMoreRight]
    exchanged and everything shown (dates, years, value, buttons, headers,
    and the store the dates live in) the same. *)
Theorem rtl_mirrors_navigation (calendar : Calendar)
    (COUNT_YEAR COUNT_DATES : Z) (year month : Z) (datePicked : option DateObj)
    (anchorYear anchorMonth : Z) (years : list json) (dir : direction)
    (s : State) :
  _flipDatePicker_target calendar true year month dir
  = _flipDatePicker_target calendar false year month (opposite dir) /\
  _flipYearPicker_anchor true anchorYear years dir
  = _flipYearPicker_anchor false anchorYear years (opposite dir) /\
  mirrored yp_mirrored
    (_getYearPickerParams calendar COUNT_YEAR true anchorYear anchorMonth)
    (_getYearPickerParams calendar COUNT_YEAR false anchorYear anchorMonth) /\
  (let '(r1, s1) :=
     _getDatePickerParams calendar COUNT_DATES year month datePicked
       (set_rtl true s) in
   let '(r2, s2) :=
     _getDatePickerParams calendar COUNT_DATES year month datePicked
       (set_rtl false s) in
   store s1 = store s2 /\ mirrored dp_mirrored r1 r2).
Proof.
  split; [by destruct dir|].
  split; [unfold _flipYearPicker_anchor; destruct dir; simpl; lia|].
  split.
  - unfold _getYearPickerParams.
    destruct (nth_Z _ 0); [|done].
    destruct (nth_Z _ _); [|done].
    simpl. by repeat split.
  - unfold _getDatePickerParams, bind, get, lift, liftS, ret. simpl.
    destruct (_calcPrevLocalMonth _ _ _) as [prev| |]; [|done..].
    destruct (_calcNextLocalMonth _ _ _) as [next| |]; [|done..].
    destruct (_getLocalDatesToDisplay _ _ _ _ _ _) as [[dates| |] st]; simpl;
      [|done..].
    by repeat split.
Qed.

(** ** Properties of the picked date *)

(** The instant that an argument of [setDate] stands for, in milliseconds. *)
Definition instant (date : jsarg) : option Z :=
  match newDate_of date with
  | Some d =>
      match JSDate.timeValue d with
      | JSDate.Int t => Some t
      | JSDate.NaN => None
      end
  | None => None
  end.

Lemma align_start_of_day (tza t : Z) :
  ~ (0 <= JSDate.YearFromTime (JSDate.LocalTime tza t) <= 99) ->
  Z.abs (JSDate.startOfLocalDay tza t) <= JSDate.maxTime ->
  align tza (JSDate.mkDate (JSDate.Int t))
  = JSDate.mkDate (JSDate.Int (JSDate.startOfLocalDay tza t)).
Proof.
  intros Hyear Hrange.
  unfold align, JSDate.getFullYear, JSDate.getMonth, JSDate.getDate,
    JSDate.getField, JSDate.Date_of_fields. simpl.
  set (y := JSDate.YearFromTime (JSDate.LocalTime tza t)) in *.
  assert (Hy : (0 <=? y) && (y <=? 99) = false).
  { destruct (Z.leb_spec 0 y), (Z.leb_spec y 99); simpl; try reflexivity. lia. }
  rewrite Hy. unfold y. rewrite JSDate.MakeDay_fields.
  fold (JSDate.startOfLocalDay tza t).
  unfold JSDate.TimeClip.
  destruct (Z.leb_spec (Z.abs (JSDate.startOfLocalDay tza t)) JSDate.maxTime);
    [reflexivity|lia].
Qed.

(** Outside the years 0 to 99, [setDate] then [getDate] gives the second in
    which the local day of the argument starts. *)
Lemma setDate_getDate_same_day (calendar : Calendar) (tza : Z) (date : jsarg)
    (t : Z) (s s' : State) :
  instant date = Some t ->
  ~ (0 <= JSDate.YearFromTime (JSDate.LocalTime tza t) <= 99) ->
  Z.abs (JSDate.startOfLocalDay tza t) <= JSDate.maxTime ->
  setDate calendar tza date s = (Ok true, s') ->
  getDate s' = Some (JSDate.Int (JSDate.startOfLocalDay tza t / 1000)).
Proof.
  unfold instant, setDate. intros Ht Hyear Hrange.
  destruct (newDate_of date) as [[tv]|]; [|discriminate].
  simpl in Ht. destruct tv as [t'|]; [|discriminate].
  injection Ht as ->.
  rewrite (align_start_of_day _ _ Hyear Hrange).
  destruct (local_of _ _ _) as [local|].
  - unfold bind, modify, ret. intros [= <-]. reflexivity.
  - unfold bind, emit, liftS, emitS, modify, ret. simpl. discriminate.
Qed.

Lemma setDate_getDate_same_day_example :
  exists s',
    setDate (Gregorian.calendar 3600000 1900 2100) 3600000 (AInt 1519900000)
      (fresh false "" true true false) = (Ok true, s') /\
    getDate s' = Some (JSDate.Int 1519858800) /\
    input_value s' = "2018/3/1"%string.
Proof.
  eexists. split; [vm_compute; reflexivity|].
  split; vm_compute; reflexivity.
Qed.

(** C1 fails for a date in the years 0 to 99, which
    [new Date(year, month, date)] reads as 1900 + year. With a calendar of
    the years 1900 to 2100 and local time UTC, [setDate(-60589292400)], one
    hour into the 1st of January of the year 50, succeeds, and [getDate()]
    then returns -631152000, the start of the 1st of January 1950; the day
    of the argument starts at -60589296000. *)
Theorem setDate_getDate_two_digit_year :
  let cal := Gregorian.calendar 0 1900 2100 in
  let date := AInt (-60589292400) in
  exists s',
    setDate cal 0 date (fresh false "" true true false) = (Ok true, s') /\
    instant date = Some (-60589292400000) /\
    JSDate.getFullYear 0 (JSDate.mkDate (JSDate.Int (-60589292400000)))
    = JSDate.Int 50 /\
    JSDate.startOfLocalDay 0 (-60589292400000) / 1000 = -60589296000 /\
    getDate s' = Some (JSDate.Int (-631152000)) /\
    input_value s' = "1950/1/1"%string.
Proof.
  eexists. split; [vm_compute; reflexivity|].
  repeat split; vm_compute; reflexivity.
Qed.

(** *** A value that the calendar cannot convert *)




(** *** The picked date and the stored instant *)

(** Nothing is picked, or the picked local date is the calendar's
    conversion of the stored date. *)
Definition picked_consistent (calendar : Calendar) (tza : Z) (s : State)
    : Prop :=
  match _unixDate s, _localDate s with
  | None, None => True
  | Some d, Some l => local_of calendar tza d = Some l
  | _, _ => False
  end.

(** The public methods and the handlers of events, as one type. *)
Inductive operation :=
| Call_setDate (date : jsarg)
| Call_clearDate
| Call_openCalendar
| Call_closeCalendar
| Call_subscribe (eventType : string) (handler : option nat)
| Call_unsubscribe (eventType : string) (handler : option nat)
| On_focus
| On_clickOutside
| On_clearBtnClick
| On_pickerClick (picker target : Element)
| On_frame (cb : callback).

Definition perform (calendar : Calendar) (tza COUNT_YEAR COUNT_DATES : Z)
    (op : operation) : M State unit :=
  match op with
  | Call_setDate date => setDate calendar tza date ;; ret tt
  | Call_clearDate => clearDate calendar
  | Call_openCalendar => openCalendar
  | Call_closeCalendar => closeCalendar calendar tza
  | Call_subscribe eventType handler => subscribe eventType handler
  | Call_unsubscribe eventType handler => unsubscribe eventType handler
  | On_focus => onFocus
  | On_clickOutside => _onClickOutside calendar tza
  | On_clearBtnClick => _onClearBtnClick calendar
  | On_pickerClick picker target =>
      _onPickerClick calendar tza COUNT_YEAR COUNT_DATES picker target
  | On_frame cb => run_callback calendar COUNT_DATES cb
  end.

(** A method keeps a property of the state, however it ends. *)
Definition keeps {A} (P : State -> Prop) (m : M State A) : Prop :=
  forall s, P s -> P (snd (m s)).

Section Keeps.
Context (P : State -> Prop).

Lemma keeps_ret {A} (a : A) : keeps P (ret a).
Proof. by intros s. Qed.

Lemma keeps_throw {A} (e : exn) : keeps P (@throw State A e).
Proof. by intros s. Qed.

Lemma keeps_stuck {A} : keeps P (@stuck State A).
Proof. by intros s. Qed.

Lemma keeps_get : keeps P get.
Proof. by intros s. Qed.

Lemma keeps_lift {A} (r : res A) : keeps P (lift r).
Proof. by intros s. Qed.

Lemma keeps_liftS {A} (m : M Store A) :
  (forall s, P s -> P (set_store (snd (m (store s))) s)) -> keeps P (liftS m).
Proof.
  intros Hm s Hs. specialize (Hm s Hs). unfold liftS.
  by destruct (m (store s)) as [r st].
Qed.

Lemma keeps_modify (f : State -> State) :
  (forall s, P s -> P (f s)) -> keeps P (modify f).
Proof. intros Hf s Hs. simpl. auto. Qed.

Lemma keeps_bind {A B} (m : M State A) (k : A -> M State B) :
  keeps P m -> (forall a, keeps P (k a)) -> keeps P (bind m k).
Proof.
  intros Hm Hk s Hs. unfold bind.
  specialize (Hm s Hs).
  destruct (m s) as [[a|e|] s']; simpl in *; auto.
  by apply Hk.
Qed.
End Keeps.

(** A property of the state that [setDate], [clearDate], the writes of the
    other fields, the effects and [_getLocalDatesToDisplay] keep is kept by
    every method and every handler. *)
Section Handlers.
Variable calendar : Calendar.
Variables tza COUNT_YEAR COUNT_DATES : Z.
Context (P : State -> Prop).

Hypothesis P_setDate : forall date, keeps P (setDate calendar tza date).
Hypothesis P_clearDate : keeps P (clearDate calendar).
Hypothesis P_events : forall q s, P s -> P (set_events q s).
Hypothesis P_current : forall b s, P s -> P (set_current b s).
Hypothesis P_open : forall b s, P s -> P (set_open b s).
Hypothesis P_emit : forall e, keeps P (emit e).
Hypothesis P_dates :
  forall y m dp,
    keeps P (liftS (_getLocalDatesToDisplay calendar COUNT_DATES y m dp)).

(** One step of a proof that a method keeps [P]: through the structure of
    the method. *)
Ltac keeps_step :=
  match goal with
  | |- keeps _ (bind _ _) => apply keeps_bind; [|intros ?]
  | |- keeps _ (ret _) => apply keeps_ret
  | |- keeps _ (throw _) => apply keeps_throw
  | |- keeps _ stuck => apply keeps_stuck
  | |- keeps _ get => apply keeps_get
  | |- keeps _ (lift _) => apply keeps_lift
  | |- keeps _ (emit _) => apply P_emit
  | |- keeps _ (liftS (_getLocalDatesToDisplay _ _ _ _ _)) => apply P_dates
  | |- keeps _ (setDate _ _ _) => apply P_setDate
  | |- keeps _ (clearDate _) => apply P_clearDate
  | |- keeps _ (modify _) => apply keeps_modify; solve [auto]
  | |- keeps _ (match ?x with _ => _ end) => destruct x
  | |- keeps _ (let _ := _ in _) => cbv zeta
  end.

Lemma keeps_getDatePickerParams y m dp :
  keeps P (_getDatePickerParams calendar COUNT_DATES y m dp).
Proof. unfold _getDatePickerParams. repeat keeps_step. Qed.

Lemma keeps_showDatePicker y m dp :
  keeps P (_showDatePicker calendar COUNT_DATES y m dp).
Proof.
  unfold _showDatePicker.
  apply keeps_bind; [apply keeps_getDatePickerParams|intros ?].
  repeat keeps_step.
Qed.

Lemma keeps_notify e : keeps P (_notify e).
Proof. unfold _notify. repeat keeps_step. Qed.

Lemma keeps_prop v k : keeps P (prop v k).
Proof. unfold prop. repeat keeps_step. Qed.

Lemma keeps_int_arg v : keeps P (int_arg v).
Proof. unfold int_arg. repeat keeps_step. Qed.

Lemma keeps_array_arg v : keeps P (array_arg v).
Proof. unfold array_arg. repeat keeps_step. Qed.

Lemma keeps_openCalendar : keeps P openCalendar.
Proof. unfold openCalendar. repeat keeps_step. Qed.

Lemma keeps_subscribe e h : keeps P (subscribe e h).
Proof. unfold subscribe. repeat keeps_step. Qed.

(** The methods shown to keep the property so far, by their names. *)
Ltac keeps_known :=
  match goal with
  | |- keeps _ (_getDatePickerParams _ _ _ _ _) =>
      apply keeps_getDatePickerParams
  | |- keeps _ (_showDatePicker _ _ _ _ _) => apply keeps_showDatePicker
  | |- keeps _ (_notify _) => apply keeps_notify
  | |- keeps _ (prop _ _) => apply keeps_prop
  | |- keeps _ (int_arg _) => apply keeps_int_arg
  | |- keeps _ (array_arg _) => apply keeps_array_arg
  | |- keeps _ openCalendar => apply keeps_openCalendar
  | |- keeps _ (subscribe _ _) => apply keeps_subscribe
  | _ => keeps_step
  end.

Lemma keeps_closeCalendar : keeps P (closeCalendar calendar tza).
Proof. unfold closeCalendar. repeat keeps_known. Qed.

Lemma keeps_onPanelButtonClick picker target :
  keeps P (_onPanelButtonClick calendar COUNT_YEAR COUNT_DATES picker target).
Proof.
  unfold _onPanelButtonClick, _showYearPicker, _showMonthPicker,
    _flipDatePicker, _flipYearPicker.
  repeat keeps_known.
Qed.

Lemma keeps_onPick picker target :
  keeps P (_onPick calendar tza COUNT_DATES picker target).
Proof. unfold _onPick. repeat keeps_known. Qed.

Lemma keeps_perform op :
  keeps P (perform calendar tza COUNT_YEAR COUNT_DATES op).
Proof.
  destruct op; simpl.
  - repeat keeps_known.
  - apply P_clearDate.
  - apply keeps_openCalendar.
  - apply keeps_closeCalendar.
  - apply keeps_subscribe.
  - unfold unsubscribe. repeat keeps_known.
  - unfold onFocus. repeat keeps_known.
  - unfold _onClickOutside.
    repeat first [apply keeps_closeCalendar | keeps_known].
  - unfold _onClearBtnClick. repeat keeps_known.
  - unfold _onPickerClick.
    repeat first
      [ apply keeps_onPanelButtonClick | apply keeps_onPick | keeps_known ].
  - unfold run_callback, _openCalendar. repeat keeps_known.
Qed.

Lemma keeps_constructor date props :
  keeps P (constructor calendar tza date props).
Proof.
  unfold constructor.
  apply keeps_bind; [apply P_setDate|intros ok].
  apply keeps_bind; [|intros ?].
  - destruct (negb ok); [apply P_clearDate|apply keeps_ret].
  - induction props as [|[prop handler] props IH]; simpl;
      [apply keeps_ret|].
    apply keeps_bind; [apply keeps_subscribe|intros ?; exact IH].
Qed.
End Handlers.

Section PickedInvariant.
Variable calendar : Calendar.
Variables tza COUNT_YEAR COUNT_DATES : Z.

Let P := picked_consistent calendar tza.

Lemma picked_setDate date : keeps P (setDate calendar tza date).
Proof.
  intros s Hs. unfold setDate.
  destruct (newDate_of date) as [d|]; [|done].
  destruct (local_of calendar tza (align tza d)) as [l|] eqn:Hl; [|done].
  exact Hl.
Qed.

Lemma picked_clearDate : keeps P (clearDate calendar).
Proof. by intros s Hs. Qed.

Lemma picked_liftS {A} (m : M Store A) : keeps P (liftS m).
Proof. apply keeps_liftS. by intros s Hs. Qed.

Lemma picked_perform op :
  keeps P (perform calendar tza COUNT_YEAR COUNT_DATES op).
Proof.
  apply keeps_perform;
    auto using picked_setDate, picked_clearDate;
    intros; apply picked_liftS.
Qed.

Lemma picked_constructor date props :
  keeps P (constructor calendar tza date props).
Proof.
  apply keeps_constructor;
    auto using picked_setDate, picked_clearDate;
    intros; apply picked_liftS.
Qed.
End PickedInvariant.

(** C2. The constructor leaves the controller with nothing picked or with a
    picked local date that is the calendar's conversion of the stored date,
    and every public method and every handler of an event keeps it so,
    whether it returns or throws. With no picked local date the stored date
    is [null] too and [getDate()] is [null]. [setDate] sets both fields
    when it returns [true] and touches neither otherwise; [clearDate] sets
    both to [null]. *)
Theorem picked_date_invariant (calendar : Calendar)
    (tza COUNT_YEAR COUNT_DATES : Z) (op : operation) (s : State) :
  picked_consistent calendar tza s ->
  picked_consistent calendar tza
    (snd (perform calendar tza COUNT_YEAR COUNT_DATES op s)) /\
  (forall rtl input0 current isOpen small date props,
     picked_consistent calendar tza
       (snd (constructor calendar tza date props
               (fresh rtl input0 current isOpen small)))) /\
  (_localDate s = None -> _unixDate s = None /\ getDate s = None) /\
  (_localDate s <> None -> _unixDate s <> None /\ getDate s <> None) /\
  (forall date,
     let '(r, s') := setDate calendar tza date s in
     (r = Ok true /\ _unixDate s' <> None /\ _localDate s' <> None) \/
     (r = Ok false /\ _unixDate s' = _unixDate s /\ _localDate s' = _localDate s
      /\ input_value s' = input_value s)) /\
  (let s' := snd (clearDate calendar s) in
   _unixDate s' = None /\ _localDate s' = None /\ getDate s' = None).
Proof.
  intros Hs.
  split; [by apply picked_perform|].
  split; [intros; by apply picked_constructor|].
  unfold picked_consistent, getDate in *.
  split; [|split].
  - intros Hl. rewrite Hl in Hs. by destruct (_unixDate s).
  - intros Hl. destruct (_unixDate s), (_localDate s); done.
  - split; [|done].
    intros date. unfold setDate.
    destruct (newDate_of date) as [d|]; [|right; done].
    destruct (local_of _ _ _); [left|right]; done.
Qed.

Lemma picked_date_invariant_witness :
  exists s,
    setDate (Gregorian.calendar 0 1900 2100) 0 (AInt 1519900000)
      (fresh false "" true true false) = (Ok true, s) /\
    picked_consistent (Gregorian.calendar 0 1900 2100) 0 s /\
    picked_consistent (Gregorian.calendar 0 1900 2100) 0
      (snd (perform (Gregorian.calendar 0 1900 2100) 0 9 42
              Call_closeCalendar s)).
Proof.
  eexists. split; [vm_compute; reflexivity|].
  assert (H : picked_consistent (Gregorian.calendar 0 1900 2100) 0
                (snd (setDate (Gregorian.calendar 0 1900 2100) 0
                        (AInt 1519900000) (fresh false "" true true false)))).
  { vm_compute. reflexivity. }
  split; [exact H|].
  exact (proj1 (picked_date_invariant (Gregorian.calendar 0 1900 2100) 0 9 42
                  Call_closeCalendar _ H)).
Defined.

(** ** Malformed serialized values *)

(** C8 holds for [_unserializeValue] and fails for the handlers: a value
    that is not JSON is read as [null], and the handlers then take a
    property of it. With such a value on the date picker a click on its
    left or right button makes [_onPanelButtonClick] throw a TypeError, with
    such a value on a cell of the date picker [_onPick] throws one, and so
    does a click on a cell of the year picker whose own value is such. The
    state is as it was before the click. *)
Theorem malformed_value_throws (calendar : Calendar)
    (tza COUNT_YEAR COUNT_DATES : Z) (text : string) (s : State) :
  JSON.parse text = None ->
  _unserializeValue (Some text) = JSON.JNull /\
  (forall picker target,
     el_id picker = ID_DATE_PICKER ->
     data_caLINEdar_value picker = Some text ->
     data_caLINEdar_value target = None ->
     contains (classList target) "left-btn"
     || contains (classList target) "right-btn" = true ->
     _onPanelButtonClick calendar COUNT_YEAR COUNT_DATES picker target s
     = (Throw TypeError, s)) /\
  (forall picker target,
     el_id picker = ID_DATE_PICKER ->
     data_caLINEdar_value target = Some text ->
     text <> EmptyString ->
     _onPick calendar tza COUNT_DATES picker target s = (Throw TypeError, s)) /\
  (forall picker target cell,
     el_id picker = ID_YEAR_PICKER ->
     data_caLINEdar_value picker = Some text ->
     data_caLINEdar_value target = Some cell ->
     cell <> EmptyString ->
     _onPick calendar tza COUNT_DATES picker target s = (Throw TypeError, s)).
Proof.
  intros Hbad.
  assert (Hnull : _unserializeValue (Some text) = JSON.JNull).
  { unfold _unserializeValue. by rewrite Hbad. }
  split; [exact Hnull|].
  split; [|split].
  - intros picker target Hid Hpicker Htarget Hbtn.
    unfold _onPanelButtonClick.
    rewrite Hpicker, Htarget, Hid, Hnull, Hbtn. reflexivity.
  - intros picker target Hid Htarget Hne.
    unfold _onPick. rewrite Htarget, Hid.
    destruct text as [|c r]; [done|].
    rewrite Hnull. reflexivity.
  - intros picker target cell Hid Hpicker Htarget Hne.
    unfold _onPick. rewrite Htarget, Hid, Hpicker, Hnull.
    destruct cell as [|c r]; [done|]. reflexivity.
Qed.

Definition broken_picker : Element :=
  mkElement ID_DATE_PICKER ["caLINEdar-date-picker"%string] "DIV" (Some "{"%string).

Definition left_button : Element :=
  mkElement ID_OTHER ["caLINEdar-panel__btn"; "left-btn"]%string "DIV" None.

Lemma malformed_value_throws_witness :
  _unserializeValue (Some "{"%string) = JSON.JNull /\
  _onPanelButtonClick (Gregorian.calendar 0 1900 2100) 9 42
    broken_picker left_button (fresh false "" true true false)
  = (Throw TypeError, fresh false "" true true false).
Proof.
  destruct (malformed_value_throws (Gregorian.calendar 0 1900 2100) 0 9 42
              "{" (fresh false "" true true false) eq_refl)
    as (Hnull & Hpanel & _).
  split; [exact Hnull|].
  apply Hpanel; reflexivity.
Defined.

(** The listener of the click is asynchronous: the TypeError rejects the
    promise that the listener returns. *)
Example onPickerClick_malformed :
  _onPickerClick (Gregorian.calendar 0 1900 2100) 0 9 42
    broken_picker left_button (fresh false "" true true false)
  = (Throw TypeError,
     set_store (mkStore None [] [PreventDefault; StopPropagation])
       (fresh false "" true true false)).
Proof. vm_compute. reflexivity. Qed.

(** ** The dates of a month *)

(** The date objects that an array of the store refers to. *)
Definition objects_at (h : list cell) (a : loc) : option (list (option DateObj)) :=
  match h !! a with
  | Some (CArr els) =>
      Some (List.map
              (fun e =>
                 match e with
                 | Some l =>
                     match h !! l with
                     | Some (CObj o) => Some o
                     | _ => None
                     end
                 | None => None
                 end)
              els)
  | _ => None
  end.

(** C10 fails in the code. March 2018 begins on a Thursday, so that four
    slots are empty before its 31 dates, within the 42 of the date picker.
    The loop that fills them, whose condition is
    [emptyCountInStart > 0, i >= 0], goes through the whole of February:
    the list returned has 59 entries, the 28 dates of February, all marked
    [grayOut], and then the 31 dates of March, and none of April. *)
Theorem getLocalDatesToDisplay_whole_previous_month :
  let cal := Gregorian.calendar 0 1900 2100 in
  exists a st dates,
    _getLocalDatesToDisplay cal 42 2018 2 None (mkStore None [] []) = (Ok a, st) /\
    objects_at (heap st) a = Some dates /\
    findIndex (fun d => value d =? Gregorian.weekday 2018 2 1) (getDays cal) = 4 /\
    getDates cal 2018 2 = DatesArray (Gregorian.dates 2018 2) /\
    len (Gregorian.dates 2018 2) = 31 /\
    len dates = 59 /\
    List.map (option_map (fun d => (month d, date d, grayOut d))) dates
    = List.map (fun d => Some (1, d, Bool true)) (seqZ 1 28)
      ++ List.map (fun d => Some (2, d, Undefined)) (seqZ 1 31).
Proof.
  do 3 eexists.
  split; [vm_compute; reflexivity|].
  split; [vm_compute; reflexivity|].
  repeat split; vm_compute; reflexivity.
Qed.

(** ** The cache of month grids

    The cells that the cache refers to (the arrays that [getDates] answered
    and their date objects) are never written: every write of
    [_getLocalDatesToDisplay] goes to a copy. *)

Definition is_obj (h : list cell) (l : loc) : Prop :=
  exists o, h !! l = Some (CObj o).

Definition is_arr (h : list cell) (a : loc) : Prop :=
  exists els, h !! a = Some (CArr els).

(** The array at [a] refers to date objects that are [objs], in order. *)
Definition holds (h : list cell) (a : loc) (objs : list DateObj) : Prop :=
  exists ls,
    h !! a = Some (CArr (Some <$> ls)) /\
    Forall2 (fun l o => h !! l = Some (CObj o)) ls objs.

(** [cache[year][month]], [undefined] while there is no cache. *)
Definition lookup_cache (st : Store) (y m : Z) : ref :=
  cache_lookup (default ∅ (_datesCache st)) y m.

Definition cached_array (st : Store) (a : loc) : Prop :=
  exists y m, lookup_cache st y m = RArr a.

(** The cells of the cache: its arrays and what they refer to. *)
Definition protected (st : Store) (l : loc) : Prop :=
  cached_array st l \/
  exists a els,
    cached_array st a /\ heap st !! a = Some (CArr els) /\ Some l ∈ els.

Definition working_obj (st : Store) (l : loc) : Prop :=
  is_obj (heap st) l /\ ~ protected st l.

Definition working_arr (st : Store) (a : loc) : Prop :=
  is_arr (heap st) a /\ ~ protected st a.

(** An array outside the cache refers to objects outside the cache. *)
Definition working_closed (st : Store) : Prop :=
  forall a els l,
    heap st !! a = Some (CArr els) -> ~ protected st a -> Some l ∈ els ->
    working_obj st l.

(** The cache grows: an entry that is set stays what it is. *)
Definition cache_le (st st' : Store) : Prop :=
  forall y m,
    lookup_cache st y m <> RUndefined ->
    lookup_cache st' y m = lookup_cache st y m.

(** From [st] to [st']: copies stay copies, the cache grows, and the cells
    of the cache are what they were. *)
Definition ext (st st' : Store) : Prop :=
  (forall l, working_obj st l -> working_obj st' l) /\
  (forall a, working_arr st a -> working_arr st' a) /\
  cache_le st st' /\
  (forall l, protected st l -> heap st' !! l = heap st !! l).

Lemma protected_mono (st st' : Store) :
  cache_le st st' ->
  (forall l, protected st l -> heap st' !! l = heap st !! l) ->
  forall l, protected st l -> protected st' l.
Proof.
  intros Hle Hframe l Hl.
  assert (Hcached : forall a, cached_array st a -> cached_array st' a).
  { intros a (y & m & Ha). exists y, m. rewrite Hle; [done|]. by rewrite Ha. }
  destruct Hl as [Hl|(a & els & Ha & Hels & Hin)].
  - left. auto.
  - right. exists a, els. split; [auto|]. split; [|done].
    rewrite Hframe; [done|]. by left.
Qed.

Lemma ext_refl (st : Store) : ext st st.
Proof.
  split; [auto|]. split; [auto|]. split; [|auto].
  by intros y m _.
Qed.

Lemma ext_trans (st1 st2 st3 : Store) : ext st1 st2 -> ext st2 st3 -> ext st1 st3.
Proof.
  intros (Ho1 & Ha1 & Hc1 & Hf1) (Ho2 & Ha2 & Hc2 & Hf2).
  split; [auto|]. split; [auto|]. split.
  - intros y m Hne. rewrite Hc2, Hc1; [done..|]. by rewrite Hc1.
  - intros l Hl. rewrite Hf2, Hf1; [done..|].
    by eapply protected_mono.
Qed.

Section CacheInvariant.
Variable calendar : Calendar.

(** A cached entry is what [getDates] answers for its month. *)
Definition answers (y m : Z) (r : ref) (h : list cell) : Prop :=
  match r with
  | RUndefined => True
  | RNull => getDates calendar y m = DatesNull
  | RArr a =>
      exists objs, getDates calendar y m = DatesArray objs /\ holds h a objs
  end.

Definition cache_faithful (st : Store) : Prop :=
  forall y m, answers y m (lookup_cache st y m) (heap st).

Definition StoreInv (st : Store) : Prop :=
  cache_faithful st /\ working_closed st.

Lemma StoreInv_empty (tr : list effect) : StoreInv (mkStore None [] tr).
Proof.
  split.
  - intros y m. unfold lookup_cache, cache_lookup. simpl.
    by rewrite lookup_empty.
  - intros a els l Ha. simpl in Ha. by rewrite lookup_nil in Ha.
Qed.

Lemma protected_in_heap (st : Store) (l : loc) :
  cache_faithful st -> protected st l -> (l < length (heap st))%nat.
Proof.
  intros Hf [(y & m & Hl)|(a & els & (y & m & Ha) & Hels & Hin)].
  - specialize (Hf y m). rewrite Hl in Hf.
    destruct Hf as (objs & _ & ls & Hcell & _).
    by eapply lookup_lt_Some.
  - specialize (Hf y m). rewrite Ha in Hf.
    destruct Hf as (objs & _ & ls & Hcell & Hall).
    rewrite Hels in Hcell. injection Hcell as ->.
    apply list_elem_of_fmap in Hin as (l' & [= <-] & Hin).
    apply list_elem_of_lookup in Hin as [i Hi].
    destruct (Forall2_lookup_l _ _ _ _ _ Hall Hi) as (o & _ & Ho).
    by eapply lookup_lt_Some.
Qed.

(** A change of the heap that leaves the cells of the cache alone, keeps
    the kind of every cell, and lets arrays outside the cache refer to
    objects outside the cache only. *)
Lemma inv_heap_update (st : Store) (h' : list cell) :
  StoreInv st ->
  (forall l, protected st l -> h' !! l = heap st !! l) ->
  (forall l, is_obj (heap st) l -> is_obj h' l) ->
  (forall a, is_arr (heap st) a -> is_arr h' a) ->
  (forall a els l,
     h' !! a = Some (CArr els) -> ~ protected st a -> Some l ∈ els ->
     is_obj h' l /\ ~ protected st l) ->
  StoreInv (set_heap h' st) /\ ext st (set_heap h' st) /\
  (forall l, protected (set_heap h' st) l <-> protected st l).
Proof.
  intros [Hfaith Hclosed] Hframe Hobj Harr Hnew.
  assert (Hprot : forall l, protected (set_heap h' st) l <-> protected st l).
  { intros l. unfold protected, cached_array, lookup_cache. simpl. split.
    - intros [Hl|(a & els & Ha & Hels & Hin)]; [by left|].
      right. exists a, els. split; [done|]. split; [|done].
      rewrite <- Hframe; [done|]. by left.
    - intros [Hl|(a & els & Ha & Hels & Hin)]; [by left|].
      right. exists a, els. split; [done|]. split; [|done].
      rewrite Hframe; [done|]. by left. }
  split; [split|split; [|exact Hprot]].
  - intros y m. specialize (Hfaith y m).
    unfold lookup_cache in *. simpl.
    destruct (cache_lookup _ y m) as [| |a] eqn:Hr; [done..|].
    destruct Hfaith as (objs & Hget & ls & Hcell & Hall).
    assert (Hca : cached_array st a) by (by exists y, m).
    exists objs. split; [done|]. exists ls. split.
    + rewrite Hframe; [done|]. by left.
    + apply Forall2_same_length_lookup in Hall as [Hlen Hall].
      apply Forall2_same_length_lookup. split; [done|].
      intros i l o Hl Ho. rewrite Hframe; [by eapply Hall|].
      right. exists a, (Some <$> ls). split; [done|]. split; [done|].
      apply list_elem_of_fmap_2. by eapply list_elem_of_lookup_2.
  - intros a els l Ha Hnp Hin. simpl in Ha.
    rewrite Hprot in Hnp.
    destruct (Hnew a els l Ha Hnp Hin) as [Ho Hl].
    split; [done|]. by rewrite Hprot.
  - split; [|split; [|split]].
    + intros l [Ho Hl]. split; [by apply Hobj|by rewrite Hprot].
    + intros a [Ha Hl]. split; [by apply Harr|by rewrite Hprot].
    + by intros y m _.
    + exact Hframe.
Qed.

(** A change of the cache that no lookup sees, or of the trace. *)
Lemma inv_same_lookup (st st' : Store) :
  heap st' = heap st ->
  (forall y m, lookup_cache st' y m = lookup_cache st y m) ->
  StoreInv st ->
  StoreInv st' /\ ext st st'.
Proof.
  intros Hheap Hlook [Hfaith Hclosed].
  assert (Hprot : forall l, protected st' l <-> protected st l).
  { intros l. unfold protected, cached_array.
    rewrite Hheap. by setoid_rewrite Hlook. }
  split; [split|].
  - intros y m. rewrite Hlook, Hheap. apply Hfaith.
  - intros a els l. rewrite Hheap, Hprot. intros Ha Hnp Hin.
    destruct (Hclosed a els l Ha Hnp Hin) as [Ho Hl].
    split; [by rewrite Hheap|by rewrite Hprot].
  - split; [|split; [|split]].
    + intros l [Ho Hl]. split; [by rewrite Hheap|by rewrite Hprot].
    + intros a [Ha Hl]. split; [by rewrite Hheap|by rewrite Hprot].
    + intros y m _. apply Hlook.
    + intros l _. by rewrite Hheap.
Qed.

Lemma cache_lookup_ensure (c : gmap Z (gmap Z ref)) (y y' m' : Z) :
  cache_lookup (match c !! y with Some _ => c | None => <[y := ∅]> c end) y' m'
  = cache_lookup c y' m'.
Proof.
  destruct (c !! y) eqn:Hy; [done|].
  unfold cache_lookup.
  destruct (decide (y' = y)) as [->|Hne].
  - by rewrite lookup_insert_eq, Hy, lookup_empty.
  - by rewrite lookup_insert_ne.
Qed.

Lemma cache_lookup_store (c : gmap Z (gmap Z ref)) (y m : Z) (r : ref)
    (y' m' : Z) :
  cache_lookup (cache_store c y m r) y' m'
  = if decide (y' = y /\ m' = m) then r else cache_lookup c y' m'.
Proof.
  unfold cache_lookup, cache_store.
  destruct (decide (y' = y)) as [->|Hy].
  - rewrite lookup_insert_eq.
    destruct (decide (m' = m)) as [->|Hm].
    + rewrite lookup_insert_eq. by rewrite decide_True.
    + rewrite lookup_insert_ne by done.
      rewrite decide_False by (by intros [_ ?]).
      destruct (c !! y); simpl; [done|]. by rewrite lookup_empty.
  - rewrite lookup_insert_ne by done.
    by rewrite decide_False by (by intros [? _]).
Qed.

(** An entry that is [null] or [undefined] enters the cache. *)
Lemma inv_cache_store_flat (st : Store) (c : gmap Z (gmap Z ref)) (y m : Z)
    (r : ref) (tr : list effect) :
  StoreInv st ->
  (forall y' m', cache_lookup c y' m' = lookup_cache st y' m') ->
  lookup_cache st y m = RUndefined ->
  match r with
  | RArr _ => False
  | RNull => getDates calendar y m = DatesNull
  | RUndefined => True
  end ->
  StoreInv (mkStore (Some (cache_store c y m r)) (heap st) tr) /\
  ext st (mkStore (Some (cache_store c y m r)) (heap st) tr).
Proof.
  intros [Hfaith Hclosed] Hc Hun Hr.
  set (st' := mkStore _ _ _).
  assert (Hlook : forall y' m',
             lookup_cache st' y' m'
             = if decide (y' = y /\ m' = m) then r else lookup_cache st y' m').
  { intros y' m'. unfold lookup_cache at 1. simpl.
    rewrite cache_lookup_store. by rewrite Hc. }
  assert (Hcached : forall a, cached_array st' a <-> cached_array st a).
  { intros a. split; intros (y' & m' & Ha); exists y', m'.
    - rewrite Hlook in Ha. destruct (decide _); [|done].
      subst r. done.
    - rewrite Hlook. destruct (decide _) as [[-> ->]|]; [|done].
      by rewrite Hun in Ha. }
  assert (Hprot : forall l, protected st' l <-> protected st l).
  { intros l. unfold protected. simpl. by setoid_rewrite Hcached. }
  split; [split|].
  - intros y' m'. rewrite Hlook.
    destruct (decide _) as [[-> ->]|]; [|apply Hfaith].
    by destruct r.
  - intros a els l. rewrite Hprot. simpl. intros Ha Hnp Hin.
    destruct (Hclosed a els l Ha Hnp Hin) as [Ho Hl].
    split; [done|by rewrite Hprot].
  - split; [|split; [|split]].
    + intros l [Ho Hl]. split; [done|by rewrite Hprot].
    + intros a [Ha Hl]. split; [done|by rewrite Hprot].
    + intros y' m' Hne. rewrite Hlook.
      destruct (decide _) as [[-> ->]|]; [|done]. by rewrite Hun in Hne.
    + done.
Qed.

(** The answer of [getDates], new in the store, enters the cache. *)
Lemma inv_cache_store_array (st : Store) (c : gmap Z (gmap Z ref)) (y m : Z)
    (objs : list DateObj) (tr : list effect) :
  StoreInv st ->
  (forall y' m', cache_lookup c y' m' = lookup_cache st y' m') ->
  lookup_cache st y m = RUndefined ->
  getDates calendar y m = DatesArray objs ->
  let n := length (heap st) in
  let a := (n + length objs)%nat in
  let h' := heap st ++ (CObj <$> objs) ++ [CArr (Some <$> seq n (length objs))] in
  StoreInv (mkStore (Some (cache_store c y m (RArr a))) h' tr) /\
  ext st (mkStore (Some (cache_store c y m (RArr a))) h' tr).
Proof.
  intros [Hfaith Hclosed] Hc Hun Hget n a h'.
  set (st' := mkStore _ _ _).
  assert (Hheap : heap st' = h') by done.
  assert (Hlook : forall y' m',
             lookup_cache st' y' m'
             = if decide (y' = y /\ m' = m) then RArr a
               else lookup_cache st y' m').
  { intros y' m'. unfold lookup_cache at 1. simpl.
    rewrite cache_lookup_store. by rewrite Hc. }
  assert (Hold : forall l, (l < n)%nat -> h' !! l = heap st !! l).
  { intros l Hl. unfold h'. by rewrite lookup_app_l. }
  assert (Hobjs : forall i o, objs !! i = Some o -> h' !! (n + i)%nat = Some (CObj o)).
  { intros i o Hi. unfold h'.
    rewrite lookup_app_r by (unfold n; lia).
    replace (n + i - length (heap st))%nat with i by (unfold n; lia).
    rewrite lookup_app_l by (rewrite length_fmap; by eapply lookup_lt_Some).
    by rewrite list_lookup_fmap, Hi. }
  assert (Harr : h' !! a = Some (CArr (Some <$> seq n (length objs)))).
  { unfold h', a. rewrite lookup_app_r by (unfold n; lia).
    rewrite lookup_app_r by (rewrite length_fmap; unfold n; lia).
    rewrite length_fmap.
    replace (n + length objs - length (heap st) - length objs)%nat with 0%nat
      by (unfold n; lia).
    done. }
  assert (Hlen : length h' = S a).
  { unfold h', a, n. rewrite !length_app, length_fmap. simpl. lia. }
  assert (Ha : a = (n + length objs)%nat) by done.
  assert (Hn : n = length (heap st)) by done.
  clearbody st' h' a n.
  assert (Hin_old : forall l, protected st l -> (l < n)%nat).
  { intros l Hl. rewrite Hn. by eapply protected_in_heap. }
  assert (Hcached_old : forall b, cached_array st b -> cached_array st' b).
  { intros b (y' & m' & Hb). exists y', m'. rewrite Hlook.
    destruct (decide _) as [[-> ->]|]; [|done]. by rewrite Hun in Hb. }
  assert (Hcached_new : forall b, cached_array st' b -> b = a \/ cached_array st b).
  { intros b (y' & m' & Hb). rewrite Hlook in Hb.
    destruct (decide _); [left; congruence|right; by exists y', m']. }
  assert (Hprot_old : forall l, protected st l -> protected st' l).
  { intros l [Hl|(b & els & Hb & Hels & Hin)]; [left; auto|].
    right. exists b, els. split; [auto|]. split; [|done].
    rewrite Hheap, Hold; [done|]. apply Hin_old. by left. }
  assert (Hprot_new : forall l,
             protected st' l -> protected st l \/ (n <= l)%nat).
  { intros l [Hl|(b & els & Hb & Hels & Hin)].
    - destruct (Hcached_new _ Hl) as [->|Hl']; [right; lia|].
      left. by left.
    - rewrite Hheap in Hels.
      destruct (Hcached_new _ Hb) as [->|Hb'].
      + right. rewrite Harr in Hels. injection Hels as <-.
        apply list_elem_of_fmap in Hin as (l' & [= <-] & Hin).
        apply elem_of_seq in Hin. lia.
      + left. right. exists b, els. split; [done|]. split; [|done].
        rewrite Hold in Hels; [done|].
        apply Hin_old. by left. }
  assert (Hwobj : forall l, working_obj st l -> working_obj st' l).
  { intros l [[o Ho] Hl].
    pose proof (lookup_lt_Some _ _ _ Ho) as Hlt.
    split.
    - exists o. rewrite Hheap, Hold; [done|lia].
    - intros Hp. destruct (Hprot_new _ Hp) as [?|?]; [done|]. lia. }
  split; [split|].
  - intros y' m'. rewrite Hlook, Hheap.
    destruct (decide _) as [[-> ->]|Hne].
    + exists objs. split; [done|].
      exists (seq n (length objs)). split; [done|].
      apply Forall2_same_length_lookup. split; [by rewrite length_seq|].
      intros i l o Hl Ho. apply lookup_seq in Hl as [-> _].
      by apply Hobjs.
    + specialize (Hfaith y' m').
      destruct (lookup_cache st y' m') as [| |b] eqn:Hb; [done..|].
      destruct Hfaith as (objs' & Hget' & ls & Hcell & Hall).
      assert (Hcb : cached_array st b) by (by exists y', m').
      exists objs'. split; [done|]. exists ls. split.
      * rewrite Hold; [done|]. apply Hin_old. by left.
      * apply Forall2_same_length_lookup in Hall as [Hlen' Hall].
        apply Forall2_same_length_lookup. split; [done|].
        intros i l o Hl Ho. rewrite Hold; [by eapply Hall|].
        apply Hin_old. right. exists b, (Some <$> ls).
        split; [done|]. split; [done|].
        apply list_elem_of_fmap_2. by eapply list_elem_of_lookup_2.
  - intros b els l Hb Hnp Hin. rewrite Hheap in Hb.
    destruct (decide (b < n)%nat) as [Hlt|Hge].
    + rewrite Hold in Hb by done.
      apply Hwobj. eapply Hclosed; [exact Hb| |exact Hin].
      intros Hp. apply Hnp. by apply Hprot_old.
    + exfalso.
      destruct (decide (b = a)) as [->|Hne].
      * apply Hnp. left. exists y, m. rewrite Hlook. by rewrite decide_True.
      * pose proof (lookup_lt_Some _ _ _ Hb) as Hb_lt.
        assert (Hi : (b - n < length objs)%nat) by lia.
        destruct (lookup_lt_is_Some_2 objs (b - n)%nat Hi) as [o Ho].
        apply Hobjs in Ho.
        replace (n + (b - n))%nat with b in Ho by lia. congruence.
  - split; [exact Hwobj|]. split; [|split].
    + intros b [[els Hb] Hl].
      pose proof (lookup_lt_Some _ _ _ Hb) as Hlt.
      split.
      * exists els. rewrite Hheap, Hold; [done|lia].
      * intros Hp. destruct (Hprot_new _ Hp) as [?|?]; [done|]. lia.
    + intros y' m' Hne. rewrite Hlook.
      destruct (decide _) as [[-> ->]|]; [|done]. by rewrite Hun in Hne.
    + intros l Hl. rewrite Hheap. apply Hold. by apply Hin_old.
Qed.

End CacheInvariant.

(** *** What each method of the store does to the invariant *)

Section CacheSpecs.
Variable calendar : Calendar.

Let Inv := StoreInv calendar.

(** From a store that satisfies the invariant and [Pre], the method leaves a
    store that satisfies the invariant, reached by [ext], and its result
    satisfies [Post] there. *)
Definition spec {A} (Pre : Store -> Prop) (m : M Store A)
    (Post : A -> Store -> Prop) : Prop :=
  forall st,
    Inv st -> Pre st ->
    Inv (snd (m st)) /\ ext st (snd (m st)) /\
    forall a, fst (m st) = Ok a -> Post a (snd (m st)).

Definition stable (Pre : Store -> Prop) : Prop :=
  forall st st', ext st st' -> Pre st -> Pre st'.

Lemma stable_true : stable (fun _ => True).
Proof. done. Qed.

Lemma stable_and (P Q : Store -> Prop) :
  stable P -> stable Q -> stable (fun st => P st /\ Q st).
Proof. intros HP HQ st st' Hext [? ?]. split; eauto. Qed.

Lemma stable_working_obj (l : loc) : stable (fun st => working_obj st l).
Proof. intros st st' (Ho & _) H. auto. Qed.

Lemma stable_working_arr (a : loc) : stable (fun st => working_arr st a).
Proof. intros st st' (_ & Ha & _) H. auto. Qed.

Lemma stable_working_objs (els : list (option loc)) :
  stable (fun st => forall l, Some l ∈ els -> working_obj st l).
Proof. intros st st' (Ho & _) H l Hl. auto. Qed.

Lemma stable_working_opt (x : option loc) :
  stable (fun st => forall l, x = Some l -> working_obj st l).
Proof. intros st st' (Ho & _) H l Hl. auto. Qed.

Lemma spec_ret {A} (Pre : Store -> Prop) (a : A) (Post : A -> Store -> Prop) :
  (forall st, Pre st -> Post a st) -> spec Pre (ret a) Post.
Proof.
  intros HPost st Hinv Hpre. simpl.
  split; [done|]. split; [apply ext_refl|].
  intros a' [= <-]. auto.
Qed.

Lemma spec_throw {A} (Pre : Store -> Prop) (e : exn) (Post : A -> Store -> Prop) :
  spec Pre (throw e) Post.
Proof. intros st Hinv Hpre. simpl. split; [done|]. split; [apply ext_refl|done]. Qed.

Lemma spec_stuck {A} (Pre : Store -> Prop) (Post : A -> Store -> Prop) :
  spec Pre stuck Post.
Proof. intros st Hinv Hpre. simpl. split; [done|]. split; [apply ext_refl|done]. Qed.

Lemma spec_lift {A} (Pre : Store -> Prop) (r : res A) :
  spec Pre (lift r) (fun _ st => Pre st).
Proof.
  intros st Hinv Hpre. simpl. split; [done|]. split; [apply ext_refl|done].
Qed.

Lemma spec_weaken {A} (Pre Pre' : Store -> Prop) (m : M Store A)
    (Post Post' : A -> Store -> Prop) :
  spec Pre m Post ->
  (forall st, Pre' st -> Pre st) ->
  (forall a st, Post a st -> Post' a st) ->
  spec Pre' m Post'.
Proof.
  intros Hm HPre HPost st Hinv Hpre.
  destruct (Hm st Hinv (HPre _ Hpre)) as (H1 & H2 & H3).
  split; [done|]. split; [done|]. intros a Ha. auto.
Qed.

Lemma spec_bind {A B} (Pre : Store -> Prop) (m : M Store A)
    (Q : A -> Store -> Prop) (k : A -> M Store B) (R : B -> Store -> Prop) :
  stable Pre ->
  spec Pre m Q ->
  (forall a, spec (fun st => Pre st /\ Q a st) (k a) R) ->
  spec Pre (bind m k) R.
Proof.
  intros Hst Hm Hk st Hinv Hpre. unfold bind.
  destruct (Hm st Hinv Hpre) as (Hinv1 & Hext1 & HQ).
  destruct (m st) as [[a|e|] st1]; simpl in *; [|done..].
  destruct (Hk a st1 Hinv1) as (Hinv2 & Hext2 & HR).
  { split; [by eapply Hst|by apply HQ]. }
  split; [done|]. split; [by eapply ext_trans|done].
Qed.

(** A method that reads: the store is as before. *)
Lemma spec_read {A} (Pre : Store -> Prop) (m : M Store A)
    (Post : A -> Store -> Prop) :
  (forall st, snd (m st) = st) ->
  (forall st a, Inv st -> Pre st -> fst (m st) = Ok a -> Post a st) ->
  spec Pre m Post.
Proof.
  intros Hsame HPost st Hinv Hpre. rewrite Hsame.
  split; [done|]. split; [apply ext_refl|]. intros a Ha. by eapply HPost.
Qed.

Lemma read_obj_same (l : loc) (st : Store) : snd (read_obj l st) = st.
Proof. unfold read_obj. by destruct (heap st !! l) as [[]|]. Qed.

Lemma read_arr_same (a : loc) (st : Store) : snd (read_arr a st) = st.
Proof. unfold read_arr. by destruct (heap st !! a) as [[]|]. Qed.

Lemma spec_read_obj (Pre : Store -> Prop) (l : loc) :
  spec Pre (read_obj l) (fun _ st => Pre st).
Proof. apply spec_read; [apply read_obj_same|done]. Qed.

(** An array outside the cache is read: its elements are outside too. *)
Lemma spec_read_arr (Pre : Store -> Prop) (a : loc) :
  (forall st, Pre st -> working_arr st a) ->
  spec Pre (read_arr a)
    (fun els st =>
       Pre st /\ heap st !! a = Some (CArr els) /\
       forall l, Some l ∈ els -> working_obj st l).
Proof.
  intros Ha. apply spec_read; [apply read_arr_same|].
  intros st els [_ Hclosed] Hpre. unfold read_arr.
  destruct (heap st !! a) as [[o|els']|] eqn:Hcell; simpl; [done| |done].
  intros [= ->]. split; [done|]. split; [done|].
  intros l Hl. eapply Hclosed; [exact Hcell| |exact Hl].
  by destruct (Ha _ Hpre).
Qed.

Lemma spec_alloc_obj (Pre : Store -> Prop) (o : DateObj) :
  spec Pre (alloc (CObj o)) (fun l st => working_obj st l).
Proof.
  intros st Hinv _. unfold alloc. simpl.
  pose proof Hinv as [Hfaith Hclosed].
  destruct (inv_heap_update calendar st (heap st ++ [CObj o]) Hinv)
    as (Hinv' & Hext & Hprot).
  - intros l Hl. rewrite lookup_app_l; [done|]. by eapply protected_in_heap.
  - intros l [o' Hl]. exists o'. rewrite lookup_app_l; [done|].
    by eapply lookup_lt_Some.
  - intros a [els Ha]. exists els. rewrite lookup_app_l; [done|].
    by eapply lookup_lt_Some.
  - intros a els l Ha Hnp Hin.
    assert (Hold : heap st !! a = Some (CArr els)).
    { destruct (decide (a < length (heap st))%nat) as [Hlt|Hge].
      - by rewrite lookup_app_l in Ha.
      - rewrite lookup_app_r in Ha by lia.
        destruct (a - length (heap st))%nat; [done|].
        simpl in Ha. by rewrite lookup_nil in Ha. }
    destruct (Hclosed a els l Hold Hnp Hin) as [[o' Ho'] Hl].
    split; [|done]. exists o'. rewrite lookup_app_l; [done|].
    by eapply lookup_lt_Some.
  - split; [done|]. split; [done|].
    intros l [= <-]. split.
    + exists o. simpl. rewrite lookup_app_r by lia.
      by rewrite Nat.sub_diag.
    + rewrite Hprot. intros Hp.
      pose proof (protected_in_heap calendar st _ Hfaith Hp). lia.
Qed.

Lemma spec_alloc_arr (Pre : Store -> Prop) (els : list (option loc)) :
  (forall st, Pre st -> forall l, Some l ∈ els -> working_obj st l) ->
  spec Pre (alloc (CArr els)) (fun a st => working_arr st a).
Proof.
  intros Hels st Hinv Hpre. unfold alloc. simpl.
  pose proof Hinv as [Hfaith Hclosed].
  specialize (Hels st Hpre).
  destruct (inv_heap_update calendar st (heap st ++ [CArr els]) Hinv)
    as (Hinv' & Hext & Hprot).
  - intros l Hl. rewrite lookup_app_l; [done|]. by eapply protected_in_heap.
  - intros l [o' Hl]. exists o'. rewrite lookup_app_l; [done|].
    by eapply lookup_lt_Some.
  - intros a [els' Ha]. exists els'. rewrite lookup_app_l; [done|].
    by eapply lookup_lt_Some.
  - intros a els' l Ha Hnp Hin.
    assert (Hobj : working_obj st l).
    { destruct (decide (a < length (heap st))%nat) as [Hlt|Hge].
      - rewrite lookup_app_l in Ha by done. by eapply Hclosed.
      - rewrite lookup_app_r in Ha by lia.
        destruct (a - length (heap st))%nat; simpl in Ha.
        + injection Ha as <-. auto.
        + by rewrite lookup_nil in Ha. }
    destruct Hobj as [[o' Ho'] Hl].
    split; [|done]. exists o'. rewrite lookup_app_l; [done|].
    by eapply lookup_lt_Some.
  - split; [done|]. split; [done|].
    intros l [= <-]. split.
    + exists els. simpl. rewrite lookup_app_r by lia.
      by rewrite Nat.sub_diag.
    + rewrite Hprot. intros Hp.
      pose proof (protected_in_heap calendar st _ Hfaith Hp). lia.
Qed.

Lemma spec_write_obj (Pre : Store -> Prop) (l : loc) (o : DateObj) :
  (forall st, Pre st -> working_obj st l) ->
  spec Pre (write l (CObj o)) (fun _ _ => True).
Proof.
  intros Hl st Hinv Hpre. unfold write, modify. simpl.
  pose proof Hinv as [Hfaith Hclosed].
  destruct (Hl st Hpre) as [[o0 Ho0] Hnp].
  pose proof (lookup_lt_Some _ _ _ Ho0) as Hlt.
  destruct (inv_heap_update calendar st (<[l := CObj o]> (heap st)) Hinv)
    as (Hinv' & Hext & Hprot).
  - intros l' Hl'. rewrite list_lookup_insert_ne; [done|]. by intros ->.
  - intros l' [o' Hl'].
    destruct (decide (l = l')) as [<-|Hne].
    + exists o. by rewrite list_lookup_insert_eq.
    + exists o'. by rewrite list_lookup_insert_ne.
  - intros a [els Ha].
    exists els. rewrite list_lookup_insert_ne; [done|]. intros ->. congruence.
  - intros a els l' Ha Hnpa Hin.
    assert (Hold : heap st !! a = Some (CArr els)).
    { destruct (decide (l = a)) as [<-|Hne].
      - by rewrite list_lookup_insert_eq in Ha.
      - by rewrite list_lookup_insert_ne in Ha. }
    destruct (Hclosed a els l' Hold Hnpa Hin) as [[o' Ho'] Hl'].
    split; [|done].
    destruct (decide (l = l')) as [<-|Hne].
    + exists o. by rewrite list_lookup_insert_eq.
    + exists o'. by rewrite list_lookup_insert_ne.
  - done.
Qed.

Lemma spec_write_arr (Pre : Store -> Prop) (a : loc)
    (els : list (option loc)) :
  (forall st, Pre st -> working_arr st a) ->
  (forall st, Pre st -> forall l, Some l ∈ els -> working_obj st l) ->
  spec Pre (write a (CArr els)) (fun _ _ => True).
Proof.
  intros Ha Hels st Hinv Hpre. unfold write, modify. simpl.
  pose proof Hinv as [Hfaith Hclosed].
  destruct (Ha st Hpre) as [[els0 Hcell] Hnp].
  specialize (Hels st Hpre).
  pose proof (lookup_lt_Some _ _ _ Hcell) as Hlt.
  destruct (inv_heap_update calendar st (<[a := CArr els]> (heap st)) Hinv)
    as (Hinv' & Hext & Hprot).
  - intros l' Hl'. rewrite list_lookup_insert_ne; [done|]. by intros ->.
  - intros l' [o' Hl'].
    exists o'. rewrite list_lookup_insert_ne; [done|]. intros ->. congruence.
  - intros a' [els' Ha'].
    destruct (decide (a = a')) as [<-|Hne].
    + exists els. by rewrite list_lookup_insert_eq.
    + exists els'. by rewrite list_lookup_insert_ne.
  - intros a' els' l' Ha' Hnpa Hin.
    assert (Hobj : working_obj st l').
    { destruct (decide (a = a')) as [<-|Hne].
      - rewrite list_lookup_insert_eq in Ha' by done.
        injection Ha' as <-. auto.
      - rewrite list_lookup_insert_ne in Ha' by done. by eapply Hclosed. }
    destruct Hobj as [[o' Ho'] Hl'].
    split; [|done].
    exists o'. rewrite list_lookup_insert_ne; [done|]. intros ->. congruence.
  - done.
Qed.

Lemma spec_emitS (Pre : Store -> Prop) (e : effect) :
  spec Pre (emitS e) (fun _ _ => True).
Proof.
  intros st Hinv _. unfold emitS, modify. simpl.
  destruct (inv_same_lookup calendar st (add_effect e st)) as [H1 H2]; done.
Qed.

(** What holds before and is stable holds after. *)
Lemma spec_frame {A} (Pre : Store -> Prop) (m : M Store A)
    (Post : A -> Store -> Prop) :
  stable Pre -> spec Pre m Post -> spec Pre m (fun a st => Pre st /\ Post a st).
Proof.
  intros Hst Hm st Hinv Hpre.
  destruct (Hm st Hinv Hpre) as (H1 & H2 & H3).
  split; [done|]. split; [done|]. intros a Ha. split; [by eapply Hst|auto].
Qed.

Lemma spec_update_obj (Pre : Store -> Prop) (l : loc) (f : DateObj -> DateObj) :
  stable Pre ->
  (forall st, Pre st -> working_obj st l) ->
  spec Pre (update_obj l f) (fun _ _ => True).
Proof.
  intros Hst Hl. unfold update_obj.
  eapply spec_bind; [done|apply spec_read_obj|].
  intros o. apply spec_write_obj. intros st [Hpre _]. auto.
Qed.

Lemma element_same (arr : loc) (i : Z) (st : Store) :
  snd (element arr i st) = st.
Proof.
  unfold element, bind, read_arr.
  destruct (heap st !! arr) as [[o|els]|]; simpl; [done| |done].
  by destruct (nth_Z els i) as [[l|]|].
Qed.

Lemma spec_element (Pre : Store -> Prop) (arr : loc) (i : Z) :
  (forall st, Pre st -> working_arr st arr) ->
  spec Pre (element arr i) (fun l st => working_obj st l).
Proof.
  intros Harr. apply spec_read; [apply element_same|].
  intros st l [_ Hclosed] Hpre. unfold element, bind, read_arr.
  destruct (heap st !! arr) as [[o|els]|] eqn:Hcell; simpl; [done| |done].
  destruct (nth_Z els i) as [[l'|]|] eqn:Hi; simpl; [|done..].
  intros [= <-].
  eapply Hclosed; [exact Hcell|by destruct (Harr _ Hpre)|].
  unfold nth_Z in Hi. destruct (i <? 0); [done|].
  by eapply list_elem_of_lookup_2.
Qed.

Lemma array_length_same (arr : loc) (st : Store) :
  snd (array_length arr st) = st.
Proof.
  unfold array_length, bind, read_arr.
  by destruct (heap st !! arr) as [[o|els]|].
Qed.

Lemma spec_array_length (Pre : Store -> Prop) (arr : loc) :
  spec Pre (array_length arr) (fun _ _ => True).
Proof. apply spec_read; [apply array_length_same|done]. Qed.

Lemma spec_unshift (Pre : Store -> Prop) (arr : loc) (x : option loc) :
  stable Pre ->
  (forall st, Pre st -> working_arr st arr) ->
  (forall st, Pre st -> forall l, x = Some l -> working_obj st l) ->
  spec Pre (unshift arr x) (fun _ _ => True).
Proof.
  intros Hst Harr Hx. unfold unshift.
  eapply spec_bind; [done|by apply spec_read_arr|].
  intros els. apply spec_write_arr.
  - intros st [Hpre _]. auto.
  - intros st [Hpre (_ & _ & Hels)] l Hl.
    apply elem_of_cons in Hl as [Hl|Hl]; [by eapply Hx|auto].
Qed.

Lemma spec_push (Pre : Store -> Prop) (arr : loc) (x : option loc) :
  stable Pre ->
  (forall st, Pre st -> working_arr st arr) ->
  (forall st, Pre st -> forall l, x = Some l -> working_obj st l) ->
  spec Pre (push arr x) (fun _ _ => True).
Proof.
  intros Hst Harr Hx. unfold push.
  eapply spec_bind; [done|by apply spec_read_arr|].
  intros els. apply spec_write_arr.
  - intros st [Hpre _]. auto.
  - intros st [Hpre (_ & _ & Hels)] l Hl.
    apply elem_of_app in Hl as [Hl|Hl]; [auto|].
    apply list_elem_of_singleton in Hl. by eapply Hx.
Qed.

(** The two arrays that a filling loop works on. *)
Definition both (src dst : loc) (st : Store) : Prop :=
  working_arr st src /\ working_arr st dst.

Lemma stable_both (src dst : loc) : stable (both src dst).
Proof. apply stable_and; apply stable_working_arr. Qed.

Lemma spec_fill_start (fuel : nat) (prevDates dates : loc) :
  forall i e,
    spec (both prevDates dates) (fill_start fuel prevDates dates i e)
      (fun _ _ => True).
Proof.
  induction fuel as [|f IH]; intros i e; simpl.
  - destruct (comma _ _); [apply spec_stuck|by apply spec_ret].
  - destruct (comma _ _); [|by apply spec_ret].
    eapply spec_bind; [apply stable_both| |].
    { apply spec_element. by intros st [? ?]. }
    intros d.
    eapply spec_bind.
    { apply stable_and; [apply stable_both|apply stable_working_obj]. }
    { apply spec_update_obj.
      - apply stable_and; [apply stable_both|apply stable_working_obj].
      - by intros st [_ ?]. }
    intros ?.
    eapply spec_bind.
    { apply stable_and; [|by intros ? ? ? ?].
      apply stable_and; [apply stable_both|apply stable_working_obj]. }
    { apply spec_unshift.
      - apply stable_and; [|by intros ? ? ? ?].
        apply stable_and; [apply stable_both|apply stable_working_obj].
      - by intros st [[[_ ?] _] _].
      - by intros st [[_ ?] _] l [= <-]. }
    intros ?.
    eapply spec_weaken; [apply IH| |done].
    by intros st [[[? _] _] _].
Qed.

Lemma spec_fill_tail (fuel : nat) (nextDates dates : loc) :
  forall i e,
    spec (both nextDates dates) (fill_tail fuel nextDates dates i e)
      (fun _ _ => True).
Proof.
  induction fuel as [|f IH]; intros i e; simpl.
  - eapply spec_bind; [apply stable_both|apply spec_array_length|].
    intros n. destruct (comma _ _); [apply spec_stuck|by apply spec_ret].
  - eapply spec_bind; [apply stable_both|apply spec_array_length|].
    intros n. destruct (comma _ _); [|by apply spec_ret].
    assert (Hst : stable (fun st => both nextDates dates st /\ True)).
    { apply stable_and; [apply stable_both|by intros ? ? ? ?]. }
    eapply spec_bind; [done| |].
    { apply spec_element. by intros st [[? ?] _]. }
    intros d.
    eapply spec_bind.
    { apply stable_and; [done|apply stable_working_obj]. }
    { apply spec_update_obj.
      - apply stable_and; [done|apply stable_working_obj].
      - by intros st [_ ?]. }
    intros ?.
    eapply spec_bind.
    { apply stable_and; [|by intros ? ? ? ?].
      apply stable_and; [done|apply stable_working_obj]. }
    { apply spec_push.
      - apply stable_and; [|by intros ? ? ? ?].
        apply stable_and; [done|apply stable_working_obj].
      - by intros st [[[[_ ?] _] _] _].
      - by intros st [[_ ?] _] l [= <-]. }
    intros ?.
    eapply spec_weaken; [apply IH| |done].
    by intros st [[[[? _] _] _] _].
Qed.

Lemma spec_fill_start_null (fuel : nat) (dates : loc) :
  forall e,
    spec (fun st => working_arr st dates) (fill_start_null fuel dates e)
      (fun _ _ => True).
Proof.
  induction fuel as [|f IH]; intros e; simpl.
  - destruct (e >? 0); [apply spec_stuck|by apply spec_ret].
  - destruct (e >? 0); [|by apply spec_ret].
    eapply spec_bind; [apply stable_working_arr| |].
    { apply spec_unshift; [apply stable_working_arr|done..]. }
    intros ?. eapply spec_weaken; [apply IH| |done]. by intros st [? _].
Qed.

Lemma spec_fill_tail_null (fuel : nat) (dates : loc) :
  forall e,
    spec (fun st => working_arr st dates) (fill_tail_null fuel dates e)
      (fun _ _ => True).
Proof.
  induction fuel as [|f IH]; intros e; simpl.
  - destruct (e >? 0); [apply spec_stuck|by apply spec_ret].
  - destruct (e >? 0); [|by apply spec_ret].
    eapply spec_bind; [apply stable_working_arr| |].
    { apply spec_push; [apply stable_working_arr|done..]. }
    intros ?. eapply spec_weaken; [apply IH| |done]. by intros st [? _].
Qed.

Lemma spec_tag_all (datePicked : option DateObj) (els : list (option loc)) :
  spec (fun st => forall l, Some l ∈ els -> working_obj st l)
    (tag_all datePicked els) (fun _ _ => True).
Proof.
  induction els as [|[l|] els IH]; simpl.
  - by apply spec_ret.
  - eapply spec_bind; [apply stable_working_objs| |].
    { apply spec_update_obj; [apply stable_working_objs|].
      intros st H. apply H. by left. }
    intros ?. eapply spec_weaken; [apply IH| |done].
    intros st [H _] l' Hl'. apply H. by right.
  - eapply spec_weaken; [apply IH| |done].
    intros st H l' Hl'. apply H. by right.
Qed.

(** A step whose result is not needed for what follows. *)
Lemma spec_seq {A B} (Pre : Store -> Prop) (m : M Store A)
    (k : A -> M Store B) (R : B -> Store -> Prop) :
  stable Pre ->
  spec Pre m (fun _ _ => True) ->
  (forall a, spec Pre (k a) R) ->
  spec Pre (bind m k) R.
Proof.
  intros Hst Hm Hk. eapply spec_bind; [done|exact Hm|].
  intros a. eapply spec_weaken; [apply Hk| |done]. by intros st [? _].
Qed.

Lemma set_heap_same (st : Store) : set_heap (heap st) st = st.
Proof. by destruct st. Qed.

Lemma alloc_objs_run (objs : list DateObj) :
  forall st,
    alloc_objs objs st
    = (Ok (Some <$> seq (length (heap st)) (length objs)),
       set_heap (heap st ++ (CObj <$> objs)) st).
Proof.
  induction objs as [|o objs IH]; intros st; simpl.
  - unfold ret. by rewrite app_nil_r, set_heap_same.
  - unfold bind, alloc at 1. rewrite IH. unfold ret. simpl.
    rewrite length_app. simpl.
    replace (length (heap st) + 1)%nat with (S (length (heap st))) by lia.
    by rewrite <- app_assoc.
Qed.

Lemma copy_objs_run (ls : list loc) (objs : list DateObj) :
  forall st,
    Forall2 (fun l o => heap st !! l = Some (CObj o)) ls objs ->
    copy_objs (Some <$> ls) st
    = (Ok (Some <$> seq (length (heap st)) (length objs)),
       set_heap (heap st ++ (CObj <$> objs)) st).
Proof.
  revert objs.
  induction ls as [|l ls IH]; intros objs st Hall.
  - apply Forall2_nil_inv_l in Hall as ->. simpl.
    unfold ret. by rewrite app_nil_r, set_heap_same.
  - apply Forall2_cons_inv_l in Hall as (o & objs' & Ho & Hall & ->).
    simpl. unfold bind, read_obj at 1. rewrite Ho.
    unfold alloc at 1.
    rewrite (IH objs').
    + unfold ret. simpl. rewrite length_app. simpl.
      replace (length (heap st) + 1)%nat with (S (length (heap st))) by lia.
      by rewrite <- app_assoc.
    + simpl. eapply Forall2_impl; [exact Hall|].
      intros l' o' Hl'. simpl in Hl'.
      rewrite lookup_app_l; [done|]. by eapply lookup_lt_Some.
Qed.

(** The store after the copy of an array of [k] objects: the copies, then
    the array that refers to them. *)
Definition with_copy (st : Store) (objs : list DateObj) : Store :=
  set_heap
    (heap st ++ (CObj <$> objs)
     ++ [CArr (Some <$> seq (length (heap st)) (length objs))])
    st.

Lemma copy_dates_run (st : Store) (a : loc) (objs : list DateObj) :
  holds (heap st) a objs ->
  copy_dates (RArr a) st
  = (Ok (RArr (length (heap st) + length objs)%nat), with_copy st objs).
Proof.
  intros (ls & Hcell & Hall). unfold copy_dates, bind, read_arr.
  rewrite Hcell. rewrite (copy_objs_run ls objs st Hall).
  unfold alloc, ret, with_copy. simpl.
  rewrite length_app, length_fmap. by rewrite <- app_assoc.
Qed.

Lemma with_copy_lookup_old (st : Store) (objs : list DateObj) (l : loc) :
  (l < length (heap st))%nat ->
  heap (with_copy st objs) !! l = heap st !! l.
Proof. intros Hl. simpl. by rewrite lookup_app_l. Qed.

Lemma with_copy_lookup_obj (st : Store) (objs : list DateObj) (i : nat)
    (o : DateObj) :
  objs !! i = Some o ->
  heap (with_copy st objs) !! (length (heap st) + i)%nat = Some (CObj o).
Proof.
  intros Hi. simpl. rewrite lookup_app_r by lia.
  replace (length (heap st) + i - length (heap st))%nat with i by lia.
  rewrite lookup_app_l by (rewrite length_fmap; by eapply lookup_lt_Some).
  by rewrite list_lookup_fmap, Hi.
Qed.

Lemma with_copy_lookup_arr (st : Store) (objs : list DateObj) :
  heap (with_copy st objs) !! (length (heap st) + length objs)%nat
  = Some (CArr (Some <$> seq (length (heap st)) (length objs))).
Proof.
  simpl. rewrite lookup_app_r by lia.
  rewrite lookup_app_r by (rewrite length_fmap; lia).
  rewrite length_fmap.
  replace (length (heap st) + length objs - length (heap st) - length objs)%nat
    with 0%nat by lia.
  done.
Qed.

Lemma with_copy_length (st : Store) (objs : list DateObj) :
  length (heap (with_copy st objs)) = S (length (heap st) + length objs).
Proof. simpl. rewrite !length_app, length_fmap. simpl. lia. Qed.

Lemma holds_with_copy (st : Store) (objs : list DateObj) :
  holds (heap (with_copy st objs)) (length (heap st) + length objs)%nat objs.
Proof.
  exists (seq (length (heap st)) (length objs)).
  split; [apply with_copy_lookup_arr|].
  apply Forall2_same_length_lookup. split; [by rewrite length_seq|].
  intros i l o Hl Ho. apply lookup_seq in Hl as [-> _].
  by apply with_copy_lookup_obj.
Qed.

(** The copy of a cached array is outside the cache, and the cache is as
    it was. *)
Lemma inv_with_copy (st : Store) (objs : list DateObj) :
  Inv st ->
  Inv (with_copy st objs) /\ ext st (with_copy st objs) /\
  working_arr (with_copy st objs) (length (heap st) + length objs)%nat.
Proof.
  intros Hinv. pose proof Hinv as [Hfaith Hclosed].
  assert (Hin : forall l, protected st l -> (l < length (heap st))%nat).
  { intros l Hl. by eapply protected_in_heap. }
  destruct (inv_heap_update calendar st (heap (with_copy st objs)) Hinv)
    as (Hinv' & Hext & Hprot).
  - intros l Hl. apply with_copy_lookup_old. auto.
  - intros l [o Hl]. exists o. rewrite with_copy_lookup_old; [done|].
    by eapply lookup_lt_Some.
  - intros b [els Hb]. exists els. rewrite with_copy_lookup_old; [done|].
    by eapply lookup_lt_Some.
  - intros b els l Hb Hnp Hl.
    destruct (decide (b < length (heap st))%nat) as [Hlt|Hge].
    + rewrite with_copy_lookup_old in Hb by done.
      destruct (Hclosed b els l Hb Hnp Hl) as [[o Ho] Hnl].
      split; [|done]. exists o. rewrite with_copy_lookup_old; [done|].
      by eapply lookup_lt_Some.
    + destruct (decide (b = length (heap st) + length objs)%nat) as [->|Hne].
      * rewrite with_copy_lookup_arr in Hb. injection Hb as <-.
        apply list_elem_of_fmap in Hl as (l' & [= <-] & Hl).
        apply elem_of_seq in Hl.
        split; [|intros Hp; apply Hin in Hp; lia].
        destruct (lookup_lt_is_Some_2 objs (l - length (heap st))%nat
                    ltac:(lia)) as [o Ho].
        exists o.
        replace l with (length (heap st) + (l - length (heap st)))%nat
          at 1 by lia.
        by apply with_copy_lookup_obj.
      * exfalso.
        pose proof (lookup_lt_Some _ _ _ Hb) as Hlen.
        rewrite with_copy_length in Hlen.
        destruct (lookup_lt_is_Some_2 objs (b - length (heap st))%nat
                    ltac:(lia)) as [o Ho].
        apply (with_copy_lookup_obj st) in Ho.
        replace (length (heap st) + (b - length (heap st)))%nat with b
          in Ho by lia.
        congruence.
  - split; [exact Hinv'|]. split; [exact Hext|].
    split.
    + eexists. apply with_copy_lookup_arr.
    + intros Hp. apply Hprot, Hin in Hp. lia.
Qed.

(** What [_getDatesWithCache] returns for a month: a copy of what
    [getDates] answers, outside the cache. *)
Definition fetched (y m : Z) (r : ref) (st : Store) : Prop :=
  match r with
  | RArr a =>
      working_arr st a /\
      exists objs, getDates calendar y m = DatesArray objs /\ holds (heap st) a objs
  | RNull => getDates calendar y m = DatesNull
  | RUndefined => getDates calendar y m = DatesUndefined
  end.

Lemma copy_cached (st : Store) (y m : Z) (a : loc) :
  Inv st ->
  lookup_cache st y m = RArr a ->
  exists a' st',
    copy_dates (RArr a) st = (Ok (RArr a'), st') /\
    Inv st' /\ ext st st' /\ fetched y m (RArr a') st' /\
    trace st' = trace st.
Proof.
  intros Hinv Ha. pose proof Hinv as [Hfaith _].
  specialize (Hfaith y m). rewrite Ha in Hfaith.
  destruct Hfaith as (objs & Hget & Hholds).
  rewrite (copy_dates_run st a objs Hholds).
  destruct (inv_with_copy st objs Hinv) as (Hinv' & Hext & Hwork).
  do 2 eexists. split; [reflexivity|].
  split; [done|]. split; [done|]. split; [|done].
  split; [done|]. exists objs. split; [done|]. apply holds_with_copy.
Qed.

#[local] Arguments copy_dates : simpl never.

Lemma getDatesWithCache_run (y m : Z) (st : Store) :
  Inv st ->
  exists r st',
    _getDatesWithCache calendar y m st = (Ok r, st') /\
    Inv st' /\ ext st st' /\ fetched y m r st' /\
    (lookup_cache st y m <> RUndefined -> trace st' = trace st) /\
    (lookup_cache st y m = RUndefined ->
     trace st' = trace st ++ [CalendarGetDates y m]).
Proof.
  intros Hinv. unfold _getDatesWithCache, bind, get, modify. simpl.
  set (c := match default ∅ (_datesCache st) !! y with
            | Some _ => default ∅ (_datesCache st)
            | None => <[y := ∅]> (default ∅ (_datesCache st))
            end).
  set (st1 := set_datesCache (Some c) st).
  assert (Hc : forall y' m', cache_lookup c y' m' = lookup_cache st y' m').
  { intros y' m'. apply cache_lookup_ensure. }
  assert (Hlook1 : forall y' m', lookup_cache st1 y' m' = lookup_cache st y' m').
  { intros y' m'. unfold lookup_cache at 1. simpl. apply Hc. }
  destruct (inv_same_lookup calendar st st1 eq_refl Hlook1 Hinv)
    as [Hinv1 Hext1].
  rewrite Hc.
  destruct (lookup_cache st y m) as [| |a] eqn:Hr.
  - (* not in the cache: the calendar is asked *)
    unfold calendar_getDates, bind, emitS, modify. simpl.
    set (st2 := add_effect (CalendarGetDates y m) st1).
    assert (Hlook2 : forall y' m',
               lookup_cache st2 y' m' = lookup_cache st1 y' m') by done.
    destruct (inv_same_lookup calendar st1 st2 eq_refl Hlook2 Hinv1)
      as [Hinv2 Hext2].
    assert (Hc2 : forall y' m', cache_lookup c y' m' = lookup_cache st2 y' m').
    { intros y' m'. by rewrite Hlook2, Hlook1. }
    assert (Hun2 : lookup_cache st2 y m = RUndefined).
    { by rewrite Hlook2, Hlook1. }
    destruct (getDates calendar y m) as [| |objs] eqn:Hget; simpl.
    + destruct (inv_cache_store_flat calendar st2 c y m RUndefined (trace st2)
                  Hinv2 Hc2 Hun2 I) as [Hinv3 Hext3].
      do 2 eexists. split; [reflexivity|].
      split; [exact Hinv3|].
      split; [eauto using ext_trans|].
      split; [done|]. split; [done|]. done.
    + destruct (inv_cache_store_flat calendar st2 c y m RNull (trace st2)
                  Hinv2 Hc2 Hun2 Hget) as [Hinv3 Hext3].
      do 2 eexists. split; [reflexivity|].
      split; [exact Hinv3|].
      split; [eauto using ext_trans|].
      split; [done|]. split; [done|]. done.
    + rewrite alloc_objs_run. unfold alloc, ret. simpl.
      destruct (inv_cache_store_array calendar st2 c y m objs (trace st2)
                  Hinv2 Hc2 Hun2 Hget) as [Hinv3 Hext3].
      rewrite length_app, length_fmap, <- app_assoc.
      set (st3 := mkStore _ _ _) in Hinv3, Hext3.
      assert (Hcached : lookup_cache st3 y m
                        = RArr (length (heap st) + length objs)%nat).
      { unfold lookup_cache. simpl. rewrite cache_lookup_store.
        by rewrite decide_True. }
      destruct (copy_cached st3 y m _ Hinv3 Hcached)
        as (a' & st4 & Hrun & Hinv4 & Hext4 & Hf & Htr).
      match goal with
      | |- context [copy_dates ?r ?s] =>
          change (copy_dates r s)
            with (copy_dates (RArr (length (heap st) + length objs)%nat) st3)
      end.
      rewrite Hrun.
      do 2 eexists. split; [reflexivity|].
      split; [done|].
      split; [eauto using ext_trans|].
      split; [done|]. split; [done|].
      intros _. by rewrite Htr.
  - (* [null] in the cache *)
    simpl. do 2 eexists. split; [reflexivity|].
    split; [done|]. split; [done|].
    split; [|done].
    destruct Hinv as [Hfaith _]. specialize (Hfaith y m). by rewrite Hr in Hfaith.
  - (* an array in the cache: it is copied *)
    assert (Hcached : lookup_cache st1 y m = RArr a) by (by rewrite Hlook1).
    destruct (copy_cached st1 y m _ Hinv1 Hcached)
      as (a' & st2 & Hrun & Hinv2 & Hext2 & Hf & Htr).
    simpl. rewrite Hrun.
    do 2 eexists. split; [reflexivity|].
    split; [done|].
    split; [eauto using ext_trans|].
    split; [done|]. split; [done|]. done.
Qed.

Lemma spec_getDatesWithCache (Pre : Store -> Prop) (y m : Z) :
  spec Pre (_getDatesWithCache calendar y m)
    (fun r st => match r with RArr a => working_arr st a | _ => True end).
Proof.
  intros st Hinv _.
  destruct (getDatesWithCache_run y m st Hinv)
    as (r & st' & -> & Hinv' & Hext & Hf & _). simpl.
  split; [done|]. split; [done|].
  intros r' [= <-]. destruct r; [done..|]. by destruct Hf.
Qed.

Lemma spec_forget {A} (Pre : Store -> Prop) (m : M Store A)
    (Post : A -> Store -> Prop) :
  spec Pre m Post -> spec Pre m (fun _ _ => True).
Proof. intros Hm. eapply spec_weaken; [exact Hm|done..]. Qed.

(** One of the two neighbours of the month, fetched when slots are left. *)
Lemma spec_neighbour (dates : loc) (wanted : bool) (t : res YearMonth) :
  spec (fun st => working_arr st dates)
    (if wanted
     then let* n := lift t in _getDatesWithCache calendar (ym_year n) (ym_month n)
     else ret RNull)
    (fun r st => match r with RArr p => working_arr st p | _ => True end).
Proof.
  destruct wanted; [|by apply spec_ret].
  eapply spec_seq; [apply stable_working_arr| |].
  - eapply spec_forget, spec_lift.
  - intros n. apply spec_getDatesWithCache.
Qed.

Lemma stable_neighbour (dates : loc) (r : ref) :
  stable (fun st =>
            working_arr st dates /\
            match r with RArr p => working_arr st p | _ => True end).
Proof.
  apply stable_and; [apply stable_working_arr|].
  destruct r; [apply stable_true..|apply stable_working_arr].
Qed.

Lemma findIndex_day_same (days : list Entry) (dates : loc) (st : Store) :
  snd (findIndex_day days dates st) = st.
Proof.
  induction days as [|d r IH]; [done|].
  cbn [findIndex_day]. unfold bind at 1.
  pose proof (element_same dates 0 st) as He.
  destruct (element dates 0 st) as [[l| |] st1]; simpl in He; subst st1;
    [|done..].
  unfold bind at 1.
  pose proof (read_obj_same l st) as Ho.
  destruct (read_obj l st) as [[first| |] st1]; simpl in Ho; subst st1;
    [|done..].
  destruct (value d =? day first); [done|].
  unfold bind.
  destruct (findIndex_day r dates st) as [[i| |] st1]; simpl in IH; subst st1;
    done.
Qed.

Lemma spec_findIndex_day (Pre : Store -> Prop) (days : list Entry)
    (dates : loc) :
  spec Pre (findIndex_day days dates) (fun _ _ => True).
Proof. apply spec_read; [apply findIndex_day_same|done]. Qed.

(** [_getLocalDatesToDisplay] writes to copies only: it keeps the
    invariant of the cache, and the array it returns is outside the cache. *)
Lemma spec_getLocalDatesToDisplay (COUNT_DATES y m : Z)
    (datePicked : option DateObj) :
  spec (fun _ => True)
    (_getLocalDatesToDisplay calendar COUNT_DATES y m datePicked)
    (fun a st => working_arr st a).
Proof.
  unfold _getLocalDatesToDisplay.
  eapply spec_bind; [apply stable_true|apply spec_getDatesWithCache|].
  intros [| |dates]; [apply spec_throw..|].
  eapply spec_weaken with (Pre := fun st => working_arr st dates);
    [|by intros st [_ ?]|intros a st H; exact H].
  pose proof (stable_working_arr dates) as Hst.
  eapply spec_seq; [done|apply spec_findIndex_day|intros firstDayIdx].
  eapply spec_bind; [done|apply spec_neighbour|intros prevDates].
  eapply spec_seq; [apply stable_neighbour| |intros e1].
  { destruct prevDates as [| |p]; [by apply spec_ret..|].
    eapply spec_seq; [apply (stable_neighbour dates (RArr p))| |intros n].
    - apply spec_array_length.
    - eapply spec_weaken; [apply spec_fill_start| |done].
      by intros st [? ?]. }
  eapply spec_weaken with (Pre := fun st => working_arr st dates);
    [|by intros st [? _]|intros a st H; exact H].
  eapply spec_seq; [done|apply spec_fill_start_null|intros e2].
  eapply spec_seq; [done|apply spec_array_length|intros n].
  eapply spec_bind; [done|apply spec_neighbour|intros nextDates].
  eapply spec_seq; [apply stable_neighbour| |intros e3].
  { destruct nextDates as [| |p]; [by apply spec_ret..|].
    eapply spec_seq; [apply (stable_neighbour dates (RArr p))| |intros k].
    - apply spec_array_length.
    - eapply spec_weaken; [apply spec_fill_tail| |done].
      by intros st [? ?]. }
  eapply spec_weaken with (Pre := fun st => working_arr st dates);
    [|by intros st [? _]|intros a st H; exact H].
  eapply spec_seq; [done|apply spec_fill_tail_null|intros e4].
  eapply spec_bind with
    (Q := fun els st => forall l, Some l ∈ els -> working_obj st l); [done| |].
  { eapply spec_weaken;
      [apply (spec_read_arr (fun st => working_arr st dates) dates); done
      |done|].
    by intros els st (_ & _ & ?). }
  intros els.
  eapply spec_seq.
  - apply stable_and; [done|apply stable_working_objs].
  - eapply spec_weaken; [apply spec_tag_all| |done]. by intros st [_ ?].
  - intros ?. apply spec_ret. by intros st [? _].
Qed.

End CacheSpecs.

(** *** The cache under the methods of the controller *)

(** The month [y], [m] is cached as the array [a], which refers to
    [objs], the answer of [getDates]. *)
Definition cached_grid (calendar : Calendar) (st : Store) (y m : Z) (a : loc)
    (objs : list DateObj) : Prop :=
  lookup_cache st y m = RArr a /\
  holds (heap st) a objs /\
  getDates calendar y m = DatesArray objs.

Lemma cached_grid_ext (calendar : Calendar) (st st' : Store) (y m : Z)
    (a : loc) (objs : list DateObj) :
  cached_grid calendar st y m a objs -> ext st st' ->
  cached_grid calendar st' y m a objs.
Proof.
  intros (Hlook & (ls & Hcell & Hall) & Hget) (_ & _ & Hle & Hframe).
  assert (Hca : cached_array st a) by (by exists y, m).
  split; [|split; [|done]].
  - rewrite Hle; [done|]. by rewrite Hlook.
  - exists ls. split.
    + rewrite Hframe; [done|]. by left.
    + apply Forall2_same_length_lookup in Hall as [Hlen Hall].
      apply Forall2_same_length_lookup. split; [done|].
      intros i l o Hl Ho. rewrite Hframe; [by eapply Hall|].
      right. exists a, (Some <$> ls). split; [done|]. split; [done|].
      apply list_elem_of_fmap_2. by eapply list_elem_of_lookup_2.
Qed.

Section CacheTheorem.
Variable calendar : Calendar.
Variables tza COUNT_YEAR COUNT_DATES : Z.

(** The store of the controller satisfies the invariant and is reached
    from [st0]. *)
Definition store_ok (st0 : Store) (s : State) : Prop :=
  StoreInv calendar (store s) /\ ext st0 (store s).

Lemma store_ok_liftS (st0 : Store) {A} (m : M Store A)
    (Post : A -> Store -> Prop) :
  spec calendar (fun _ => True) m Post -> keeps (store_ok st0) (liftS m).
Proof.
  intros Hm. apply keeps_liftS. intros s [Hinv Hext].
  destruct (Hm (store s) Hinv I) as (Hinv' & Hext' & _).
  split; [exact Hinv'|]. by eapply ext_trans.
Qed.

Lemma store_ok_emit (st0 : Store) (e : effect) : keeps (store_ok st0) (emit e).
Proof. eapply store_ok_liftS, spec_emitS. Qed.

Lemma store_ok_setDate (st0 : Store) (date : jsarg) :
  keeps (store_ok st0) (setDate calendar tza date).
Proof.
  unfold setDate.
  destruct (newDate_of date) as [d|]; [|apply keeps_ret].
  destruct (local_of calendar tza (align tza d)) as [l|].
  - apply keeps_bind; [|intros ?; apply keeps_ret].
    apply keeps_modify. by intros s Hs.
  - apply keeps_bind; [apply store_ok_emit|intros ?; apply keeps_ret].
Qed.

Lemma store_ok_clearDate (st0 : Store) : keeps (store_ok st0) (clearDate calendar).
Proof. apply keeps_modify. by intros s Hs. Qed.

Lemma store_ok_perform (st0 : Store) (op : operation) :
  keeps (store_ok st0) (perform calendar tza COUNT_YEAR COUNT_DATES op).
Proof.
  apply keeps_perform;
    eauto using store_ok_setDate, store_ok_clearDate, store_ok_emit,
      store_ok_liftS, spec_getLocalDatesToDisplay.
Qed.

Lemma store_ok_constructor (st0 : Store) (date : jsarg)
    (props : list (string * option nat)) :
  keeps (store_ok st0) (constructor calendar tza date props).
Proof.
  apply keeps_constructor;
    eauto using store_ok_setDate, store_ok_clearDate, store_ok_emit.
Qed.

End CacheTheorem.

(** C9. An entry of the cache, once it is there, stays the array that
    [getDates] answered, with the same date objects in it: every method and
    every handler of the controller, and [_getLocalDatesToDisplay] with the
    [grayOut], [special], [picked], [text] and [value] that it writes, leave
    the cells of the cache as they are, since every write goes to a copy.
    A later [_getDatesWithCache] for the same month does not ask the
    calendar again and returns a new array of new objects equal to the
    cached ones. The store of a new controller satisfies the invariant this
    rests on. *)
Theorem cache_entries_immutable (calendar : Calendar)
    (tza COUNT_YEAR COUNT_DATES : Z) (s : State) (y m : Z) (a : loc) :
  StoreInv calendar (store s) ->
  lookup_cache (store s) y m = RArr a ->
  exists objs,
    cached_grid calendar (store s) y m a objs /\
    (forall op,
       let s' := snd (perform calendar tza COUNT_YEAR COUNT_DATES op s) in
       StoreInv calendar (store s') /\
       cached_grid calendar (store s') y m a objs /\
       forall l, protected (store s) l ->
                 heap (store s') !! l = heap (store s) !! l) /\
    (forall y' m' datePicked,
       let st' :=
         snd (_getLocalDatesToDisplay calendar COUNT_DATES y' m' datePicked
                (store s)) in
       StoreInv calendar st' /\
       cached_grid calendar st' y m a objs /\
       forall l, protected (store s) l -> heap st' !! l = heap (store s) !! l) /\
    (exists a' st',
       _getDatesWithCache calendar y m (store s) = (Ok (RArr a'), st') /\
       a' <> a /\
       holds (heap st') a' objs /\
       trace st' = trace (store s) /\
       StoreInv calendar st' /\
       cached_grid calendar st' y m a objs) /\
    (forall rtl input0 current isOpen small date props,
       StoreInv calendar
         (store (snd (constructor calendar tza date props
                        (fresh rtl input0 current isOpen small))))).
Proof.
  intros Hinv Hlook.
  pose proof Hinv as [Hfaith _].
  pose proof (Hfaith y m) as Hentry. rewrite Hlook in Hentry.
  destruct Hentry as (objs & Hget & Hholds).
  assert (Hgrid : cached_grid calendar (store s) y m a objs) by done.
  exists objs. split; [exact Hgrid|].
  split; [|split; [|split]].
  - intros op s'.
    destruct (store_ok_perform calendar tza COUNT_YEAR COUNT_DATES
                (store s) op s) as [Hinv' Hext].
    { split; [done|apply ext_refl]. }
    fold s' in Hinv', Hext.
    split; [done|]. split; [by eapply cached_grid_ext|].
    by destruct Hext as (_ & _ & _ & ?).
  - intros y' m' datePicked st'.
    destruct (spec_getLocalDatesToDisplay calendar COUNT_DATES y' m'
                datePicked (store s) Hinv I) as (Hinv' & Hext & _).
    fold st' in Hinv', Hext.
    split; [done|]. split; [by eapply cached_grid_ext|].
    by destruct Hext as (_ & _ & _ & ?).
  - destruct (getDatesWithCache_run calendar y m (store s) Hinv)
      as (r & st' & Hrun & Hinv' & Hext & Hf & Htr & _).
    pose proof (cached_grid_ext _ _ _ _ _ _ _ Hgrid Hext) as Hgrid'.
    assert (Hr : exists a', r = RArr a') .
    { destruct r as [| |a']; simpl in Hf; [congruence..|by exists a']. }
    destruct Hr as [a' ->].
    destruct Hf as ([_ Hnp] & objs' & Hget' & Hholds').
    assert (objs' = objs) as -> by congruence.
    exists a', st'. split; [done|].
    split.
    { intros ->. apply Hnp. left. exists y, m. by destruct Hgrid'. }
    split; [done|]. split; [|done].
    apply Htr. by rewrite Hlook.
  - intros rtl input0 current isOpen small date props.
    destruct (store_ok_constructor calendar tza (mkStore None [] []) date props
                (fresh rtl input0 current isOpen small)) as [Hinv' _]; [|done].
    split; [apply StoreInv_empty|apply ext_refl].
Qed.

(** The controller after its calendar was opened on March 2018. *)
Definition opened : State :=
  snd (perform (Gregorian.calendar 0 1900 2100) 0 9 42 (On_frame CbOpenCalendar)
         (fresh false "" true false false)).

Lemma cache_entries_immutable_witness :
  StoreInv (Gregorian.calendar 0 1900 2100) (store opened) /\
  lookup_cache (store opened) 2018 2 = RArr 31%nat /\
  exists objs a' st',
    cached_grid (Gregorian.calendar 0 1900 2100) (store opened) 2018 2 31%nat objs /\
    _getDatesWithCache (Gregorian.calendar 0 1900 2100) 2018 2 (store opened)
    = (Ok (RArr a'), st') /\
    holds (heap st') a' objs /\
    trace st' = trace (store opened).
Proof.
  assert (Hinv : StoreInv (Gregorian.calendar 0 1900 2100) (store opened)).
  { apply (store_ok_perform (Gregorian.calendar 0 1900 2100) 0 9 42
             (mkStore None [] []) (On_frame CbOpenCalendar)
             (fresh false "" true false false)).
    split; [apply StoreInv_empty|apply ext_refl]. }
  assert (Hlook : lookup_cache (store opened) 2018 2 = RArr 31%nat).
  { vm_compute. reflexivity. }
  split; [exact Hinv|]. split; [exact Hlook|].
  destruct (cache_entries_immutable (Gregorian.calendar 0 1900 2100) 0 9 42
              opened 2018 2 31%nat Hinv Hlook)
    as (objs & Hgrid & _ & _ & (a' & st' & Hrun & _ & Hholds & Htr & _) & _).
  exists objs, a', st'.
  split; [exact Hgrid|]. split; [exact Hrun|]. split; [exact Hholds|exact Htr].
Defined.

Example second_call_does_not_ask_the_calendar :
  trace (store opened)
  = [CalendarGetDates 2018 2; CalendarGetDates 2018 1;
     OpenCalendar
       (mkDatePickerParams 63%nat
          (_serializeValue
             (JSON.JObj [("year"%string, JSON.JInt 2018);
                         ("month"%string, JSON.JInt 2)]))
          [mkBtn "2018" "year-picker-btn"; mkBtn "3" "month-picker-btn"]
          ["Su"; "Mo"; "Tu"; "We"; "Th"; "Fr"; "Sa"]%string
          false false false)] /\
  trace (snd (_getDatesWithCache (Gregorian.calendar 0 1900 2100) 2018 2
                (store opened)))
  = trace (store opened).
Proof. split; vm_compute; reflexivity. Qed.

(** ** Serialized values are read back

    What [_serializeValue] writes into a [data-caLINEdar-value] attribute,
    [_unserializeValue] reads back unchanged: [JSON.parse] undoes
    [JSON.stringify] on every value made of [null], booleans, integers,
    strings, arrays and objects. *)

Lemma string_cons_app (x : ascii) (a b : string) :
  (String x a ++ b = String x (a ++ b))%string.
Proof. reflexivity. Qed.

Lemma string_nil_app (b : string) : ("" ++ b = b)%string.
Proof. reflexivity. Qed.

(** Appended texts, read from their first character on. *)
Ltac string_app := repeat (rewrite string_cons_app || rewrite string_nil_app).

Lemma string_app_assoc (a b c : string) : ((a ++ b) ++ c = a ++ (b ++ c))%string.
Proof. induction a as [|x a IH]; [done|]. string_app. by rewrite IH. Qed.

Lemma string_app_nil_r (a : string) : (a ++ "" = a)%string.
Proof. induction a as [|x a IH]; [done|]. string_app. by rewrite IH. Qed.

Lemma string_app_length (a b : string) :
  String.length (a ++ b) = (String.length a + String.length b)%nat.
Proof. induction a as [|x a IH]; [done|]. string_app. simpl. by rewrite IH. Qed.

(** *** Integers *)

(** The number that a run of decimal digits stands for, after [acc]. *)
Fixpoint uint_value (d : Decimal.uint) (acc : Z) : Z :=
  match d with
  | Decimal.Nil => acc
  | Decimal.D0 l => uint_value l (acc * 10 + 0)
  | Decimal.D1 l => uint_value l (acc * 10 + 1)
  | Decimal.D2 l => uint_value l (acc * 10 + 2)
  | Decimal.D3 l => uint_value l (acc * 10 + 3)
  | Decimal.D4 l => uint_value l (acc * 10 + 4)
  | Decimal.D5 l => uint_value l (acc * 10 + 5)
  | Decimal.D6 l => uint_value l (acc * 10 + 6)
  | Decimal.D7 l => uint_value l (acc * 10 + 7)
  | Decimal.D8 l => uint_value l (acc * 10 + 8)
  | Decimal.D9 l => uint_value l (acc * 10 + 9)
  end.

(** The text after a number does not go on with a digit. *)
Definition no_digit (r : string) : bool :=
  match r with
  | EmptyString => true
  | String c _ => negb (JSON.is_digit c)
  end.

Lemma read_digits_step (c : ascii) (s : string) (acc n : Z) :
  JSON.is_digit c = true ->
  JSON.read_digits (String c s) acc n
  = JSON.read_digits s (acc * 10 + (JSON.code c - 48)) (n + 1).
Proof. intros Hc. simpl. by rewrite Hc. Qed.

Lemma read_digits_stop (r : string) (acc n : Z) :
  no_digit r = true -> JSON.read_digits r acc n = (acc, n, r).
Proof.
  destruct r as [|c r]; [done|]. simpl.
  by intros ->%negb_true_iff.
Qed.

Lemma read_digits_uint (d : Decimal.uint) (r : string) :
  no_digit r = true ->
  forall acc n,
    JSON.read_digits (NilEmpty.string_of_uint d ++ r) acc n
    = (uint_value d acc, n + Z.of_nat (Decimal.nb_digits d), r).
Proof.
  intros Hr.
  induction d as [|d IH|d IH|d IH|d IH|d IH|d IH|d IH|d IH|d IH|d IH];
    intros acc n;
    cbn [NilEmpty.string_of_uint uint_value Decimal.nb_digits]; string_app.
  1: { rewrite read_digits_stop by done. do 2 f_equal. lia. }
  all: rewrite read_digits_step by reflexivity.
  all: rewrite IH.
  all: change (JSON.code _ - 48) with 0 || change (JSON.code _ - 48) with 1
       || change (JSON.code _ - 48) with 2 || change (JSON.code _ - 48) with 3
       || change (JSON.code _ - 48) with 4 || change (JSON.code _ - 48) with 5
       || change (JSON.code _ - 48) with 6 || change (JSON.code _ - 48) with 7
       || change (JSON.code _ - 48) with 8 || change (JSON.code _ - 48) with 9.
  all: do 2 f_equal; lia.
Qed.

Lemma uint_value_acc (d : Decimal.uint) :
  forall acc : positive,
    uint_value d (Z.pos acc) = Z.pos (Pos.of_uint_acc d acc).
Proof.
  induction d as [|d IH|d IH|d IH|d IH|d IH|d IH|d IH|d IH|d IH|d IH];
    intros acc; cbn [uint_value Pos.of_uint_acc]; [done|..].
  all: rewrite <- IH; f_equal; lia.
Qed.

Lemma uint_value_of_uint (d : Decimal.uint) :
  uint_value d 0 = Z.of_N (Pos.of_uint d).
Proof.
  induction d as [|d IH|d IH|d IH|d IH|d IH|d IH|d IH|d IH|d IH|d IH];
    cbn [uint_value Pos.of_uint]; [done|exact IH|..].
  all: match goal with
       | |- uint_value _ ?a = _ =>
           let v := eval vm_compute in a in change a with v
       end; by rewrite uint_value_acc.
Qed.

(** The decimal digits of a positive number do not start with a zero. *)
Lemma to_uint_head (p : positive) :
  match Pos.to_uint p with
  | Decimal.Nil | Decimal.D0 _ => False
  | _ => True
  end.
Proof.
  assert (Hnorm : Decimal.unorm (Pos.to_uint p) = Pos.to_uint p).
  { assert (Hnz : Decimal.unorm (Pos.to_uint p) <> Decimal.D0 Decimal.Nil).
    { intros H0.
      pose proof (Unsigned.of_uint_norm (Pos.to_uint p)) as Hn.
      rewrite H0, Unsigned.of_to in Hn. discriminate. }
    destruct (Unsigned.to_uint_pos_surj _ Hnz) as [p' Hp'].
    rewrite <- Hp'. f_equal.
    apply (f_equal Pos.of_uint) in Hp'.
    rewrite Unsigned.of_uint_norm, !Unsigned.of_to in Hp'. congruence. }
  pose proof (Unsigned.to_uint_nonnil p) as Hnil.
  pose proof (Unsigned.to_uint_nonzero p) as Hzero.
  destruct (Pos.to_uint p) as [|d| | | | | | | | | ]; try done.
  unfold Decimal.unorm in Hnorm. simpl in Hnorm.
  pose proof (nb_digits_nzhead d) as Hle.
  destruct (Decimal.nzhead d) as [|u|u|u|u|u|u|u|u|u|u] eqn:Hd;
    try discriminate.
  - injection Hnorm as Hn. by subst d.
  - injection Hnorm as Hn. subst u. simpl in Hle. lia.
Qed.

(** The text after a number: the end, or a character that no number goes
    on with. *)
Definition number_rest (r : string) : bool :=
  match r with
  | EmptyString => true
  | String c _ =>
      negb (JSON.is_digit c) && negb (JSON.code c =? 46)
      && negb (JSON.code c =? 101) && negb (JSON.code c =? 69)
  end.

Lemma number_rest_no_digit (r : string) : number_rest r = true -> no_digit r = true.
Proof.
  destruct r as [|c r]; [done|]. simpl.
  by intros [[[? _]%andb_prop _]%andb_prop _]%andb_prop.
Qed.

Lemma number_tail (neg : bool) (m : Z) (r : string) :
  number_rest r = true ->
  match JSON.read_fraction r m with
  | Some (m', fl, s3) =>
      match JSON.read_exponent s3 with
      | Some (ex, s4) => Some (JSON.make_number neg m' (ex - fl), s4)
      | None => None
      end
  | None => None
  end
  = Some (JSON.JInt (if neg then - m else m), r).
Proof.
  intros Hr.
  assert (Hnum : JSON.make_number neg m (0 - 0) = JSON.JInt (if neg then - m else m)).
  { unfold JSON.make_number, JSON.JInt. simpl. f_equal. lia. }
  destruct r as [|c r]; simpl; [by rewrite Hnum|].
  simpl in Hr.
  apply andb_prop in Hr as [[[_ Hdot]%andb_prop He]%andb_prop HE].
  apply negb_true_iff in Hdot, He, HE.
  rewrite Hdot. simpl. rewrite He, HE. simpl. by rewrite Hnum.
Qed.

Lemma parse_number_pos (neg : bool) (p : positive) (r : string) :
  number_rest r = true ->
  JSON.parse_number
    ((if neg then "-" else "") ++ NilEmpty.string_of_uint (Pos.to_uint p) ++ r)
  = Some (JSON.JInt (if neg then Z.neg p else Z.pos p), r).
Proof.
  intros Hr.
  pose proof (to_uint_head p) as Hhead.
  pose proof (read_digits_uint (Pos.to_uint p) r (number_rest_no_digit _ Hr) 0 0)
    as Hread.
  rewrite uint_value_of_uint, Unsigned.of_to in Hread. simpl (Z.of_N _) in Hread.
  pose proof (number_tail neg (Z.pos p) r Hr) as Htail.
  assert (Hgoal :
    forall s,
      s = (NilEmpty.string_of_uint (Pos.to_uint p) ++ r)%string ->
      match s with
      | String c r0 =>
          if JSON.is_digit c then
            let '(ip, s2) :=
              if JSON.code c =? 48 then (0, r0)
              else let '(v, _, r') := JSON.read_digits s 0 0 in (v, r') in
            match JSON.read_fraction s2 ip with
            | Some (m, fl, s3) =>
                match JSON.read_exponent s3 with
                | Some (ex, s4) => Some (JSON.make_number neg m (ex - fl), s4)
                | None => None
                end
            | None => None
            end
          else None
      | EmptyString => None
      end
      = Some (JSON.JInt (if neg then Z.neg p else Z.pos p), r)).
  { intros s ->.
    destruct (Pos.to_uint p) as [|d|d|d|d|d|d|d|d|d|d]; try done;
      cbn [NilEmpty.string_of_uint] in *;
      rewrite ?string_cons_app in *;
      rewrite Hread;
      change (JSON.is_digit _) with true; cbv iota;
      match goal with
      | |- context [JSON.code ?c =? 48] =>
          change (JSON.code c =? 48) with false
      end; cbv iota beta;
      rewrite Htail; by destruct neg. }
  unfold JSON.parse_number.
  destruct neg; string_app.
  - change (JSON.code "-" =? 45) with true. cbv iota. by apply Hgoal.
  - specialize (Hgoal _ eq_refl).
    destruct (NilEmpty.string_of_uint (Pos.to_uint p) ++ r)%string as [|c s] eqn:Hs;
      [done|].
    destruct (JSON.is_digit c) eqn:Hc; [|done].
    assert (Hneg : (JSON.code c =? 45) = false).
    { unfold JSON.is_digit in Hc. apply andb_prop in Hc as [Hc _].
      apply Z.leb_le in Hc. apply Z.eqb_neq. lia. }
    rewrite Hneg. rewrite Hc. exact Hgoal.
Qed.

Lemma parse_number_string_of_Z (z : Z) (r : string) :
  number_rest r = true ->
  JSON.parse_number (JSON.string_of_Z z ++ r) = Some (JSON.JInt z, r).
Proof.
  intros Hr. unfold JSON.string_of_Z.
  destruct z as [|p|p]; cbn [Z.to_int NilZero.string_of_int].
  - cbn [NilZero.string_of_uint NilEmpty.string_of_uint]. string_app.
    unfold JSON.parse_number.
    change (JSON.code "0" =? 45) with false. cbv iota.
    change (JSON.is_digit "0") with true. cbv iota.
    change (JSON.code "0" =? 48) with true. cbv iota beta.
    exact (number_tail false 0 r Hr).
  - pose proof (Unsigned.to_uint_nonnil p) as Hnil.
    replace (NilZero.string_of_uint (Pos.to_uint p))
      with (NilEmpty.string_of_uint (Pos.to_uint p))
      by (by destruct (Pos.to_uint p)).
    exact (parse_number_pos false p r Hr).
  - pose proof (Unsigned.to_uint_nonnil p) as Hnil.
    replace (NilZero.string_of_uint (Pos.to_uint p))
      with (NilEmpty.string_of_uint (Pos.to_uint p))
      by (by destruct (Pos.to_uint p)).
    exact (parse_number_pos true p r Hr).
Qed.

(** The first character of a number: a digit or the sign. *)
Definition number_head (s : string) : bool :=
  match s with
  | String c _ => JSON.is_digit c || (JSON.code c =? 45)
  | EmptyString => false
  end.

Lemma string_of_Z_head (z : Z) (r : string) :
  number_head (JSON.string_of_Z z ++ r) = true.
Proof.
  unfold JSON.string_of_Z.
  destruct z as [|p|p]; cbn [Z.to_int NilZero.string_of_int]; [done| |done].
  pose proof (to_uint_head p) as Hhead.
  destruct (Pos.to_uint p); done.
Qed.

(** *** Strings *)

(** What [JSON.stringify] writes for one character of a string. *)
Definition escape (c : ascii) : string :=
  let n := JSON.code c in
  if (n =? 34) || (n =? 92) then String JSON.backslash (String c "")
  else if n =? 8 then String JSON.backslash "b"
  else if n =? 12 then String JSON.backslash "f"
  else if n =? 10 then String JSON.backslash "n"
  else if n =? 13 then String JSON.backslash "r"
  else if n =? 9 then String JSON.backslash "t"
  else if n <? 32 then
    String JSON.backslash
      (String "u" (String "0" (String "0"
         (String (JSON.hex_digit (n / 16))
            (String (JSON.hex_digit (n mod 16)) "")))))
  else String c "".

Lemma quote_chars_cons (c : ascii) (s : string) :
  JSON.quote_chars (String c s) = (escape c ++ JSON.quote_chars s)%string.
Proof.
  unfold escape. cbn [JSON.quote_chars]. cbv zeta.
  repeat match goal with
         | |- context [if ?b then _ else _] => destruct b
         end; reflexivity.
Qed.

Lemma read_string_escape (c : ascii) (t : string) (acc : list ascii) :
  JSON.read_string (escape c ++ t) acc = JSON.read_string t (c :: acc).
Proof.
  destruct c as [[] [] [] [] [] [] [] []]; reflexivity.
Qed.

Lemma string_of_rev_rev (s : string) :
  JSON.string_of_rev (List.rev (list_ascii_of_string s)) = s.
Proof.
  unfold JSON.string_of_rev.
  rewrite <- fold_left_rev_right, rev_involutive.
  rewrite <- (string_of_list_ascii_of_string s) at 2.
  induction (list_ascii_of_string s) as [|c l IH]; simpl; [done|].
  by rewrite IH.
Qed.

Lemma read_string_quote_chars (s : string) (r : string) :
  forall acc,
    JSON.read_string (JSON.quote_chars s ++ r) acc
    = Some (JSON.string_of_rev (List.rev (list_ascii_of_string s) ++ acc), r).
Proof.
  induction s as [|c s IH]; intros acc.
  - reflexivity.
  - rewrite quote_chars_cons, string_app_assoc, read_string_escape, IH.
    simpl. by rewrite <- app_assoc.
Qed.

(** A string literal is read back as the string. *)
Lemma read_string_quote (s r : string) :
  JSON.read_string (JSON.quote_chars s ++ r) [] = Some (s, r).
Proof. by rewrite read_string_quote_chars, app_nil_r, string_of_rev_rev. Qed.

(** *** Values *)

(** Every number of the value is an integer. *)
Fixpoint ints_only (v : json) : bool :=
  match v with
  | JSON.JNum _ e => e =? 0
  | JSON.JArr l => forallb ints_only l
  | JSON.JObj l => forallb (fun kv => ints_only (snd kv)) l
  | _ => true
  end.

(** Induction on a value, through its elements and members. *)
Section JsonInduction.
Variable P : json -> Prop.
Hypothesis HNull : P JSON.JNull.
Hypothesis HBool : forall b, P (JSON.JBool b).
Hypothesis HNum : forall m e, P (JSON.JNum m e).
Hypothesis HStr : forall s, P (JSON.JStr s).
Hypothesis HArr : forall l, Forall P l -> P (JSON.JArr l).
Hypothesis HObj : forall l, Forall (fun kv => P (snd kv)) l -> P (JSON.JObj l).

Fixpoint json_induction (v : json) : P v :=
  match v with
  | JSON.JNull => HNull
  | JSON.JBool b => HBool b
  | JSON.JNum m e => HNum m e
  | JSON.JStr s => HStr s
  | JSON.JArr l =>
      HArr l
        ((fix go (l : list json) : Forall P l :=
            match l with
            | [] => @List.Forall_nil _ P
            | x :: r => @List.Forall_cons _ P x r (json_induction x) (go r)
            end) l)
  | JSON.JObj l =>
      HObj l
        ((fix go (l : list (string * json)) : Forall (fun kv => P (snd kv)) l :=
            match l with
            | [] => @List.Forall_nil _ _
            | kv :: r => @List.Forall_cons _ _ kv r (json_induction (snd kv)) (go r)
            end) l)
  end.
End JsonInduction.

(** The fuel that reading a list of elements takes, from the fuel of each. *)
Definition need_list (ns : list nat) : nat :=
  fold_right (fun n acc => S (Nat.max n acc)) 0%nat ns.

(** The fuel that reading a value back takes. *)
Fixpoint need (v : json) : nat :=
  match v with
  | JSON.JArr l => S (need_list (List.map need l))
  | JSON.JObj l => S (need_list (List.map (fun kv => need (snd kv)) l))
  | _ => 1%nat
  end.

(** The text after a value inside an array or an object, or at the end. *)
Definition delim (r : string) : bool :=
  match r with
  | EmptyString => true
  | String c _ =>
      (JSON.code c =? 44) || (JSON.code c =? 93) || (JSON.code c =? 125)
  end.

(** The first character of a value: no white space and no closing bracket. *)
Definition token_head (s : string) : bool :=
  match s with
  | String c _ =>
      negb (JSON.is_ws c) && negb (JSON.code c =? 93)
      && negb (JSON.code c =? 125)
  | EmptyString => false
  end.

(** Case analysis on the comparisons of a character code. *)
Ltac code_cases :=
  unfold JSON.is_ws, JSON.is_digit in *;
  repeat match goal with
         | H : context [?a =? ?b] |- _ => destruct (Z.eqb_spec a b)
         | H : context [?a <=? ?b] |- _ => destruct (Z.leb_spec a b)
         | |- context [?a =? ?b] => destruct (Z.eqb_spec a b)
         | |- context [?a <=? ?b] => destruct (Z.leb_spec a b)
         end;
  simpl in *; try done; try lia.

Lemma delim_number_rest (r : string) : delim r = true -> number_rest r = true.
Proof. destruct r as [|c r]; [done|]. unfold delim, number_rest. code_cases. Qed.

Lemma number_head_token (s : string) : number_head s = true -> token_head s = true.
Proof. destruct s as [|c s]; [done|]. unfold number_head, token_head. code_cases. Qed.

Lemma token_head_skip (s : string) :
  token_head s = true ->
  exists c t,
    s = String c t /\ JSON.skip_ws s = s /\
    (JSON.code c =? 93) = false /\ (JSON.code c =? 125) = false.
Proof.
  destruct s as [|c t]; [done|]. simpl.
  intros [[Hws H93]%andb_prop H125]%andb_prop.
  apply negb_true_iff in Hws, H93, H125.
  exists c, t. by rewrite Hws.
Qed.

Lemma parse_value_S (f : nat) (s : string) :
  JSON.parse_value (S f) s
  = match JSON.skip_ws s with
    | EmptyString => None
    | String c r =>
        let n := JSON.code c in
        if n =? 91 then
          match JSON.skip_ws r with
          | String c' r' =>
              if JSON.code c' =? 93 then Some (JSON.JArr [], r')
              else JSON.parse_elements f r []
          | EmptyString => None
          end
        else if n =? 123 then
          match JSON.skip_ws r with
          | String c' r' =>
              if JSON.code c' =? 125 then Some (JSON.JObj [], r')
              else JSON.parse_members f r []
          | EmptyString => None
          end
        else if n =? 34 then
          match JSON.read_string r [] with
          | Some (str, r') => Some (JSON.JStr str, r')
          | None => None
          end
        else if n =? 110 then
          option_map (fun r' => (JSON.JNull, r'))
            (JSON.strip_prefix "null" (String c r))
        else if n =? 116 then
          option_map (fun r' => (JSON.JBool true, r'))
            (JSON.strip_prefix "true" (String c r))
        else if n =? 102 then
          option_map (fun r' => (JSON.JBool false, r'))
            (JSON.strip_prefix "false" (String c r))
        else JSON.parse_number (String c r)
    end.
Proof. reflexivity. Qed.

Lemma parse_elements_S (f : nat) (s : string) (acc : list json) :
  JSON.parse_elements (S f) s acc
  = match JSON.parse_value f s with
    | Some (v, r) =>
        match JSON.skip_ws r with
        | String c r' =>
            if JSON.code c =? 44 then JSON.parse_elements f r' (v :: acc)
            else if JSON.code c =? 93
                 then Some (JSON.JArr (List.rev (v :: acc)), r')
                 else None
        | EmptyString => None
        end
    | None => None
    end.
Proof. reflexivity. Qed.

Lemma parse_members_S (f : nat) (s : string) (acc : list (string * json)) :
  JSON.parse_members (S f) s acc
  = match JSON.skip_ws s with
    | String q r =>
        if JSON.code q =? 34 then
          match JSON.read_string r [] with
          | Some (k, r1) =>
              match JSON.skip_ws r1 with
              | String c r2 =>
                  if JSON.code c =? 58 then
                    match JSON.parse_value f r2 with
                    | Some (v, r3) =>
                        match JSON.skip_ws r3 with
                        | String c' r4 =>
                            if JSON.code c' =? 44
                            then JSON.parse_members f r4 ((k, v) :: acc)
                            else if JSON.code c' =? 125
                            then Some (JSON.JObj (List.rev ((k, v) :: acc)), r4)
                            else None
                        | EmptyString => None
                        end
                    | None => None
                    end
                  else None
              | EmptyString => None
              end
          | None => None
          end
        else None
    | EmptyString => None
    end.
Proof. reflexivity. Qed.

Lemma parse_value_number (f : nat) (s : string) :
  number_head s = true -> JSON.parse_value (S f) s = JSON.parse_number s.
Proof.
  intros Hs. rewrite parse_value_S.
  destruct (token_head_skip s (number_head_token s Hs)) as (c & t & -> & -> & _).
  cbv zeta. simpl in Hs.
  assert (Hn : JSON.code c = 45 \/ 48 <= JSON.code c <= 57) by code_cases.
  repeat match goal with
         | |- context [JSON.code c =? ?k] =>
             destruct (Z.eqb_spec (JSON.code c) k); [lia|]
         end.
  reflexivity.
Qed.

(** The first character of what [JSON.stringify] writes. *)
Lemma stringify_head (v : json) (r : string) :
  token_head (JSON.stringify v ++ r) = true.
Proof.
  destruct v as [|[]|m e|s|l|l]; cbn [JSON.stringify]; try done.
  destruct (e =? 0).
  - apply number_head_token, string_of_Z_head.
  - rewrite string_app_assoc. apply number_head_token, string_of_Z_head.
Qed.

Lemma join_cons2 (x y : string) (l : list string) :
  JSON.join (x :: y :: l) = (x ++ "," ++ JSON.join (y :: l))%string.
Proof. reflexivity. Qed.

Lemma need_list_cons (n : nat) (ns : list nat) :
  need_list (n :: ns) = S (Nat.max n (need_list ns)).
Proof. reflexivity. Qed.

(** The tests on a character that is known. *)
Ltac eval_char :=
  string_app; cbn [JSON.skip_ws];
  repeat match goal with
         | |- context [JSON.is_ws ?c] =>
             let v := eval vm_compute in (JSON.is_ws c) in
             match v with true => idtac | false => idtac end;
             change (JSON.is_ws c) with v; cbv iota
         | |- context [JSON.code ?c =? ?k] =>
             let v := eval vm_compute in (JSON.code c =? k) in
             match v with true => idtac | false => idtac end;
             change (JSON.code c =? k) with v; cbv iota
         end.

(** The elements of an array, after its opening bracket. *)
Lemma parse_elements_join (l : list json) :
  Forall (fun v =>
            forall f r,
              delim r = true -> (need v <= f)%nat ->
              JSON.parse_value f (JSON.stringify v ++ r) = Some (v, r)) l ->
  l <> [] ->
  forall f r acc,
    (need_list (List.map need l) <= f)%nat ->
    JSON.parse_elements f
      (JSON.join (List.map JSON.stringify l) ++ String "]" r) acc
    = Some (JSON.JArr (List.rev acc ++ l), r).
Proof.
  induction 1 as [|x l Hx Hl IH]; [done|]. intros _ f r acc Hf.
  cbn [List.map] in *. rewrite need_list_cons in Hf.
  destruct f as [|f]; [lia|]. rewrite parse_elements_S.
  destruct l as [|y l].
  - cbn [List.map JSON.join]. rewrite Hx by (done || (simpl in Hf; lia)).
    eval_char. reflexivity.
  - cbn [List.map]. rewrite join_cons2.
    rewrite !string_app_assoc. rewrite Hx by (done || lia).
    eval_char.
    cbn [List.map] in IH, Hf. rewrite IH by (done || lia).
    simpl. by rewrite <- app_assoc.
Qed.

(** The members of an object, after its opening brace. *)
Lemma parse_members_join (l : list (string * json)) :
  Forall (fun kv =>
            forall f r,
              delim r = true -> (need (snd kv) <= f)%nat ->
              JSON.parse_value f (JSON.stringify (snd kv) ++ r)
              = Some (snd kv, r)) l ->
  l <> [] ->
  forall f r acc,
    (need_list (List.map (fun kv => need (snd kv)) l) <= f)%nat ->
    JSON.parse_members f
      (JSON.join
         (List.map (fun kv => JSON.quote (fst kv) ++ ":" ++ JSON.stringify (snd kv))
            l) ++ String "}" r)%string acc
    = Some (JSON.JObj (List.rev acc ++ l), r).
Proof.
  induction 1 as [|[k x] l Hx Hl IH]; [done|]. intros _ f r acc Hf.
  cbn [List.map fst snd] in *. rewrite need_list_cons in Hf.
  destruct f as [|f]; [lia|]. rewrite parse_members_S.
  assert (Hkey : forall t,
             (JSON.quote k ++ ":" ++ JSON.stringify x ++ t)%string
             = String JSON.dquote
                 (JSON.quote_chars k ++ String ":" (JSON.stringify x ++ t))).
  { intros t. unfold JSON.quote. by string_app. }
  destruct l as [|y l].
  - cbn [List.map JSON.join]. rewrite !string_app_assoc, Hkey.
    eval_char. rewrite read_string_quote. eval_char.
    rewrite Hx by (done || (simpl in Hf; lia)).
    eval_char. reflexivity.
  - cbn [List.map]. rewrite join_cons2.
    rewrite !string_app_assoc, Hkey.
    eval_char. rewrite read_string_quote. eval_char.
    rewrite Hx by (done || lia).
    eval_char.
    cbn [List.map] in IH, Hf. rewrite IH by (done || lia).
    simpl. by rewrite <- app_assoc.
Qed.

Lemma array_open (f : nat) (s : string) :
  token_head s = true ->
  match JSON.skip_ws s with
  | String c' r' =>
      if JSON.code c' =? 93 then Some (JSON.JArr [], r')
      else JSON.parse_elements f s []
  | EmptyString => None
  end
  = JSON.parse_elements f s [].
Proof.
  intros Hs. destruct (token_head_skip s Hs) as (c & t & -> & -> & H93 & _).
  by rewrite H93.
Qed.

Lemma object_open (f : nat) (s : string) :
  token_head s = true ->
  match JSON.skip_ws s with
  | String c' r' =>
      if JSON.code c' =? 125 then Some (JSON.JObj [], r')
      else JSON.parse_members f s []
  | EmptyString => None
  end
  = JSON.parse_members f s [].
Proof.
  intros Hs. destruct (token_head_skip s Hs) as (c & t & -> & -> & _ & H125).
  by rewrite H125.
Qed.

Lemma join_head (x : string) (l : list string) (t : string) :
  exists t', (JSON.join (x :: l) ++ t = x ++ t')%string.
Proof.
  destruct l as [|y l]; [by exists t|].
  rewrite join_cons2, string_app_assoc. eauto.
Qed.

Lemma Forall_ints {A} (g : A -> json) (P : A -> Prop) (l : list A) :
  Forall (fun a => ints_only (g a) = true -> P a) l ->
  forallb (fun a => ints_only (g a)) l = true ->
  Forall P l.
Proof.
  induction 1 as [|a l Ha Hl IH]; simpl; [constructor|].
  intros [? ?]%andb_prop. constructor; auto.
Qed.

(** With enough fuel, what [JSON.stringify] wrote is read back, up to the
    text that follows. *)
Lemma parse_value_stringify (v : json) :
  ints_only v = true ->
  forall f r,
    delim r = true -> (need v <= f)%nat ->
    JSON.parse_value f (JSON.stringify v ++ r) = Some (v, r).
Proof.
  induction v as [|b|m e|s|l IH|l IH] using json_induction;
    intros Hint f r Hr Hf; (destruct f as [|f]; [simpl in Hf; lia|]).
  - rewrite parse_value_S. cbn [JSON.stringify]. cbv zeta. eval_char.
    reflexivity.
  - rewrite parse_value_S.
    destruct b; cbn [JSON.stringify]; cbv zeta; eval_char; reflexivity.
  - simpl in Hint. cbn [JSON.stringify]. rewrite Hint.
    apply Z.eqb_eq in Hint as ->.
    rewrite parse_value_number by apply string_of_Z_head.
    apply parse_number_string_of_Z. by apply delim_number_rest.
  - rewrite parse_value_S. cbn [JSON.stringify]. unfold JSON.quote.
    cbv zeta. eval_char. by rewrite read_string_quote.
  - cbn [ints_only] in Hint. cbn [need] in Hf.
    pose proof (Forall_ints (fun v => v) _ l IH Hint) as Hall.
    rewrite parse_value_S. cbn [JSON.stringify].
    rewrite !string_app_assoc. cbv zeta. eval_char.
    destruct l as [|x l]; [cbn [List.map JSON.join]; eval_char; reflexivity|].
    rewrite array_open.
    + by rewrite parse_elements_join by (done || lia).
    + cbn [List.map].
      destruct (join_head (JSON.stringify x) (List.map JSON.stringify l)
                  (String "]" r)) as [t' ->].
      apply stringify_head.
  - cbn [ints_only] in Hint. cbn [need] in Hf.
    pose proof (Forall_ints (fun kv => snd kv) _ l IH Hint) as Hall.
    rewrite parse_value_S. cbn [JSON.stringify].
    rewrite !string_app_assoc. cbv zeta. eval_char.
    destruct l as [|[k x] l]; [cbn [List.map JSON.join]; eval_char; reflexivity|].
    rewrite object_open.
    + by rewrite parse_members_join by (done || lia).
    + cbn [List.map fst snd]. unfold JSON.quote at 1.
      destruct (join_head
                  (String JSON.dquote (JSON.quote_chars k) ++ ":" ++ JSON.stringify x)
                  (List.map
                     (fun kv => JSON.quote (fst kv) ++ ":" ++ JSON.stringify (snd kv))
                     l)%string
                  (String "}" r)) as [t' ->].
      by string_app.
Qed.

Lemma need_pos (v : json) : (1 <= need v)%nat.
Proof. destruct v; simpl; lia. Qed.

Lemma need_list_bound (ns : list nat) (ss : list string) :
  Forall2 (fun n s => (n <= String.length s)%nat /\ (1 <= String.length s)%nat)
    ns ss ->
  (need_list ns <= String.length (JSON.join ss) + 1)%nat.
Proof.
  induction 1 as [|n s ns ss [Hn Hs] Hall IH]; [simpl; lia|].
  rewrite need_list_cons.
  destruct Hall as [|n' s' ns' ss' Hn' Hall'].
  - simpl. lia.
  - rewrite join_cons2, !string_app_length.
    change (String.length ",") with 1%nat. lia.
Qed.

(** The fuel of [JSON.parse] is enough for what [JSON.stringify] wrote. *)
Lemma need_bound (v : json) : (need v <= String.length (JSON.stringify v))%nat.
Proof.
  induction v as [|b|m e|s|l IH|l IH] using json_induction;
    cbn [need JSON.stringify].
  - simpl. lia.
  - destruct b; simpl; lia.
  - pose proof (string_of_Z_head m "") as Hm. rewrite string_app_nil_r in Hm.
    destruct (e =? 0); [|rewrite string_app_length];
      destruct (JSON.string_of_Z m); simpl in *; (done || lia).
  - unfold JSON.quote. simpl. lia.
  - rewrite !string_app_length.
    change (String.length "[") with 1%nat. change (String.length "]") with 1%nat.
    assert (Hl : (need_list (List.map need l)
                  <= String.length (JSON.join (List.map JSON.stringify l)) + 1)%nat).
    { apply need_list_bound.
      induction IH as [|x l Hx Hl IHl]; simpl; constructor; [|done].
      pose proof (need_pos x). lia. }
    lia.
  - rewrite !string_app_length.
    change (String.length "{") with 1%nat. change (String.length "}") with 1%nat.
    assert (Hl : (need_list (List.map (fun kv => need (snd kv)) l)
                  <= String.length
                       (JSON.join
                          (List.map
                             (fun kv => JSON.quote (fst kv) ++ ":"
                                        ++ JSON.stringify (snd kv))%string l))
                     + 1)%nat).
    { apply need_list_bound.
      induction IH as [|x l Hx Hl IHl]; simpl; constructor; [|done].
      pose proof (need_pos (snd x)).
      rewrite !string_app_length. lia. }
    lia.
Qed.

Lemma parse_stringify (v : json) :
  ints_only v = true -> JSON.parse (JSON.stringify v) = Some v.
Proof.
  intros Hint. unfold JSON.parse.
  pose proof (need_bound v) as Hfuel.
  pose proof (parse_value_stringify v Hint
                (2 * String.length (JSON.stringify v) + 2) "" eq_refl
                ltac:(lia)) as Hparse.
  rewrite string_app_nil_r in Hparse. by rewrite Hparse.
Qed.

(** X1. What [_serializeValue] writes, [_unserializeValue] reads back
    unchanged, for every value made of [null], booleans, integers, strings,
    arrays and objects: the values of the [data-caLINEdar-value] attributes
    lose nothing on their way through the document. *)
Theorem unserialize_serialize (v : json) :
  ints_only v = true ->
  _unserializeValue (Some (_serializeValue v)) = v.
Proof.
  intros Hint. unfold _unserializeValue, _serializeValue.
  by rewrite parse_stringify.
Qed.

Lemma unserialize_serialize_witness :
  _unserializeValue
    (Some (_serializeValue
             (JSON.JObj
                [("anchorYear"%string, JSON.JInt 2018);
                 ("anchorMonth"%string, JSON.JInt (-3));
                 ("years"%string, JSON.JArr [JSON.JInt 2017; JSON.JInt 2018]);
                 ("text"%string, JSON.JStr "a\b/c");
                 ("holiday"%string, JSON.JBool true);
                 ("grayOut"%string, JSON.JNull)])))
  = JSON.JObj
      [("anchorYear"%string, JSON.JInt 2018);
       ("anchorMonth"%string, JSON.JInt (-3));
       ("years"%string, JSON.JArr [JSON.JInt 2017; JSON.JInt 2018]);
       ("text"%string, JSON.JStr "a\b/c");
       ("holiday"%string, JSON.JBool true);
       ("grayOut"%string, JSON.JNull)].
Proof. apply unserialize_serialize. reflexivity. Defined.

(** *** [parseInt] of the text of an integer *)

(** The digits that [parseInt] reads after the sign. *)
Definition digits_read (s1 : string) : Z * Z :=
  match s1 with
  | String z (String x r) =>
      if (JSON.code z =? 48) && ((JSON.code x =? 120) || (JSON.code x =? 88))
      then JSON.read_hex r 0 0
      else let '(v, n, _) := JSON.read_digits s1 0 0 in (v, n)
  | _ => let '(v, n, _) := JSON.read_digits s1 0 0 in (v, n)
  end.

Lemma parseInt_unsigned (c : ascii) (t : string) :
  JSON.is_digit c = true ->
  JSON.parseInt (String c t)
  = let '(v, n) := digits_read (String c t) in
    if n =? 0 then JSDate.NaN else JSDate.Int v.
Proof.
  intros Hc. unfold JSON.parseInt, digits_read. cbn [JSON.skip_ws].
  assert (Hn : 48 <= JSON.code c <= 57) by code_cases.
  assert (Hws : JSON.is_ws c = false) by code_cases.
  rewrite Hws.
  destruct (Z.eqb_spec (JSON.code c) 45); [lia|].
  destruct (Z.eqb_spec (JSON.code c) 43); [lia|].
  reflexivity.
Qed.

Lemma parseInt_negative (s1 : string) :
  JSON.parseInt (String "-" s1)
  = let '(v, n) := digits_read s1 in
    if n =? 0 then JSDate.NaN else JSDate.Int (- v).
Proof. reflexivity. Qed.

Lemma digits_read_no_hex (s : string) :
  match s with
  | String c _ => negb (JSON.code c =? 48)
  | EmptyString => true
  end = true ->
  digits_read s = let '(v, n, _) := JSON.read_digits s 0 0 in (v, n).
Proof.
  destruct s as [|c [|x r]]; [done..|]. unfold digits_read.
  by intros ->%negb_true_iff.
Qed.

Lemma digits_read_pos (p : positive) :
  exists c t n,
    NilEmpty.string_of_uint (Pos.to_uint p) = String c t /\
    JSON.is_digit c = true /\
    digits_read (String c t) = (Z.pos p, n) /\ 0 < n.
Proof.
  pose proof (to_uint_head p) as Hhead.
  pose proof (read_digits_uint (Pos.to_uint p) "" eq_refl 0 0) as Hread.
  rewrite string_app_nil_r, uint_value_of_uint, Unsigned.of_to in Hread.
  simpl (Z.of_N _) in Hread.
  assert (Hlen : 0 < 0 + Z.of_nat (Decimal.nb_digits (Pos.to_uint p))).
  { destruct (Pos.to_uint p); simpl in *; (done || lia). }
  destruct (Pos.to_uint p) as [|d|d|d|d|d|d|d|d|d|d]; try done;
    cbn [NilEmpty.string_of_uint] in *;
    do 3 eexists; (split; [reflexivity|]); (split; [reflexivity|]);
    (rewrite digits_read_no_hex by reflexivity); rewrite Hread; done.
Qed.

(** [parseInt] reads the decimal text of an integer as that integer. *)
Lemma parseInt_string_of_Z (z : Z) :
  JSON.parseInt (JSON.string_of_Z z) = JSDate.Int z.
Proof.
  unfold JSON.string_of_Z.
  destruct z as [|p|p]; cbn [Z.to_int NilZero.string_of_int]; [reflexivity| |].
  - destruct (digits_read_pos p) as (c & t & n & Hs & Hc & Hd & Hn).
    replace (NilZero.string_of_uint (Pos.to_uint p)) with (String c t)
      by (rewrite <- Hs; by destruct (Pos.to_uint p)).
    rewrite parseInt_unsigned, Hd by done.
    destruct (Z.eqb_spec n 0); [lia|done].
  - destruct (digits_read_pos p) as (c & t & n & Hs & Hc & Hd & Hn).
    replace (NilZero.string_of_uint (Pos.to_uint p)) with (String c t)
      by (rewrite <- Hs; by destruct (Pos.to_uint p)).
    rewrite parseInt_negative, Hd.
    destruct (Z.eqb_spec n 0); [lia|done].
Qed.

(** ** Clicks in the pickers

    The controller writes the month or the block of years that a picker
    shows into the [data-caLINEdar-value] attribute of the picker, and the
    value of a cell into the attribute of the cell. A click reads them back:
    what the handlers then do is what the methods do for the values that
    were written. *)

Lemma unserialize_written (v : json) :
  ints_only v = true -> _unserializeValue (Some (JSON.stringify v)) = v.
Proof. intros Hint. unfold _unserializeValue. by rewrite parse_stringify. Qed.

(** Where the year and the month of a picker are written. *)
Definition month_value (year month : Z) : string :=
  _serializeValue
    (JSON.JObj [("year"%string, JSON.JInt year); ("month"%string, JSON.JInt month)]).

Lemma unserialize_month_value (year month : Z) :
  _unserializeValue (Some (month_value year month))
  = JSON.JObj [("year"%string, JSON.JInt year); ("month"%string, JSON.JInt month)].
Proof. by apply unserialize_written. Qed.

Lemma month_value_nonempty (year month : Z) :
  exists c t, month_value year month = String c t.
Proof. unfold month_value, _serializeValue. cbn [JSON.stringify]. by do 2 eexists. Qed.

(** What [_getDatePickerParams] returns, apart from the dates. *)
Lemma getDatePickerParams_fields (calendar : Calendar) (COUNT_DATES : Z)
    (year month : Z) (datePicked : option DateObj) (s s' : State)
    (p : DatePickerParams) :
  _getDatePickerParams calendar COUNT_DATES year month datePicked s = (Ok p, s') ->
  dp_value p = month_value year month /\
  dp_pickerBtns p = _getPickerBtnsParams calendar year month /\
  dp_weekHeaders p = List.map text (getDays calendar) /\
  dp_rtl p = _rtl s.
Proof.
  unfold _getDatePickerParams, bind, get, lift, liftS, ret. simpl.
  destruct (_calcPrevLocalMonth _ _ _) as [prev| |]; [|done..].
  destruct (_calcNextLocalMonth _ _ _) as [next| |]; [|done..].
  destruct (_rtl s); simpl;
    (destruct (_getLocalDatesToDisplay calendar COUNT_DATES year month datePicked
                 (store s)) as [[dates| |] st]; simpl; [|done..]);
    intros [= <- <-]; done.
Qed.

(** The class of the button that moves a picker to [dir]. *)
Definition button_class (dir : direction) : string :=
  match dir with
  | left => "left-btn"
  | right => "right-btn"
  end.

(** X2. A click on the left or right button of the date picker that
    [_getDatePickerParams] made for a month turns the picker from that
    month: the handler ends as [_flipDatePicker] does for the year and the
    month that were written into the value of the picker. *)
Theorem panel_click_flips_date_picker (calendar : Calendar)
    (COUNT_YEAR COUNT_DATES : Z) (year month : Z) (datePicked : option DateObj)
    (s0 s1 : State) (p : DatePickerParams) (picker target : Element)
    (dir : direction) :
  _getDatePickerParams calendar COUNT_DATES year month datePicked s0 = (Ok p, s1) ->
  el_id picker = ID_DATE_PICKER ->
  data_caLINEdar_value picker = Some (dp_value p) ->
  data_caLINEdar_value target = None ->
  contains (classList target) (button_class dir) = true ->
  contains (classList target) (button_class (opposite dir)) = false ->
  forall s,
    _onPanelButtonClick calendar COUNT_YEAR COUNT_DATES picker target s
    = _flipDatePicker calendar COUNT_DATES year month dir s.
Proof.
  intros Hp Hid Hpicker Htarget Hdir Hother s.
  apply getDatePickerParams_fields in Hp as (Hvalue & _).
  unfold _onPanelButtonClick.
  rewrite Hpicker, Htarget, Hid, Hvalue, unserialize_month_value.
  destruct dir; simpl in Hdir, Hother; rewrite Hdir, ?Hother; reflexivity.
Qed.

Definition right_button : Element :=
  mkElement ID_OTHER ["caLINEdar-panel__btn"; "right-btn"]%string "DIV" None.

Lemma panel_click_flips_date_picker_witness :
  exists p s1,
    _getDatePickerParams (Gregorian.calendar 0 1900 2100) 42 2018 11 None
      (fresh false "" true true false) = (Ok p, s1) /\
    forall s,
      _onPanelButtonClick (Gregorian.calendar 0 1900 2100) 9 42
        (mkElement ID_DATE_PICKER [] "DIV" (Some (dp_value p))) right_button s
      = _flipDatePicker (Gregorian.calendar 0 1900 2100) 42 2018 11 right s.
Proof.
  do 2 eexists. split; [vm_compute; reflexivity|].
  eapply (panel_click_flips_date_picker (Gregorian.calendar 0 1900 2100) 9 42
            2018 11 None (fresh false "" true true false));
    [vm_compute; reflexivity|reflexivity..].
Defined.

(** *** The year picker *)

Lemma unserialize_year_value (anchorYear anchorMonth : Z) (years : list Z) :
  _unserializeValue
    (Some (_serializeValue
             (JSON.JObj
                [("anchorYear"%string, JSON.JInt anchorYear);
                 ("anchorMonth"%string, JSON.JInt anchorMonth);
                 ("years"%string, JSON.JArr (List.map JSON.JInt years))])))
  = JSON.JObj
      [("anchorYear"%string, JSON.JInt anchorYear);
       ("anchorMonth"%string, JSON.JInt anchorMonth);
       ("years"%string, JSON.JArr (List.map JSON.JInt years))].
Proof.
  apply unserialize_written. simpl.
  induction years as [|y years IH]; [done|]. simpl in *.
  by apply andb_prop in IH as [-> _].
Qed.

Lemma len_map {A B} (f : A -> B) (l : list A) : len (List.map f l) = len l.
Proof. unfold len. by rewrite length_map. Qed.

(** C6, as the code has it. A click on the left or right button of the
    year picker shows the year picker again, anchored as many years further
    as the picker had cells: these are the years of the block that are in
    the calendar, which the picker wrote into its value, to the right for
    the right button and to the left for the left one (the other way round
    under RTL). That is the block size COUNT when the whole block is in the
    calendar, and fewer when a year of the block is outside it. Before any
    year is removed the block is COUNT consecutive years with [COUNT / 2]
    of them before the anchor. *)
Theorem flipYearPicker_moves_by_shown_years (calendar : Calendar)
    (COUNT_YEAR COUNT_DATES : Z) (rtl : bool) (anchorYear anchorMonth : Z)
    (p : YearPickerParams) (picker target : Element) (dir : direction) :
  _getYearPickerParams calendar COUNT_YEAR rtl anchorYear anchorMonth = Ok p ->
  el_id picker = ID_YEAR_PICKER ->
  data_caLINEdar_value picker = Some (yp_value p) ->
  data_caLINEdar_value target = None ->
  contains (classList target) (button_class dir) = true ->
  contains (classList target) (button_class (opposite dir)) = false ->
  let block := year_block COUNT_YEAR anchorYear in
  let inside := fun y => isDateInCalendar calendar y None in
  (forall s,
     _onPanelButtonClick calendar COUNT_YEAR COUNT_DATES picker target s
     = _showYearPicker calendar COUNT_YEAR
         (anchorYear + year_sign (_rtl s) dir * len (yp_years p))
         anchorMonth s) /\
  List.map yc_value (yp_years p) = List.filter inside block /\
  (forallb inside block = true -> len (yp_years p) = COUNT_YEAR) /\
  (forallb inside block = false -> 0 <= len (yp_years p) < COUNT_YEAR) /\
  block = seqZ (anchorYear - COUNT_YEAR / 2) COUNT_YEAR /\
  nth_Z block (COUNT_YEAR / 2) = Some anchorYear.
Proof.
  intros Hp Hid Hpicker Htarget Hdir Hother block inside.
  pose proof (getYearPickerParams_count _ _ _ _ _ _ Hp) as Hpos.
  apply getYearPickerParams_years in Hp as [Hyears Hvalue].
  assert (Hlen : len block = COUNT_YEAR).
  { unfold block. rewrite year_block_seqZ by done.
    unfold len. rewrite length_seqZ. lia. }
  split.
  { intros s. unfold _onPanelButtonClick.
    rewrite Hpicker, Htarget, Hid, Hvalue, unserialize_year_value.
    rewrite Hyears, len_map.
    rewrite <- (len_map JSON.JInt),
      <- (flipYearPicker_anchor_sign (_rtl s) anchorYear
            (List.map JSON.JInt (shown_years calendar COUNT_YEAR anchorYear))
            dir).
    destruct dir; simpl in Hdir, Hother; rewrite Hdir, ?Hother; reflexivity. }
  split.
  { rewrite Hyears, List.map_map. simpl. by rewrite List.map_id. }
  rewrite Hyears, len_map. unfold shown_years. fold block. fold inside.
  split.
  { intros Hall. by rewrite (filter_all _ _ Hall). }
  split.
  { intros Hout. pose proof (filter_len_lt _ _ Hout) as Hlt.
    unfold len in *. lia. }
  split; [by apply year_block_seqZ|].
  unfold block. rewrite year_block_seqZ, nth_Z_seqZ; [f_equal; lia|..|done].
  split; [apply Z.div_pos; lia|apply Z.div_lt; lia].
Qed.

Lemma flipYearPicker_moves_by_shown_years_witness :
  exists p,
    _getYearPickerParams (Gregorian.calendar 0 2000 2100) 9 false 2002 5 = Ok p /\
    (forall s,
       _onPanelButtonClick (Gregorian.calendar 0 2000 2100) 9 42
         (mkElement ID_YEAR_PICKER [] "DIV" (Some (yp_value p))) right_button s
       = _showYearPicker (Gregorian.calendar 0 2000 2100) 9
           (2002 + year_sign (_rtl s) right * len (yp_years p)) 5 s) /\
    List.map yc_value (yp_years p) = [2000; 2001; 2002; 2003; 2004; 2005; 2006] /\
    0 <= len (yp_years p) < 9.
Proof.
  eexists. split; [vm_compute; reflexivity|].
  destruct (flipYearPicker_moves_by_shown_years
              (Gregorian.calendar 0 2000 2100) 9 42 false 2002 5 _
              (mkElement ID_YEAR_PICKER [] "DIV" _) right_button right
              eq_refl eq_refl eq_refl eq_refl eq_refl eq_refl)
    as (Hclick & Hyears & _ & Hless & _).
  split; [exact Hclick|]. split; [exact Hyears|].
  apply Hless. reflexivity.
Defined.

(** X3. A click on the left or right button of the year picker that
    [_getYearPickerParams] made for an anchor year shows the year picker
    again, its anchor moved by as many years as the picker had cells: on by
    that many for a click to the right, back for a click to the left, and
    the other way round under RTL. *)
Theorem panel_click_moves_year_picker (calendar : Calendar)
    (COUNT_YEAR COUNT_DATES : Z) (rtl : bool) (anchorYear anchorMonth : Z)
    (p : YearPickerParams) (picker target : Element) (dir : direction) :
  _getYearPickerParams calendar COUNT_YEAR rtl anchorYear anchorMonth = Ok p ->
  el_id picker = ID_YEAR_PICKER ->
  data_caLINEdar_value picker = Some (yp_value p) ->
  data_caLINEdar_value target = None ->
  contains (classList target) (button_class dir) = true ->
  contains (classList target) (button_class (opposite dir)) = false ->
  forall s,
    _onPanelButtonClick calendar COUNT_YEAR COUNT_DATES picker target s
    = _showYearPicker calendar COUNT_YEAR
        (anchorYear + year_sign (_rtl s) dir * len (yp_years p)) anchorMonth s.
Proof.
  intros Hp Hid Hpicker Htarget Hdir Hother s.
  apply getYearPickerParams_years in Hp as [Hyears Hvalue].
  unfold _onPanelButtonClick.
  rewrite Hpicker, Htarget, Hid, Hvalue, unserialize_year_value.
  rewrite Hyears, len_map.
  rewrite <- (len_map JSON.JInt),
    <- (flipYearPicker_anchor_sign (_rtl s) anchorYear
          (List.map JSON.JInt (shown_years calendar COUNT_YEAR anchorYear)) dir).
  destruct dir; simpl in Hdir, Hother; rewrite Hdir, ?Hother; reflexivity.
Qed.

Lemma panel_click_moves_year_picker_witness :
  exists p,
    _getYearPickerParams (Gregorian.calendar 0 2000 2100) 9 false 2002 5 = Ok p /\
    len (yp_years p) = 7 /\
    forall s,
      _onPanelButtonClick (Gregorian.calendar 0 2000 2100) 9 42
        (mkElement ID_YEAR_PICKER [] "DIV" (Some (yp_value p))) right_button s
      = _showYearPicker (Gregorian.calendar 0 2000 2100) 9
          (2002 + year_sign (_rtl s) right * len (yp_years p)) 5 s.
Proof.
  eexists. split; [vm_compute; reflexivity|]. split; [reflexivity|].
  eapply (panel_click_moves_year_picker (Gregorian.calendar 0 2000 2100) 9 42
            false 2002 5);
    [vm_compute; reflexivity|reflexivity..].
Defined.

(** *** The buttons that change the picker *)

(** X4. On the date picker and on the month picker of a year and a month,
    a click on the button of the year shows the year picker anchored at that
    year and month, and on the date picker a click on the button of the
    month shows the month picker of that year. A click on the button of the
    month on the month picker itself, or on the button of the year on the
    year picker itself, does nothing. *)
Theorem picker_button_click (calendar : Calendar) (COUNT_YEAR COUNT_DATES : Z)
    (year month : Z) (picker target : Element) (s : State) :
  contains (classList target) "left-btn" = false ->
  contains (classList target) "right-btn" = false ->
  (data_caLINEdar_value picker = Some (month_value year month) ->
   el_id picker = ID_DATE_PICKER \/ el_id picker = ID_MONTH_PICKER ->
   data_caLINEdar_value target = Some "year-picker-btn"%string ->
   _onPanelButtonClick calendar COUNT_YEAR COUNT_DATES picker target s
   = _showYearPicker calendar COUNT_YEAR year month s) /\
  (data_caLINEdar_value picker = Some (month_value year month) ->
   el_id picker = ID_DATE_PICKER ->
   data_caLINEdar_value target = Some "month-picker-btn"%string ->
   _onPanelButtonClick calendar COUNT_YEAR COUNT_DATES picker target s
   = _showMonthPicker calendar year month s) /\
  (el_id picker = ID_MONTH_PICKER ->
   data_caLINEdar_value target = Some "month-picker-btn"%string ->
   _onPanelButtonClick calendar COUNT_YEAR COUNT_DATES picker target s
   = (Ok tt, s)) /\
  (el_id picker = ID_YEAR_PICKER ->
   data_caLINEdar_value target = Some "year-picker-btn"%string ->
   _onPanelButtonClick calendar COUNT_YEAR COUNT_DATES picker target s
   = (Ok tt, s)).
Proof.
  intros Hleft Hright. unfold _onPanelButtonClick.
  rewrite Hleft, Hright.
  split; [|split; [|split]].
  - intros -> [-> | ->] ->; rewrite unserialize_month_value;
      unfold _showYearPicker, bind, get, lift; simpl;
      by destruct (_getYearPickerParams calendar COUNT_YEAR (_rtl s) year month).
  - intros -> -> ->. rewrite unserialize_month_value. reflexivity.
  - intros -> ->. reflexivity.
  - intros -> ->. reflexivity.
Qed.

Definition year_button : Element :=
  mkElement ID_OTHER ["caLINEdar-panel__btn"; "picker-btn"]%string "DIV"
    (Some "year-picker-btn"%string).

Lemma picker_button_click_witness :
  _onPanelButtonClick (Gregorian.calendar 0 1900 2100) 9 42
    (mkElement ID_DATE_PICKER [] "DIV" (Some (month_value 2018 2))) year_button
    (fresh false "" true true false)
  = _showYearPicker (Gregorian.calendar 0 1900 2100) 9 2018 2
      (fresh false "" true true false).
Proof.
  refine (proj1 (picker_button_click (Gregorian.calendar 0 1900 2100) 9 42
                   2018 2
                   (mkElement ID_DATE_PICKER [] "DIV" (Some (month_value 2018 2)))
                   year_button (fresh false "" true true false)
                   eq_refl eq_refl) eq_refl _ eq_refl).
  by left.
Defined.

(** *** The cells *)

Lemma onPick_month_cell (calendar : Calendar) (tza COUNT_DATES : Z)
    (picker target : Element) (c : ascii) (t : string) :
  el_id picker = ID_MONTH_PICKER ->
  data_caLINEdar_value target = Some (String c t) ->
  _onPick calendar tza COUNT_DATES picker target
  = (let value := _unserializeValue (Some (String c t)) in
     let* y := prop value "year" in
     let* m := prop value "month" in
     let* y := int_arg y in
     let* m := int_arg m in
     let* s := get in
     _showDatePicker calendar COUNT_DATES y m (_localDate s)).
Proof. intros Hid Htarget. unfold _onPick. by rewrite Htarget, Hid. Qed.

(** X5. The month picker of a year has one cell for each month of the
    calendar, in the calendar's order and with its text, and a click on a
    cell shows the date picker of that month of that year, with the picked
    date as it is. *)
Theorem month_cell_click (calendar : Calendar) (tza COUNT_DATES : Z)
    (rtl : bool) (year monthPicked : Z) (i : nat) (e : Entry)
    (picker target : Element) :
  getMonths calendar year !! i = Some e ->
  el_id picker = ID_MONTH_PICKER ->
  let params := _getMonthPickerParams calendar rtl year monthPicked in
  exists cell,
    mp_months params !! i = Some cell /\
    mc_text cell = text e /\
    length (mp_months params) = length (getMonths calendar year) /\
    (data_caLINEdar_value target = Some (mc_value cell) ->
     forall s,
       _onPick calendar tza COUNT_DATES picker target s
       = _showDatePicker calendar COUNT_DATES year (value e) (_localDate s) s).
Proof.
  intros He Hid params.
  exists (mkMonthCell (month_value year (value e)) (text e)).
  unfold params, _getMonthPickerParams. cbn [mp_months].
  split; [by rewrite list_lookup_fmap, He|].
  split; [done|]. split; [by rewrite length_map|].
  cbn [mc_value]. intros Htarget s.
  destruct (month_value_nonempty year (value e)) as (c & t & Hct).
  rewrite Hct in Htarget.
  rewrite (onPick_month_cell _ _ _ _ _ c t Hid Htarget), <- Hct.
  cbv zeta. rewrite unserialize_month_value. reflexivity.
Qed.

Lemma month_cell_click_witness :
  exists cell,
    mp_months (_getMonthPickerParams (Gregorian.calendar 0 1900 2100) false 2018 2)
    !! 4%nat = Some cell /\
    mc_text cell = "May"%string /\
    forall s,
      _onPick (Gregorian.calendar 0 1900 2100) 0 42
        (mkElement ID_MONTH_PICKER [] "DIV" (Some (month_value 2018 2)))
        (mkElement ID_OTHER ["caLINEdar-table-cell"%string] "TD"
           (Some (mc_value cell))) s
      = _showDatePicker (Gregorian.calendar 0 1900 2100) 42 2018 4 (_localDate s) s.
Proof.
  destruct (month_cell_click (Gregorian.calendar 0 1900 2100) 0 42 false 2018 2
              4%nat (mkEntry 4 "May")
              (mkElement ID_MONTH_PICKER [] "DIV" (Some (month_value 2018 2)))
              (mkElement ID_OTHER ["caLINEdar-table-cell"%string] "TD"
                 (Some (month_value 2018 4)))
              eq_refl eq_refl)
    as (cell & Hcell & Htext & _ & Hclick).
  exists cell. split; [exact Hcell|]. split; [exact Htext|].
  injection Hcell as <-. exact (Hclick eq_refl).
Defined.

Lemma string_of_Z_nonempty (z : Z) : exists c t, JSON.string_of_Z z = String c t.
Proof.
  pose proof (string_of_Z_head z "") as H. rewrite string_app_nil_r in H.
  destruct (JSON.string_of_Z z) as [|c t]; [done|]. eauto.
Qed.

Lemma onPick_year_cell (calendar : Calendar) (tza COUNT_DATES : Z)
    (picker target : Element) (c : ascii) (t : string) :
  el_id picker = ID_YEAR_PICKER ->
  data_caLINEdar_value target = Some (String c t) ->
  _onPick calendar tza COUNT_DATES picker target
  = (let year := JSON.parseInt (String c t) in
     let data := _unserializeValue (data_caLINEdar_value picker) in
     let* am := prop data "anchorMonth" in
     let* am := int_arg am in
     match year with
     | JSDate.Int year =>
         let* s := get in
         _showDatePicker calendar COUNT_DATES year am (_localDate s)
     | JSDate.NaN => stuck
     end).
Proof. intros Hid Htarget. unfold _onPick. by rewrite Htarget, Hid. Qed.

(** X6. Every cell of the year picker that [_getYearPickerParams] made is a
    year of the calendar, with that year as its text and as its value, and
    a click on a cell, whose attribute holds the value in decimal digits,
    shows the date picker of that year and of the month the year picker was
    anchored at, with the picked date as it is. *)
Theorem year_cell_click (calendar : Calendar) (tza COUNT_YEAR COUNT_DATES : Z)
    (rtl : bool) (anchorYear anchorMonth : Z) (p : YearPickerParams) (i : nat)
    (cell : YearCell) (picker target : Element) :
  _getYearPickerParams calendar COUNT_YEAR rtl anchorYear anchorMonth = Ok p ->
  yp_years p !! i = Some cell ->
  el_id picker = ID_YEAR_PICKER ->
  data_caLINEdar_value picker = Some (yp_value p) ->
  data_caLINEdar_value target = Some (JSON.string_of_Z (yc_value cell)) ->
  isDateInCalendar calendar (yc_value cell) None = true /\
  yc_text cell = yc_value cell /\
  forall s,
    _onPick calendar tza COUNT_DATES picker target s
    = _showDatePicker calendar COUNT_DATES (yc_value cell) anchorMonth
        (_localDate s) s.
Proof.
  intros Hp Hcell Hid Hpicker Htarget.
  apply getYearPickerParams_years in Hp as [Hyears Hvalue].
  rewrite Hyears, list_lookup_fmap in Hcell.
  destruct (shown_years calendar COUNT_YEAR anchorYear !! i) as [y|] eqn:Hy;
    [|done].
  injection Hcell as <-. cbn [yc_value yc_text] in *.
  split.
  { apply list_elem_of_lookup_2, list_elem_of_In in Hy.
    unfold shown_years in Hy. by apply filter_In in Hy as [_ Hy]. }
  split; [done|]. intros s.
  destruct (string_of_Z_nonempty y) as (c & t & Hct).
  rewrite Hct in Htarget.
  rewrite (onPick_year_cell _ _ _ _ _ c t Hid Htarget), <- Hct.
  cbv zeta.
  rewrite parseInt_string_of_Z, Hpicker, Hvalue, unserialize_year_value.
  reflexivity.
Qed.

Lemma year_cell_click_witness :
  exists p,
    _getYearPickerParams (Gregorian.calendar 0 2000 2100) 9 false 2002 5 = Ok p /\
    yp_years p !! 1%nat = Some (mkYearCell 2001 2001) /\
    forall s,
      _onPick (Gregorian.calendar 0 2000 2100) 0 42
        (mkElement ID_YEAR_PICKER [] "DIV" (Some (yp_value p)))
        (mkElement ID_OTHER ["caLINEdar-table-cell"%string] "TD" (Some "2001"%string))
        s
      = _showDatePicker (Gregorian.calendar 0 2000 2100) 42 2001 5 (_localDate s) s.
Proof.
  eexists. split; [vm_compute; reflexivity|]. split; [reflexivity|].
  eapply (year_cell_click (Gregorian.calendar 0 2000 2100) 0 9 42 false 2002 5
            _ 1%nat (mkYearCell 2001 2001));
    [vm_compute; reflexivity|reflexivity..].
Defined.

(** *** The cell of a date *)

Lemma prop_DateObj (d : DateObj) :
  prop (json_of_DateObj d) "year" = ret (Some (JSON.JInt (year d))) /\
  prop (json_of_DateObj d) "month" = ret (Some (JSON.JInt (month d))) /\
  prop (json_of_DateObj d) "date" = ret (Some (JSON.JInt (date d))).
Proof.
  destruct d as [y m dd dy h g sp pk tx vl].
  destruct h, g, sp, pk, tx, vl; repeat split; reflexivity.
Qed.

Lemma ints_only_DateObj (d : DateObj) : ints_only (json_of_DateObj d) = true.
Proof.
  destruct d as [y m dd dy h g sp pk tx vl].
  destruct h, g, sp, pk, tx, vl; reflexivity.
Qed.

Lemma onPick_date_cell (calendar : Calendar) (tza COUNT_DATES : Z)
    (picker target : Element) (c : ascii) (t : string) :
  el_id picker = ID_DATE_PICKER ->
  data_caLINEdar_value target = Some (String c t) ->
  _onPick calendar tza COUNT_DATES picker target
  = (let value := _unserializeValue (Some (String c t)) in
     let* y := prop value "year" in
     let* m := prop value "month" in
     let* d := prop value "date" in
     let* y := int_arg y in
     let* m := int_arg m in
     let* d := int_arg d in
     match convertLocalDate2JSDate calendar y m d with
     | None => throw TypeError
     | Some (jy, jm, jd) =>
         let jsDate :=
           JSDate.Date_of_fields tza
             (JSDate.Int jy) (JSDate.Int jm) (JSDate.Int jd) in
         let* ok := setDate calendar tza (ADate jsDate) in
         if ok then
           let* s := get in
           match _localDate s with
           | Some l =>
               _showDatePicker calendar COUNT_DATES (year l) (month l) (Some l) ;;
               _notify "onChange"
           | None => throw TypeError
           end
         else ret tt
     end).
Proof. intros Hid Htarget. unfold _onPick. by rewrite Htarget, Hid. Qed.

(** The value of a cell is read back as the year, month and date of its
    date. *)
Lemma onPick_tagged_cell (calendar : Calendar) (tza COUNT_DATES : Z)
    (picker target : Element) (datePicked : option DateObj) (d : DateObj) :
  el_id picker = ID_DATE_PICKER ->
  data_caLINEdar_value target = d_value (tag datePicked d) ->
  _onPick calendar tza COUNT_DATES picker target
  = match convertLocalDate2JSDate calendar (year d) (month d) (date d) with
    | None => throw TypeError
    | Some (jy, jm, jd) =>
        let jsDate :=
          JSDate.Date_of_fields tza
            (JSDate.Int jy) (JSDate.Int jm) (JSDate.Int jd) in
        let* ok := setDate calendar tza (ADate jsDate) in
        if ok then
          let* s := get in
          match _localDate s with
          | Some l =>
              _showDatePicker calendar COUNT_DATES (year l) (month l) (Some l) ;;
              _notify "onChange"
          | None => throw TypeError
          end
        else ret tt
    end.
Proof.
  intros Hid Htarget.
  unfold tag in Htarget. cbn [d_value set_value] in Htarget.
  set (d' := set_text _ _) in Htarget.
  assert (Hne : exists c t, _serializeValue (json_of_DateObj d') = String c t).
  { unfold _serializeValue, json_of_DateObj. cbn [JSON.stringify]. by do 2 eexists. }
  destruct Hne as (c & t & Hct). rewrite Hct in Htarget.
  rewrite (onPick_date_cell _ _ _ _ _ c t Hid Htarget), <- Hct.
  cbv zeta. unfold _serializeValue.
  rewrite (unserialize_written _ (ints_only_DateObj d')).
  destruct (prop_DateObj d') as (-> & -> & ->).
  reflexivity.
Qed.

(** X7. A click on the cell of a date in the date picker picks that date:
    the year, month and date written into the value of the cell go through
    the calendar to [setDate]. When the calendar converts them both ways,
    the picked date, the stored date and the text of the field are those of
    that date after the click, however the display of the picker ends, and
    when [setDate] fails the click only leaves its warning. *)
Theorem date_cell_click (calendar : Calendar) (tza COUNT_DATES : Z)
    (picker target : Element) (datePicked : option DateObj) (d : DateObj)
    (jy jm jd : Z) (s : State) :
  el_id picker = ID_DATE_PICKER ->
  data_caLINEdar_value target = d_value (tag datePicked d) ->
  convertLocalDate2JSDate calendar (year d) (month d) (date d)
  = Some (jy, jm, jd) ->
  let jsDate :=
    JSDate.Date_of_fields tza (JSDate.Int jy) (JSDate.Int jm) (JSDate.Int jd) in
  let newDate := align tza jsDate in
  let s' := snd (_onPick calendar tza COUNT_DATES picker target s) in
  (forall l,
     local_of calendar tza newDate = Some l ->
     _unixDate s' = Some newDate /\ _localDate s' = Some l /\
     input_value s' = toLocaleDateString calendar newDate) /\
  (local_of calendar tza newDate = None ->
   _onPick calendar tza COUNT_DATES picker target s
   = (Ok tt, set_store (add_effect (ConsoleWarn (ADate jsDate)) (store s)) s)).
Proof.
  intros Hid Htarget Hconv jsDate newDate s'.
  unfold s'. rewrite (onPick_tagged_cell _ _ _ _ _ _ _ Hid Htarget), Hconv.
  cbv zeta. fold jsDate. unfold setDate. cbn [newDate_of]. fold newDate.
  split.
  - intros l Hl. rewrite Hl.
    set (P := fun st : State =>
                _unixDate st = Some newDate /\ _localDate st = Some l /\
                input_value st = toLocaleDateString calendar newDate).
    assert (Hemit : forall e, keeps P (emit e)).
    { intros e. apply keeps_liftS. by intros st Hst. }
    assert (Hshow : keeps P
                      (_showDatePicker calendar COUNT_DATES (year l) (month l)
                         (Some l) ;; _notify "onChange")).
    { apply keeps_bind; [|intros ?; by apply keeps_notify].
      apply keeps_showDatePicker; [done|].
      intros y m dp. apply keeps_liftS. by intros st Hst. }
    apply (Hshow (set_picked (Some newDate) (Some l)
                    (toLocaleDateString calendar newDate) s)).
    done.
  - intros Hl. rewrite Hl. reflexivity.
Qed.

Lemma date_cell_click_witness :
  let cal := Gregorian.calendar 0 1900 2100 in
  let target :=
    mkElement ID_OTHER ["caLINEdar-table-cell"%string] "TD"
      (d_value (tag None (Gregorian.mkDay 2018 2 9))) in
  let s' :=
    snd (_onPick cal 0 42 (mkElement ID_DATE_PICKER [] "DIV" None) target
           (fresh false "" true true false)) in
  getDate s' = Some (JSDate.Int 1520553600) /\
  input_value s' = "2018/3/9"%string.
Proof.
  intros cal target s'.
  destruct (date_cell_click cal 0 42 (mkElement ID_DATE_PICKER [] "DIV" None)
              target None (Gregorian.mkDay 2018 2 9) 2018 2 9
              (fresh false "" true true false) eq_refl eq_refl eq_refl)
    as [Hpicked _].
  destruct (Hpicked (Gregorian.mkDay 2018 2 9)) as (Hu & _ & Hv);
    [vm_compute; reflexivity|].
  fold s' in Hu, Hv. unfold getDate. rewrite Hu, Hv.
  split; vm_compute; reflexivity.
Defined.

(** ** Months that the calendar does not list *)

Lemma findIndex_none {A} (p : A -> bool) (l : list A) :
  (forall x, In x l -> p x = false) -> findIndex p l = -1.
Proof.
  induction l as [|x r IH]; intros Hall; [done|]. simpl.
  rewrite (Hall x) by (by left).
  rewrite IH by (intros y Hy; apply Hall; by right). reflexivity.
Qed.

(** X8. For a month that is not in the list of months, the two neighbours
    are not computed alike: [_calcPrevLocalMonth] throws a TypeError, and
    [_calcNextLocalMonth] answers the first month of the list, in the same
    year, or throws when the list is empty. The parameters of a date picker
    for such a month are never made: [_getDatePickerParams] throws before
    it touches the store. *)
Theorem neighbours_of_unlisted_month (calendar : Calendar) (COUNT_DATES : Z)
    (year month : Z) (months : list Entry) :
  ~ In month (List.map value months) ->
  _calcPrevLocalMonth year month months = Throw TypeError /\
  _calcNextLocalMonth year month months
  = match months with
    | [] => Throw TypeError
    | first :: _ => Ok (mkYearMonth year (value first))
    end /\
  (months = getMonths calendar year ->
   forall datePicked s,
     _getDatePickerParams calendar COUNT_DATES year month datePicked s
     = (Throw TypeError, s)).
Proof.
  intros Hnot.
  assert (Hidx : findIndex (fun m => value m =? month) months = -1).
  { apply findIndex_none. intros x Hx. apply Z.eqb_neq. intros Heq.
    apply Hnot. rewrite <- Heq. by apply in_map. }
  assert (Hprev : _calcPrevLocalMonth year month months = Throw TypeError).
  { unfold _calcPrevLocalMonth. by rewrite Hidx. }
  split; [exact Hprev|]. split.
  - unfold _calcNextLocalMonth. rewrite Hidx.
    destruct months as [|first rest]; [done|].
    unfold len. cbn [length].
    destruct (Z.eqb_spec (-1) (Z.of_nat (S (length rest)) - 1)); [lia|].
    reflexivity.
  - intros -> datePicked s.
    unfold _getDatePickerParams, bind, get, lift. by rewrite Hprev.
Qed.

Lemma neighbours_of_unlisted_month_witness :
  _calcPrevLocalMonth 2018 12 Gregorian.months = Throw TypeError /\
  _calcNextLocalMonth 2018 12 Gregorian.months = Ok (mkYearMonth 2018 0).
Proof.
  destruct (neighbours_of_unlisted_month (Gregorian.calendar 0 1900 2100) 42
              2018 12 Gregorian.months) as (Hprev & Hnext & _).
  - simpl. intros H. repeat destruct H as [H|H]; try discriminate H. exact H.
  - split; [exact Hprev|exact Hnext].
Defined.

(** ** Subscribers *)

Lemma set_events_same (s : State) : set_events (_events s) s = s.
Proof. by destruct s. Qed.

Lemma filter_absent (h : nat) (q : list nat) :
  ~ In h q -> List.filter (fun h' => negb (Nat.eqb h' h)) q = q.
Proof.
  induction q as [|x q IH]; intros Hnot; [done|]. simpl.
  destruct (Nat.eqb_spec x h) as [->|Hne]; simpl.
  - exfalso. apply Hnot. by left.
  - rewrite IH; [done|]. intros Hin. apply Hnot. by right.
Qed.

(** X9. On every controller, [subscribe] adds a handler of [onChange] at
    the end of the queue, once for each call, and does nothing for another
    event or for a handler that is not a function. [unsubscribe] of a
    handler of [onChange] leaves in the queue the entries that are not that
    handler, in their order, wherever the handler was and however often:
    after it the handler is not in the queue, a handler subscribed after
    it is still the last, and when the handler was not subscribed before,
    [subscribe] followed by [unsubscribe] leaves the controller as it was.
    [unsubscribe] of something that is not a function does nothing. *)
Theorem subscribe_then_unsubscribe (h : nat) (s : State) :
  let others := List.filter (fun h' => negb (Nat.eqb h' h)) in
  subscribe "onChange" (Some h) s = (Ok tt, set_events (_events s ++ [h]) s) /\
  unsubscribe "onChange" (Some h) s
  = (Ok tt, set_events (others (_events s)) s) /\
  ~ In h (others (_events s)) /\
  (forall a, a <> h -> (In a (others (_events s)) <-> In a (_events s))) /\
  (forall a,
     a <> h ->
     _events
       (snd (unsubscribe "onChange" (Some h)
               (snd (subscribe "onChange" (Some a)
                       (snd (subscribe "onChange" (Some h) s))))))
     = others (_events s) ++ [a]) /\
  (~ In h (_events s) ->
   snd (unsubscribe "onChange" (Some h)
          (snd (subscribe "onChange" (Some h) s))) = s) /\
  (forall eventType handler,
     eventType <> "onChange"%string ->
     subscribe eventType handler s = (Ok tt, s)) /\
  (forall eventType,
     subscribe eventType None s = (Ok tt, s) /\
     unsubscribe eventType None s = (Ok tt, s)).
Proof.
  intros others.
  split; [reflexivity|]. split; [reflexivity|]. split.
  { intros [_ Hin]%filter_In. by rewrite Nat.eqb_refl in Hin. }
  split.
  { intros a Hne. unfold others. rewrite filter_In. split; [by intros [? _]|].
    intros Hin. split; [done|]. by destruct (Nat.eqb_spec a h). }
  split.
  { intros a Hne. unfold unsubscribe, subscribe, bind, get, modify. simpl.
    rewrite !List.filter_app. simpl. rewrite Nat.eqb_refl. simpl.
    destruct (Nat.eqb_spec a h) as [|_]; [done|]. simpl.
    by rewrite app_nil_r. }
  split.
  { intros Hnot. unfold unsubscribe, subscribe, bind, get, modify. simpl.
    rewrite List.filter_app. simpl. rewrite Nat.eqb_refl. simpl.
    rewrite app_nil_r, filter_absent by done.
    unfold set_events. simpl. by destruct s. }
  split.
  - intros eventType handler Hne. unfold subscribe.
    destruct handler as [h'|]; [|done].
    by destruct (String.eqb_spec eventType "onChange").
  - done.
Qed.

(** The handlers of [onChange] among the parameters of the constructor. *)
Fixpoint onChange_handlers (props : list (string * option nat)) : list nat :=
  match props with
  | [] => []
  | (prop, Some h) :: r =>
      if String.eqb prop "onChange" then h :: onChange_handlers r
      else onChange_handlers r
  | (_, None) :: r => onChange_handlers r
  end.

Lemma subscribe_all_run (props : list (string * option nat)) :
  forall s,
    subscribe_all props s
    = (Ok tt, set_events (_events s ++ onChange_handlers props) s).
Proof.
  induction props as [|[prop handler] props IH]; intros s.
  - simpl. by rewrite app_nil_r, set_events_same.
  - cbn [subscribe_all onChange_handlers]. unfold bind, subscribe.
    destruct handler as [h|]; [destruct (String.eqb prop "onChange")|];
      simpl; unfold bind, get, modify; simpl; rewrite IH; simpl;
      by rewrite <- ?app_assoc.
Qed.

(** X10. The constructor never throws. The new controller has the date of
    [setDate] picked when [setDate] takes it, and otherwise nothing picked
    and the placeholder in the field; its subscribers are the functions
    given as [onChange], and nothing else among the parameters; it has no
    cache yet: the calendar is asked for no dates and no picker is shown,
    and a warning is logged exactly when a date was given that the calendar
    could not convert. *)
Theorem constructor_result (calendar : Calendar) (tza : Z) (date : jsarg)
    (props : list (string * option nat)) (rtl : bool) (input0 : string)
    (current isOpen small : bool) :
  exists s',
    constructor calendar tza date props (fresh rtl input0 current isOpen small)
    = (Ok tt, s') /\
    _rtl s' = rtl /\
    _events s' = onChange_handlers props /\
    _datesCache (store s') = None /\
    match newDate_of date with
    | Some d =>
        match local_of calendar tza (align tza d) with
        | Some l =>
            _unixDate s' = Some (align tza d) /\ _localDate s' = Some l /\
            input_value s' = toLocaleDateString calendar (align tza d) /\
            trace (store s') = []
        | None =>
            _unixDate s' = None /\ _localDate s' = None /\
            input_value s' = getDateStringPlaceholder calendar /\
            trace (store s') = [ConsoleWarn date]
        end
    | None =>
        _unixDate s' = None /\ _localDate s' = None /\
        input_value s' = getDateStringPlaceholder calendar /\
        trace (store s') = []
    end.
Proof.
  unfold constructor, bind, setDate.
  destruct (newDate_of date) as [d|]; [destruct (local_of _ _ _) as [l|]|];
    simpl; unfold clearDate, bind, modify, ret; simpl;
    rewrite subscribe_all_run; eexists; (split; [reflexivity|]); done.
Qed.

(** ** The clear button *)

(** X11. A click on the clear button never throws: it leaves nothing
    picked and the placeholder in the field, and asks for one animation
    frame for the queue of the [onChange] handlers, whether a date was
    picked before or not; while no handler is subscribed it asks for no
    frame. The cache is left as it is. *)
Theorem clear_button_click (calendar : Calendar) (s : State) :
  _onClearBtnClick calendar s
  = (Ok tt,
     set_store
       (mkStore (_datesCache (store s)) (heap (store s))
          (trace (store s) ++ [PreventDefault; StopPropagation]
           ++ match _events s with
              | [] => []
              | _ :: _ => [RequestAnimationFrame (CbNotify (_events s))]
              end))
       (set_picked None None (getDateStringPlaceholder calendar) s)).
Proof.
  unfold _onClearBtnClick, _notify, clearDate, bind, emit, liftS, emitS, modify,
    get.
  simpl. destruct (_events s) as [|h q] eqn:Hq; simpl.
  - unfold ret, set_store, add_effect. simpl. by rewrite <- app_assoc.
  - unfold len. cbn [length].
    destruct (Z.ltb_spec 0 (Z.of_nat (S (length q)))); [|lia].
    simpl. unfold set_store, add_effect. simpl.
    by rewrite <- !app_assoc.
Qed.

(** ** What leaves the picked date alone *)

(** The picked date, the stored date and the text of the field. *)
Definition picked_fields (s : State) : option Date * option DateObj * string :=
  (_unixDate s, _localDate s, input_value s).

(** The operations that only show something: opening, subscriptions,
    frames, and the clicks in the pickers other than on the cell of a
    date. *)
Definition shows_only (op : operation) : bool :=
  match op with
  | Call_openCalendar | Call_subscribe _ _ | Call_unsubscribe _ _
  | On_focus | On_frame _ => true
  | On_pickerClick picker target =>
      contains (classList target) "caLINEdar-panel__btn"
      || negb (pickerId_eqb (el_id picker) ID_DATE_PICKER)
  | _ => false
  end.

Section PickedFields.
Variable calendar : Calendar.
Variables tza COUNT_YEAR COUNT_DATES : Z.
Variable fields : option Date * option DateObj * string.

Let P := fun s : State => picked_fields s = fields.

Lemma fields_liftS {A} (m : M Store A) : keeps P (liftS m).
Proof. apply keeps_liftS. by intros s Hs. Qed.

Lemma fields_emit (e : effect) : keeps P (emit e).
Proof. apply fields_liftS. Qed.

Lemma fields_dates (y m : Z) (dp : option DateObj) :
  keeps P (liftS (_getLocalDatesToDisplay calendar COUNT_DATES y m dp)).
Proof. apply fields_liftS. Qed.

Lemma fields_showDatePicker (y m : Z) (dp : option DateObj) :
  keeps P (_showDatePicker calendar COUNT_DATES y m dp).
Proof. apply keeps_showDatePicker; [apply fields_emit|apply fields_dates]. Qed.

(** One step through a method that keeps the fields. *)
Ltac fields_step :=
  match goal with
  | |- keeps _ (_showDatePicker _ _ _ _ _) => apply fields_showDatePicker
  | |- keeps _ (prop _ _) => apply keeps_prop
  | |- keeps _ (int_arg _) => apply keeps_int_arg
  | |- keeps _ get => apply keeps_get
  | |- keeps _ stuck => apply keeps_stuck
  | |- keeps _ (ret _) => apply keeps_ret
  | |- keeps _ (emit _) => apply fields_emit
  | |- keeps _ (bind _ _) => apply keeps_bind; [|intros ?]
  | |- keeps _ (let _ := _ in _) => cbv zeta
  | |- keeps _ (match ?x with _ => _ end) => destruct x
  end.

Lemma fields_onPick (picker target : Element) :
  pickerId_eqb (el_id picker) ID_DATE_PICKER = false ->
  keeps P (_onPick calendar tza COUNT_DATES picker target).
Proof.
  intros Hid. unfold _onPick.
  destruct (data_caLINEdar_value target) as [[|c t]|]; try apply keeps_ret.
  destruct (el_id picker); [done|..]; repeat fields_step.
Qed.

Lemma fields_perform (op : operation) :
  shows_only op = true ->
  keeps P (perform calendar tza COUNT_YEAR COUNT_DATES op).
Proof.
  destruct op; try discriminate; intros Hop; cbn [perform].
  - apply keeps_openCalendar; [by intros b s Hs|apply fields_emit].
  - apply keeps_subscribe. by intros q s Hs.
  - unfold unsubscribe. destruct handler as [h|]; [|apply keeps_ret].
    destruct (String.eqb _ _); [|apply keeps_ret].
    apply keeps_bind; [apply keeps_get|intros ?].
    apply keeps_modify. by intros s Hs.
  - unfold onFocus.
    apply keeps_bind; [apply keeps_get|intros s0].
    apply keeps_bind; [|intros ?].
    + destruct (smallScreen s0); [|apply keeps_ret].
      apply keeps_bind; [apply fields_emit|intros ?; apply fields_emit].
    + apply keeps_openCalendar; [by intros b s Hs|apply fields_emit].
  - unfold _onPickerClick.
    apply keeps_bind; [apply fields_emit|intros ?].
    apply keeps_bind; [apply fields_emit|intros ?].
    cbn [shows_only] in Hop.
    destruct (contains (classList target) "caLINEdar-panel__btn").
    + apply keeps_onPanelButtonClick; [apply fields_emit|apply fields_dates].
    + destruct (_ && _); [|apply keeps_ret].
      apply fields_onPick. by apply negb_true_iff.
  - destruct cb; cbn [run_callback]; [|apply fields_emit|apply keeps_ret].
    unfold _openCalendar.
    apply keeps_bind; [apply keeps_get|intros s0].
    apply keeps_bind; [|intros ?].
    + apply keeps_getDatePickerParams. apply fields_dates.
    + apply keeps_bind; [apply fields_emit|intros ?].
      apply keeps_modify. by intros s Hs.
Qed.
End PickedFields.

(** X12. Looking around changes nothing that is picked: opening the
    calendar, a focus, a frame, a subscription, a click on a button of a
    panel (the arrows and the buttons of the year and of the month) and a
    click on a cell of the month picker or of the year picker leave the
    picked date, the stored date and the text of the field as they were,
    also when the handler throws. *)
Theorem browsing_keeps_picked_date (calendar : Calendar)
    (tza COUNT_YEAR COUNT_DATES : Z) (op : operation) (s : State) :
  shows_only op = true ->
  let s' := snd (perform calendar tza COUNT_YEAR COUNT_DATES op s) in
  _unixDate s' = _unixDate s /\ _localDate s' = _localDate s /\
  input_value s' = input_value s /\ getDate s' = getDate s.
Proof.
  intros Hop s'.
  pose proof (fields_perform calendar tza COUNT_YEAR COUNT_DATES
                (picked_fields s) op Hop s eq_refl) as H.
  fold s' in H. unfold picked_fields in H. injection H as Hu Hl Hv.
  unfold getDate. by rewrite Hu.
Qed.

Lemma browsing_keeps_picked_date_witness :
  exists s,
    setDate (Gregorian.calendar 0 1900 2100) 0 (AInt 1519900000)
      (fresh false "" true true false) = (Ok true, s) /\
    getDate
      (snd (perform (Gregorian.calendar 0 1900 2100) 0 9 42
              (On_pickerClick
                 (mkElement ID_DATE_PICKER [] "DIV" (Some (month_value 2018 2)))
                 right_button) s))
    = Some (JSDate.Int 1519862400).
Proof.
  eexists. split; [vm_compute; reflexivity|].
  rewrite (proj2 (proj2 (proj2
             (browsing_keeps_picked_date (Gregorian.calendar 0 1900 2100) 0 9 42
                (On_pickerClick
                   (mkElement ID_DATE_PICKER [] "DIV" (Some (month_value 2018 2)))
                   right_button) _ eq_refl)))).
  vm_compute. reflexivity.
Defined.

(** ** The stored date is the start of a local day *)

Lemma days_of_civil_date (y m d : Z) :
  JSDate.days_of_civil y m d = JSDate.days_of_civil y m 1 + d - 1.
Proof. unfold JSDate.days_of_civil, JSDate.join_doe. lia. Qed.

(** An earlier year has earlier days. *)
Lemma days_of_civil_year_lt (y y' m m' d d' : Z) :
  y' < y -> 0 <= m <= 11 -> 0 <= m' <= 11 -> 1 <= d -> 1 <= d' <= 31 ->
  JSDate.days_of_civil y' m' d' < JSDate.days_of_civil y m d.
Proof.
  intros Hy Hm Hm' Hd Hd'.
  unfold JSDate.days_of_civil, JSDate.join_doe, JSDate.daysPerEra,
    JSDate.epochShift.
  destruct (Z.leb_spec m 1), (Z.leb_spec m' 1);
    Z.div_mod_to_equations; lia.
Qed.

(** A day given by a year, a month of 0 to 11 and a date of 1 to 31 is in
    that year. *)
Lemma YearFromTime_MakeDay (y m d : Z) :
  0 <= m <= 11 -> 1 <= d <= 31 ->
  JSDate.YearFromTime (JSDate.MakeDay y m d * JSDate.msPerDay) = y.
Proof.
  intros Hm Hd.
  unfold JSDate.YearFromTime, JSDate.Day.
  rewrite Z.div_mul by done.
  unfold JSDate.MakeDay.
  rewrite Z.div_small, Z.mod_small, Z.add_0_r by lia.
  rewrite <- days_of_civil_date.
  pose proof (JSDate.civil_roundtrip (JSDate.days_of_civil y m d)) as H.
  destruct (JSDate.civil_of_days (JSDate.days_of_civil y m d)) as [[y' m'] d'].
  destruct H as (Heq & Hm' & Hd'). simpl.
  destruct (Z.lt_trichotomy y' y) as [Hlt|[Heq'|Hgt]]; [|done|].
  - pose proof (days_of_civil_year_lt y y' m m' d d' Hlt Hm Hm'
                  ltac:(lia) Hd'). lia.
  - pose proof (days_of_civil_year_lt y' y m' m d' d Hgt Hm' Hm
                  ltac:(lia) Hd). lia.
Qed.

Lemma fields_in_range (t : Z) :
  0 <= JSDate.MonthFromTime t <= 11 /\ 1 <= JSDate.DateFromTime t <= 31.
Proof.
  unfold JSDate.MonthFromTime, JSDate.DateFromTime.
  pose proof (JSDate.civil_roundtrip (JSDate.Day t)) as H.
  destruct (JSDate.civil_of_days (JSDate.Day t)) as [[y m] d]. simpl.
  by destruct H as (_ & ? & ?).
Qed.

(** The date that [new Date(year, month, date)] makes of the fields of a
    date is at the start of a local day, in a year outside 0 to 99: made
    again of its own fields it is the same date. *)
Lemma align_idempotent (tza : Z) (d : Date) :
  align tza (align tza d) = align tza d.
Proof.
  destruct d as [[t|]]; [|reflexivity].
  pose proof (fields_in_range (JSDate.LocalTime tza t)) as [Hm Hd].
  set (y := JSDate.YearFromTime (JSDate.LocalTime tza t)).
  set (m := JSDate.MonthFromTime (JSDate.LocalTime tza t)) in *.
  set (dt := JSDate.DateFromTime (JSDate.LocalTime tza t)) in *.
  set (yr := if (0 <=? y) && (y <=? 99) then 1900 + y else y).
  assert (Hyr : (0 <=? yr) && (yr <=? 99) = false).
  { unfold yr.
    destruct (Z.leb_spec 0 y), (Z.leb_spec y 99); simpl;
      apply andb_false_iff;
      rewrite !Z.leb_gt; lia. }
  set (D := JSDate.MakeDay yr m dt).
  assert (Hinner : align tza (JSDate.mkDate (JSDate.Int t))
                   = JSDate.mkDate
                       (JSDate.TimeClip (D * JSDate.msPerDay - tza))).
  { unfold align, JSDate.getFullYear, JSDate.getMonth, JSDate.getDate,
      JSDate.getField.
    cbn [JSDate.timeValue JSDate.Date_of_fields].
    unfold JSDate.MakeDate, JSDate.UTC. by rewrite Z.add_0_r. }
  rewrite Hinner.
  unfold JSDate.TimeClip.
  destruct (Z.abs (D * JSDate.msPerDay - tza) <=? JSDate.maxTime) eqn:Hclip;
    [|reflexivity].
  unfold align, JSDate.getFullYear, JSDate.getMonth, JSDate.getDate,
    JSDate.getField.
  cbn [JSDate.timeValue JSDate.Date_of_fields].
  unfold JSDate.LocalTime.
  replace (D * JSDate.msPerDay - tza + tza) with (D * JSDate.msPerDay) by lia.
  assert (Hguard : (0 <=? JSDate.YearFromTime (D * JSDate.msPerDay))
                   && (JSDate.YearFromTime (D * JSDate.msPerDay) <=? 99)
                   = false).
  { unfold D. by rewrite (YearFromTime_MakeDay yr m dt Hm Hd). }
  rewrite Hguard, JSDate.MakeDay_fields.
  unfold JSDate.Day. rewrite Z.div_mul by done.
  unfold JSDate.MakeDate, JSDate.UTC. rewrite Z.add_0_r.
  unfold JSDate.TimeClip. by rewrite Hclip.
Qed.

(** The instant is the first millisecond of a day of local time, in the
    zone of the constant offset [tza]. *)
Definition at_local_midnight (tza : Z) (u : Date) : Prop :=
  match JSDate.timeValue u with
  | JSDate.Int t => (t + tza) mod JSDate.msPerDay = 0
  | JSDate.NaN => True
  end.

Lemma align_at_local_midnight (tza : Z) (d : Date) :
  at_local_midnight tza (align tza d).
Proof.
  unfold align, at_local_midnight, JSDate.Date_of_fields.
  destruct (JSDate.getFullYear tza d) as [y|]; [|done].
  destruct (JSDate.getMonth tza d) as [m|]; [|done].
  destruct (JSDate.getDate tza d) as [dt|]; [|done].
  cbn [JSDate.timeValue]. unfold JSDate.TimeClip.
  destruct (_ <=? _); [|done].
  unfold JSDate.UTC, JSDate.MakeDate.
  match goal with
  | |- (?D * _ + 0 - _ + _) mod _ = 0 =>
      replace (D * JSDate.msPerDay + 0 - tza + tza) with (D * JSDate.msPerDay)
        by lia
  end.
  by apply Z.mod_mul.
Qed.

(** Nothing is picked, or the stored date is what [setDate] makes of it
    again and the picked date is the calendar's conversion of it. *)
Definition settled (calendar : Calendar) (tza : Z) (s : State) : Prop :=
  match _unixDate s, _localDate s with
  | None, None => True
  | Some u, Some l => align tza u = u /\ local_of calendar tza u = Some l
  | _, _ => False
  end.

Section Settled.
Variable calendar : Calendar.
Variables tza COUNT_YEAR COUNT_DATES : Z.

Let P := settled calendar tza.

Lemma settled_setDate (date : jsarg) : keeps P (setDate calendar tza date).
Proof.
  intros s Hs. unfold setDate.
  destruct (newDate_of date) as [d|]; [|done].
  destruct (local_of calendar tza (align tza d)) as [l|] eqn:Hl; [|done].
  split; [apply align_idempotent|exact Hl].
Qed.

Lemma settled_clearDate : keeps P (clearDate calendar).
Proof. by intros s Hs. Qed.

Lemma settled_liftS {A} (m : M Store A) : keeps P (liftS m).
Proof. apply keeps_liftS. by intros s Hs. Qed.

Lemma settled_perform (op : operation) :
  keeps P (perform calendar tza COUNT_YEAR COUNT_DATES op).
Proof.
  apply keeps_perform;
    auto using settled_setDate, settled_clearDate;
    intros; apply settled_liftS.
Qed.

Lemma settled_constructor (date : jsarg) (props : list (string * option nat)) :
  keeps P (constructor calendar tza date props).
Proof.
  apply keeps_constructor;
    auto using settled_setDate, settled_clearDate;
    intros; apply settled_liftS.
Qed.
End Settled.

(** X13. On a host whose local time is UTC plus one constant offset [tza]
    (a zone without daylight-saving transitions, as [JSDate.LocalTime] has
    it), the date that the controller stores is always the first
    millisecond of a day of local time, unless it is an invalid date: the
    constructor leaves it so and every method and every handler keeps it
    so, together with the fact that [setDate] of the stored date would
    store the same date again. On such a host [getDate()] therefore never
    returns a time inside a day. Nothing is said of a zone whose offset
    changes in the year. *)
Theorem stored_date_at_local_midnight (calendar : Calendar)
    (tza COUNT_YEAR COUNT_DATES : Z) (s : State) :
  settled calendar tza s ->
  (forall op,
     settled calendar tza
       (snd (perform calendar tza COUNT_YEAR COUNT_DATES op s))) /\
  (forall rtl input0 current isOpen small date props,
     settled calendar tza
       (snd (constructor calendar tza date props
               (fresh rtl input0 current isOpen small)))) /\
  (forall u, _unixDate s = Some u -> at_local_midnight tza u) /\
  (forall t,
     getDate s = Some (JSDate.Int t) ->
     exists ms, ms / 1000 = t /\ (ms + tza) mod JSDate.msPerDay = 0).
Proof.
  intros Hs.
  split; [intros op; by apply settled_perform|].
  split; [intros; by apply settled_constructor|].
  assert (Hmid : forall u, _unixDate s = Some u -> at_local_midnight tza u).
  { intros u Hu. unfold settled in Hs. rewrite Hu in Hs.
    destruct (_localDate s); [|done]. destruct Hs as [<- _].
    apply align_at_local_midnight. }
  split; [exact Hmid|].
  intros t. unfold getDate.
  destruct (_unixDate s) as [u|] eqn:Hu; [|done].
  specialize (Hmid u eq_refl). unfold at_local_midnight in Hmid.
  destruct (JSDate.timeValue u) as [ms|]; [|done].
  intros [= <-]. eauto.
Qed.

Lemma stored_date_at_local_midnight_witness :
  exists s,
    setDate (Gregorian.calendar 3600000 1900 2100) 3600000 (AInt 1519900000)
      (fresh false "" true true false) = (Ok true, s) /\
    settled (Gregorian.calendar 3600000 1900 2100) 3600000 s /\
    getDate s = Some (JSDate.Int 1519858800) /\
    exists ms,
      ms / 1000 = 1519858800 /\ (ms + 3600000) mod JSDate.msPerDay = 0.
Proof.
  eexists. split; [vm_compute; reflexivity|].
  assert (H : settled (Gregorian.calendar 3600000 1900 2100) 3600000
                (snd (setDate (Gregorian.calendar 3600000 1900 2100) 3600000
                        (AInt 1519900000) (fresh false "" true true false)))).
  { vm_compute. split; reflexivity. }
  split; [exact H|]. split; [vm_compute; reflexivity|].
  destruct (stored_date_at_local_midnight
              (Gregorian.calendar 3600000 1900 2100) 3600000 9 42 _ H)
    as (_ & _ & _ & Hget).
  apply Hget. vm_compute. reflexivity.
Defined.

(** ** Closing the calendar *)

(** X14. [closeCalendar] does nothing for a controller that does not own
    the calendar. For the one that does it never throws and never changes
    what is picked: it sets the stored date again, which leaves the stored
    and the picked date as they are, writes the text of the picked date
    into the field, or the placeholder when nothing is picked, whatever the
    field held, and closes the calendar. *)
Theorem closeCalendar_restores_field (calendar : Calendar) (tza : Z)
    (s : State) :
  settled calendar tza s ->
  (currentDateInput_is_this s = false ->
   closeCalendar calendar tza s = (Ok tt, s)) /\
  (currentDateInput_is_this s = true ->
   exists s',
     closeCalendar calendar tza s = (Ok tt, s') /\
     _unixDate s' = _unixDate s /\ _localDate s' = _localDate s /\
     input_value s'
     = match _unixDate s with
       | Some u => toLocaleDateString calendar u
       | None => getDateStringPlaceholder calendar
       end /\
     calendar_is_open s' = false /\
     trace (store s') = trace (store s) ++ [CloseCalendar]).
Proof.
  intros Hs. unfold closeCalendar, bind, get. split; intros ->; [done|].
  simpl. unfold settled in Hs.
  destruct (_unixDate s) as [u|] eqn:Hu, (_localDate s) as [l|] eqn:Hl;
    try done.
  - destruct Hs as [Halign Hlocal].
    unfold setDate. cbn [newDate_of]. rewrite Halign, Hlocal. simpl.
    eexists. split; [reflexivity|]. done.
  - simpl. eexists. split; [reflexivity|]. done.
Qed.

Lemma closeCalendar_restores_field_witness :
  exists s s',
    setDate (Gregorian.calendar 0 1900 2100) 0 (AInt 1519900000)
      (fresh false "typed by hand" true true false) = (Ok true, s) /\
    closeCalendar (Gregorian.calendar 0 1900 2100) 0 s = (Ok tt, s') /\
    getDate s' = getDate s /\
    input_value s' = "2018/3/1"%string.
Proof.
  eexists.
  assert (H : settled (Gregorian.calendar 0 1900 2100) 0
                (snd (setDate (Gregorian.calendar 0 1900 2100) 0
                        (AInt 1519900000)
                        (fresh false "typed by hand" true true false)))).
  { vm_compute. split; reflexivity. }
  destruct (closeCalendar_restores_field _ _ _ H) as [_ Hclose].
  destruct (Hclose eq_refl) as (s' & Hrun & Hu & _ & Hv & _).
  exists s'. split; [vm_compute; reflexivity|].
  split; [exact Hrun|]. split; [unfold getDate; by rewrite Hu|].
  rewrite Hv. vm_compute. reflexivity.
Defined.

(** ** What the date picker shows

    [_getLocalDatesToDisplay] step by step: the arrays that
    [_getDatesWithCache] returns are new cells at the end of the store, and
    the loops write into them. *)

Lemma bind_ok {S A B} (m : M S A) (k : A -> M S B) (s s' : S) (a : A) :
  m s = (Ok a, s') -> bind m k s = k a s'.
Proof. intros H. unfold bind. by rewrite H. Qed.

(** What a write does to a cell that holds a date object. *)
Definition on_obj (f : DateObj -> DateObj) (c : cell) : cell :=
  match c with
  | CObj o => CObj (f o)
  | CArr a => CArr a
  end.

Lemma read_arr_run (a : loc) (els : list (option loc)) (st : Store) :
  heap st !! a = Some (CArr els) -> read_arr a st = (Ok els, st).
Proof. intros H. unfold read_arr. by rewrite H. Qed.

Lemma read_obj_run (l : loc) (o : DateObj) (st : Store) :
  heap st !! l = Some (CObj o) -> read_obj l st = (Ok o, st).
Proof. intros H. unfold read_obj. by rewrite H. Qed.

Lemma update_obj_run (l : loc) (f : DateObj -> DateObj) (o : DateObj)
    (st : Store) :
  heap st !! l = Some (CObj o) ->
  update_obj l f st = (Ok tt, set_heap (<[l := CObj (f o)]> (heap st)) st).
Proof. intros H. unfold update_obj, bind. by rewrite (read_obj_run _ _ _ H). Qed.

Lemma element_run (arr : loc) (i : Z) (els : list (option loc)) (l : loc)
    (st : Store) :
  heap st !! arr = Some (CArr els) ->
  nth_Z els i = Some (Some l) ->
  element arr i st = (Ok l, st).
Proof.
  intros H Hi. unfold element, bind. by rewrite (read_arr_run _ _ _ H), Hi.
Qed.

Lemma array_length_run (arr : loc) (els : list (option loc)) (st : Store) :
  heap st !! arr = Some (CArr els) ->
  array_length arr st = (Ok (len els), st).
Proof. intros H. unfold array_length, bind. by rewrite (read_arr_run _ _ _ H). Qed.

Lemma unshift_run (arr : loc) (x : option loc) (els : list (option loc))
    (st : Store) :
  heap st !! arr = Some (CArr els) ->
  unshift arr x st
  = (Ok tt, set_heap (<[arr := CArr (x :: els)]> (heap st)) st).
Proof. intros H. unfold unshift, bind. by rewrite (read_arr_run _ _ _ H). Qed.

Lemma push_run (arr : loc) (x : option loc) (els : list (option loc))
    (st : Store) :
  heap st !! arr = Some (CArr els) ->
  push arr x st
  = (Ok tt, set_heap (<[arr := CArr (els ++ [x])]> (heap st)) st).
Proof. intros H. unfold push, bind. by rewrite (read_arr_run _ _ _ H). Qed.

Lemma nth_Z_seq (n k : nat) (i : nat) :
  (i < k)%nat ->
  nth_Z (Some <$> seq n k) (Z.of_nat i) = Some (Some (n + i)%nat).
Proof.
  intros Hi. rewrite nth_Z_of_nat, list_lookup_fmap, lookup_seq_lt by done.
  reflexivity.
Qed.

Definition gray : DateObj -> DateObj := set_grayOut (Bool true).

(** The loop over the dates of the previous month, with [j] of them left:
    each one is marked and put in front of the dates, the last one first. *)
Lemma fill_start_run (p dates : loc) (n k : nat) :
  forall (j : nat) (e : Z) (els : list (option loc)) (st : Store),
    (j <= k)%nat ->
    heap st !! p = Some (CArr (Some <$> seq n k)) ->
    heap st !! dates = Some (CArr els) ->
    p <> dates ->
    ~ (n <= dates < n + k)%nat ->
    ~ (n <= p < n + k)%nat ->
    (forall i, (i < j)%nat -> is_obj (heap st) (n + i)) ->
    exists h',
      fill_start j p dates (Z.of_nat j - 1) e st
      = (Ok (e - Z.of_nat j), set_heap h' st) /\
      length h' = length (heap st) /\
      h' !! dates = Some (CArr ((Some <$> seq n j) ++ els)) /\
      (forall i, (i < j)%nat ->
                 h' !! (n + i)%nat = on_obj gray <$> heap st !! (n + i)%nat) /\
      (forall l, l <> dates -> ~ (n <= l < n + j)%nat ->
                 h' !! l = heap st !! l).
Proof.
  induction j as [|j IH]; intros e els st Hj Hp Hdates Hne Hd Hpr Hobjs.
  - exists (heap st). cbn [fill_start]. unfold comma. simpl.
    rewrite Z.sub_0_r. split; [by destruct st|].
    split; [done|]. split; [done|]. split; [lia|done].
  - cbn [fill_start]. unfold comma.
    assert (Hge : (Z.of_nat (S j) - 1 >=? 0) = true) by (apply Z.geb_le; lia).
    rewrite Hge.
    replace (Z.of_nat (S j) - 1) with (Z.of_nat j) by lia.
    destruct (Hobjs j ltac:(lia)) as [o Ho].
    rewrite (bind_ok _ _ _ _ _
               (element_run p (Z.of_nat j) _ (n + j)%nat st Hp
                  (nth_Z_seq n k j ltac:(lia)))).
    rewrite (bind_ok _ _ _ _ _ (update_obj_run (n + j)%nat gray o st Ho)).
    set (h1 := <[(n + j)%nat := CObj (gray o)]> (heap st)).
    assert (Hd1 : h1 !! dates = Some (CArr els)).
    { unfold h1. rewrite list_lookup_insert_ne by lia. done. }
    rewrite (bind_ok _ _ _ _ _
               (unshift_run dates (Some (n + j)%nat) els (set_heap h1 st) Hd1)).
    cbn [heap set_heap].
    set (h2 := <[dates := CArr (Some (n + j)%nat :: els)]> h1).
    assert (Hlen : length h2 = length (heap st)).
    { unfold h2, h1. by rewrite !length_insert. }
    assert (Hold : forall l, l <> dates -> l <> (n + j)%nat ->
                             h2 !! l = heap st !! l).
    { intros l H1 H2. unfold h2, h1.
      by rewrite !list_lookup_insert_ne by done. }
    destruct (IH (e - 1) (Some (n + j)%nat :: els) (set_heap h2 (set_heap h1 st)))
      as (h' & Hrun & Hlen' & Hdates' & Hgray & Hframe).
    + lia.
    + cbn [heap set_heap]. rewrite Hold by lia. done.
    + cbn [heap set_heap]. unfold h2.
      apply list_lookup_insert_eq.
      unfold h1. rewrite length_insert. by eapply lookup_lt_Some.
    + done.
    + done.
    + done.
    + intros i Hi. cbn [heap set_heap].
      destruct (Hobjs i ltac:(lia)) as [o' Ho']. exists o'.
      rewrite Hold by lia. done.
    + cbn [heap set_heap] in *.
      replace (Z.of_nat j - 1 + 1 - 1) with (Z.of_nat j - 1) by lia.
      exists h'. split.
      { replace (Z.of_nat j - 1) with (Z.of_nat j - 1) by lia.
        rewrite Hrun. f_equal. f_equal. lia. }
      split; [lia|]. split.
      { rewrite Hdates'. f_equal. rewrite seq_S, fmap_app, <- app_assoc. done. }
      split.
      * intros i Hi. destruct (decide (i = j)) as [->|Hij].
        -- rewrite Hframe by lia. unfold h2, h1.
           rewrite list_lookup_insert_ne by lia.
           rewrite list_lookup_insert_eq by (by eapply lookup_lt_Some).
           by rewrite Ho.
        -- rewrite Hgray by lia. rewrite Hold by lia. done.
      * intros l H1 H2. rewrite Hframe by lia. apply Hold; lia.
Qed.

(** The loop over the dates of the next month, from index [i], with [r] of
    them left: each one is marked and put behind the dates. *)
Lemma fill_tail_run (q dates : loc) (n k : nat) :
  forall (r i : nat) (e : Z) (els : list (option loc)) (st : Store),
    (i + r = k)%nat ->
    heap st !! q = Some (CArr (Some <$> seq n k)) ->
    heap st !! dates = Some (CArr els) ->
    q <> dates ->
    ~ (n <= dates < n + k)%nat ->
    ~ (n <= q < n + k)%nat ->
    (forall j, (i <= j < k)%nat -> is_obj (heap st) (n + j)) ->
    exists h',
      fill_tail r q dates (Z.of_nat i) e st
      = (Ok (e - Z.of_nat r), set_heap h' st) /\
      length h' = length (heap st) /\
      h' !! dates = Some (CArr (els ++ (Some <$> seq (n + i) r))) /\
      (forall j, (i <= j < k)%nat ->
                 h' !! (n + j)%nat = on_obj gray <$> heap st !! (n + j)%nat) /\
      (forall l, l <> dates -> ~ (n + i <= l < n + k)%nat ->
                 h' !! l = heap st !! l).
Proof.
  induction r as [|r IH]; intros i e els st Hir Hq Hdates Hne Hd Hqr Hobjs.
  - exists (heap st). cbn [fill_tail]. unfold comma.
    rewrite (bind_ok _ _ _ _ _ (array_length_run q _ st Hq)).
    assert (Hlt : (Z.of_nat i <? len (Some <$> seq n k)) = false).
    { apply Z.ltb_ge. unfold len. rewrite length_fmap, length_seq. lia. }
    rewrite Hlt. unfold ret. rewrite Z.sub_0_r, app_nil_r.
    split; [by destruct st|].
    split; [done|]. split; [done|]. split; [intros j Hj; lia|done].
  - cbn [fill_tail]. unfold comma.
    rewrite (bind_ok _ _ _ _ _ (array_length_run q _ st Hq)).
    assert (Hlt : (Z.of_nat i <? len (Some <$> seq n k)) = true).
    { apply Z.ltb_lt. unfold len. rewrite length_fmap, length_seq. lia. }
    rewrite Hlt.
    destruct (Hobjs i ltac:(lia)) as [o Ho].
    rewrite (bind_ok _ _ _ _ _
               (element_run q (Z.of_nat i) _ (n + i)%nat st Hq
                  (nth_Z_seq n k i ltac:(lia)))).
    rewrite (bind_ok _ _ _ _ _ (update_obj_run (n + i)%nat gray o st Ho)).
    set (h1 := <[(n + i)%nat := CObj (gray o)]> (heap st)).
    assert (Hd1 : h1 !! dates = Some (CArr els)).
    { unfold h1. rewrite list_lookup_insert_ne by lia. done. }
    rewrite (bind_ok _ _ _ _ _
               (push_run dates (Some (n + i)%nat) els (set_heap h1 st) Hd1)).
    cbn [heap set_heap].
    set (h2 := <[dates := CArr (els ++ [Some (n + i)%nat])]> h1).
    assert (Hlen : length h2 = length (heap st)).
    { unfold h2, h1. by rewrite !length_insert. }
    assert (Hold : forall l, l <> dates -> l <> (n + i)%nat ->
                             h2 !! l = heap st !! l).
    { intros l H1 H2. unfold h2, h1.
      by rewrite !list_lookup_insert_ne by done. }
    destruct (IH (S i) (e - 1) (els ++ [Some (n + i)%nat])
                (set_heap h2 (set_heap h1 st)))
      as (h' & Hrun & Hlen' & Hdates' & Hgray & Hframe).
    + lia.
    + cbn [heap set_heap]. rewrite Hold by lia. done.
    + cbn [heap set_heap]. unfold h2.
      apply list_lookup_insert_eq.
      unfold h1. rewrite length_insert. by eapply lookup_lt_Some.
    + done.
    + done.
    + done.
    + intros j Hj. cbn [heap set_heap].
      destruct (Hobjs j ltac:(lia)) as [o' Ho']. exists o'.
      rewrite Hold by lia. done.
    + cbn [heap set_heap] in *.
      replace (Z.of_nat i + 1) with (Z.of_nat (S i)) by lia.
      exists h'. split.
      { rewrite Hrun. f_equal. f_equal. lia. }
      split; [lia|]. split.
      { rewrite Hdates'. f_equal. rewrite <- app_assoc. f_equal.
        simpl. by rewrite Nat.add_succ_r. }
      split.
      * intros j Hj. destruct (decide (j = i)) as [->|Hij].
        -- rewrite Hframe by lia. unfold h2, h1.
           rewrite list_lookup_insert_ne by lia.
           rewrite list_lookup_insert_eq by (by eapply lookup_lt_Some).
           by rewrite Ho.
        -- rewrite Hgray by lia. rewrite Hold by lia. done.
      * intros l H1 H2. rewrite Hframe by lia. apply Hold; lia.
Qed.

(** The loops that fill the rest of the week with [null]. *)
Lemma fill_start_null_run (dates : loc) :
  forall (c : nat) (e : Z) (els : list (option loc)) (st : Store),
    c = Z.to_nat e ->
    heap st !! dates = Some (CArr els) ->
    exists v h',
      fill_start_null c dates e st = (Ok v, set_heap h' st) /\
      length h' = length (heap st) /\
      h' !! dates = Some (CArr (replicate c None ++ els)) /\
      (forall l, l <> dates -> h' !! l = heap st !! l).
Proof.
  induction c as [|c IH]; intros e els st Hc Hdates.
  - exists e, (heap st). cbn [fill_start_null].
    assert (Hle : (e >? 0) = false) by (rewrite Z.gtb_ltb; apply Z.ltb_ge; lia).
    rewrite Hle. unfold ret. split; [by destruct st|]. done.
  - cbn [fill_start_null].
    assert (Hgt : (e >? 0) = true) by (rewrite Z.gtb_ltb; apply Z.ltb_lt; lia).
    rewrite Hgt.
    rewrite (bind_ok _ _ _ _ _ (unshift_run dates None els st Hdates)).
    set (h1 := <[dates := CArr (None :: els)]> (heap st)).
    destruct (IH (e - 1) (None :: els) (set_heap h1 st))
      as (v & h' & Hrun & Hlen & Hdates' & Hframe).
    + lia.
    + cbn [heap set_heap]. unfold h1. apply list_lookup_insert_eq.
      by eapply lookup_lt_Some.
    + cbn [heap set_heap] in *. exists v, h'.
      split; [exact Hrun|].
      split; [unfold h1 in Hlen; by rewrite length_insert in Hlen|].
      split.
      { rewrite Hdates'. f_equal.
        by rewrite replicate_S_end, <- app_assoc. }
      intros l Hl. rewrite Hframe by done. unfold h1.
      by rewrite list_lookup_insert_ne.
Qed.

Lemma fill_tail_null_run (dates : loc) :
  forall (c : nat) (e : Z) (els : list (option loc)) (st : Store),
    c = Z.to_nat e ->
    heap st !! dates = Some (CArr els) ->
    exists v h',
      fill_tail_null c dates e st = (Ok v, set_heap h' st) /\
      length h' = length (heap st) /\
      h' !! dates = Some (CArr (els ++ replicate c None)) /\
      (forall l, l <> dates -> h' !! l = heap st !! l).
Proof.
  induction c as [|c IH]; intros e els st Hc Hdates.
  - exists e, (heap st). cbn [fill_tail_null].
    assert (Hle : (e >? 0) = false) by (rewrite Z.gtb_ltb; apply Z.ltb_ge; lia).
    rewrite Hle. unfold ret. rewrite app_nil_r.
    split; [by destruct st|]. done.
  - cbn [fill_tail_null].
    assert (Hgt : (e >? 0) = true) by (rewrite Z.gtb_ltb; apply Z.ltb_lt; lia).
    rewrite Hgt.
    rewrite (bind_ok _ _ _ _ _ (push_run dates None els st Hdates)).
    set (h1 := <[dates := CArr (els ++ [None])]> (heap st)).
    destruct (IH (e - 1) (els ++ [None]) (set_heap h1 st))
      as (v & h' & Hrun & Hlen & Hdates' & Hframe).
    + lia.
    + cbn [heap set_heap]. unfold h1. apply list_lookup_insert_eq.
      by eapply lookup_lt_Some.
    + cbn [heap set_heap] in *. exists v, h'.
      split; [exact Hrun|].
      split; [unfold h1 in Hlen; by rewrite length_insert in Hlen|].
      split.
      { rewrite Hdates'. f_equal. by rewrite <- app_assoc. }
      intros l Hl. rewrite Hframe by done. unfold h1.
      by rewrite list_lookup_insert_ne.
Qed.

(** The locations that an array refers to. *)
Definition locs (els : list (option loc)) : list loc := omap id els.

Lemma locs_some (ls : list loc) : locs (Some <$> ls) = ls.
Proof.
  unfold locs. induction ls as [|l ls IH]; [done|].
  simpl. f_equal. exact IH.
Qed.

Lemma locs_none (c : nat) : locs (replicate c None) = [].
Proof. unfold locs. induction c as [|c IH]; [done|]. simpl. exact IH. Qed.

Lemma locs_app (a b : list (option loc)) : locs (a ++ b) = locs a ++ locs b.
Proof. apply omap_app. Qed.

Lemma elem_of_locs (els : list (option loc)) (l : loc) :
  l ∈ locs els <-> Some l ∈ els.
Proof.
  unfold locs. rewrite list_elem_of_omap. split.
  - intros ([x|] & Hx & Hid); simpl in Hid; [|done]. by injection Hid as ->.
  - intros H. by exists (Some l).
Qed.

(** The final [forEach]: each date object of the array is tagged, once. *)
Lemma tag_all_run (datePicked : option DateObj) :
  forall (els : list (option loc)) (st : Store),
    NoDup (locs els) ->
    (forall l, l ∈ locs els -> is_obj (heap st) l) ->
    exists h',
      tag_all datePicked els st = (Ok tt, set_heap h' st) /\
      length h' = length (heap st) /\
      (forall l, l ∈ locs els ->
                 h' !! l = on_obj (tag datePicked) <$> heap st !! l) /\
      (forall l, l ∉ locs els -> h' !! l = heap st !! l).
Proof.
  induction els as [|[l0|] els IH]; intros st Hnd Hobjs.
  - exists (heap st). cbn [tag_all]. unfold ret.
    split; [by destruct st|]. split; [done|].
    split; [|done]. intros l Hl. by apply elem_of_nil in Hl.
  - change (locs (Some l0 :: els)) with (l0 :: locs els) in *.
    apply NoDup_cons in Hnd as [Hl0 Hnd].
    destruct (Hobjs l0 ltac:(left)) as [o Ho].
    cbn [tag_all].
    rewrite (bind_ok _ _ _ _ _ (update_obj_run l0 (tag datePicked) o st Ho)).
    set (h1 := <[l0 := CObj (tag datePicked o)]> (heap st)).
    destruct (IH (set_heap h1 st) Hnd) as (h' & Hrun & Hlen & Htag & Hframe).
    + intros l Hl. cbn [heap set_heap].
      destruct (Hobjs l ltac:(by right)) as [o' Ho']. exists o'.
      unfold h1. rewrite list_lookup_insert_ne; [done|].
      intros ->. done.
    + cbn [heap set_heap] in *. exists h'.
      split; [exact Hrun|].
      split; [unfold h1 in Hlen; by rewrite length_insert in Hlen|].
      split.
      * intros l Hl. apply elem_of_cons in Hl as [->|Hl].
        -- rewrite Hframe by done. unfold h1.
           rewrite list_lookup_insert_eq by (by eapply lookup_lt_Some).
           by rewrite Ho.
        -- rewrite Htag by done. unfold h1.
           rewrite list_lookup_insert_ne; [done|]. intros ->. done.
      * intros l Hl. apply not_elem_of_cons in Hl as [Hne Hl].
        rewrite Hframe by done. unfold h1.
        by rewrite list_lookup_insert_ne.
  - change (locs (None :: els)) with (locs els) in *.
    cbn [tag_all]. by apply IH.
Qed.

(** ** The list that the date picker gets

    [_getLocalDatesToDisplay] described by the list it returns: the dates of
    the month, before them what the loops over the previous month put there,
    behind them the dates of the next month, and every date object tagged. *)

(** An element of an array of the store and the entry it stands for. *)
Definition slot (h : list cell) (e : option loc) (o : option DateObj) : Prop :=
  match e, o with
  | Some l, Some ob => h !! l = Some (CObj ob)
  | None, None => True
  | _, _ => False
  end.

(** The array at [dates] has the elements [els], which stand for the
    entries [L], and no date object is referred to twice. *)
Definition shows (h : list cell) (dates : loc) (els : list (option loc))
    (L : list (option DateObj)) : Prop :=
  h !! dates = Some (CArr els) /\ NoDup (locs els) /\ Forall2 (slot h) els L.

Lemma objects_at_shows (h : list cell) (dates : loc) (els : list (option loc))
    (L : list (option DateObj)) :
  shows h dates els L -> objects_at h dates = Some L.
Proof.
  intros (Hd & _ & Hall). unfold objects_at. rewrite Hd. f_equal. clear Hd.
  induction Hall as [|e o els L He _ IH]; [done|].
  simpl. rewrite IH. f_equal.
  destruct e as [l|], o as [ob|]; simpl in He; try done. by rewrite He.
Qed.

Lemma slot_is_obj (h : list cell) (els : list (option loc))
    (L : list (option DateObj)) (l : loc) :
  Forall2 (slot h) els L -> l ∈ locs els -> is_obj h l.
Proof.
  intros Hall Hl. apply elem_of_locs, list_elem_of_lookup in Hl as [i Hi].
  destruct (Forall2_lookup_l _ _ _ _ _ Hall Hi) as (o & _ & Hs).
  destruct o as [ob|]; simpl in Hs; [|done]. by exists ob.
Qed.

Lemma shows_bound (h : list cell) (dates : loc) (els : list (option loc))
    (L : list (option DateObj)) :
  shows h dates els L ->
  (dates < length h)%nat /\ forall l, l ∈ locs els -> (l < length h)%nat.
Proof.
  intros (Hd & _ & Hall). split; [by eapply lookup_lt_Some|].
  intros l Hl. destruct (slot_is_obj _ _ _ _ Hall Hl) as [o Ho].
  by eapply lookup_lt_Some.
Qed.

Lemma slot_change (f : DateObj -> DateObj) (h h' : list cell)
    (els : list (option loc)) (L : list (option DateObj)) :
  Forall2 (slot h) els L ->
  (forall l, l ∈ locs els -> h' !! l = on_obj f <$> h !! l) ->
  Forall2 (slot h') els (option_map f <$> L).
Proof.
  intros Hall. induction Hall as [|e o els L He _ IH]; intros Hf.
  - constructor.
  - rewrite fmap_cons. constructor.
    + destruct e as [l|], o as [ob|]; simpl in He |- *; try done.
      rewrite Hf by (apply elem_of_locs; left). by rewrite He.
    + apply IH. intros l Hl. apply Hf.
      apply elem_of_locs. right. by apply elem_of_locs.
Qed.

Lemma slot_frame (h h' : list cell) (els : list (option loc))
    (L : list (option DateObj)) :
  Forall2 (slot h) els L ->
  (forall l, l ∈ locs els -> h' !! l = h !! l) ->
  Forall2 (slot h') els L.
Proof.
  intros Hall. induction Hall as [|e o els L He _ IH]; intros Hf.
  - constructor.
  - constructor.
    + destruct e as [l|], o as [ob|]; simpl in He |- *; try done.
      rewrite Hf by (apply elem_of_locs; left). done.
    + apply IH. intros l Hl. apply Hf.
      apply elem_of_locs. right. by apply elem_of_locs.
Qed.

Lemma shows_mono (h h' : list cell) (dates : loc) (els : list (option loc))
    (L : list (option DateObj)) :
  (forall l c, h !! l = Some c -> h' !! l = Some c) ->
  shows h dates els L -> shows h' dates els L.
Proof.
  intros Hm (Hd & Hnd & Hall). split; [auto|]. split; [done|].
  eapply Forall2_impl; [exact Hall|].
  intros [l|] [ob|]; simpl; auto.
Qed.

Lemma slot_none (h : list cell) (c : nat) :
  Forall2 (slot h) (replicate c None) (replicate c None).
Proof. induction c as [|c IH]; simpl; by constructor. Qed.

(** A month as [_getDatesWithCache] returns it: the copies of its [objs]
    from [n] on, and right behind them the array that refers to them. *)
Definition grid (h : list cell) (n : loc) (objs : list DateObj) : Prop :=
  h !! (n + length objs)%nat = Some (CArr (Some <$> seq n (length objs))) /\
  forall i o, objs !! i = Some o -> h !! (n + i)%nat = Some (CObj o).

Lemma slot_grid (f : DateObj -> DateObj) (h : list cell) (n : loc)
    (objs : list DateObj) :
  (forall i o, objs !! i = Some o -> h !! (n + i)%nat = Some (CObj (f o))) ->
  Forall2 (slot h) (Some <$> seq n (length objs)) (Some ∘ f <$> objs).
Proof.
  intros Hobjs. apply Forall2_same_length_lookup.
  split; [by rewrite !length_fmap, length_seq|].
  intros i e o He Ho.
  rewrite list_lookup_fmap in He. rewrite list_lookup_fmap in Ho.
  destruct (seq n (length objs) !! i) as [l|] eqn:Hl; [|done].
  destruct (objs !! i) as [ob|] eqn:Hob; [|done].
  simpl in He, Ho. injection He as <-. injection Ho as <-.
  apply lookup_seq in Hl as [-> _]. simpl. auto.
Qed.

Lemma shows_grid (h : list cell) (n : loc) (objs : list DateObj) :
  grid h n objs ->
  shows h (n + length objs) (Some <$> seq n (length objs)) (Some <$> objs).
Proof.
  intros [Harr Hobjs]. split; [done|].
  split; [rewrite locs_some; apply NoDup_seq|].
  by apply (slot_grid (fun o => o)).
Qed.

Lemma shows_not_dates (h : list cell) (dates : loc) (els : list (option loc))
    (L : list (option DateObj)) (l : loc) :
  shows h dates els L -> l ∈ locs els -> l <> dates.
Proof.
  intros (Hd & _ & Hall) Hl ->.
  destruct (slot_is_obj _ _ _ _ Hall Hl) as [o Ho]. congruence.
Qed.

(** *** The loops, by what the array shows after them *)

Lemma fill_start_shows (dates n : loc) (pobjs : list DateObj) (e : Z)
    (els : list (option loc)) (L : list (option DateObj)) (st : Store) :
  shows (heap st) dates els L ->
  grid (heap st) n pobjs ->
  (dates < n)%nat ->
  (forall l, l ∈ locs els -> (l < n)%nat) ->
  exists h',
    fill_start (length pobjs) (n + length pobjs) dates
      (Z.of_nat (length pobjs) - 1) e st
    = (Ok (e - Z.of_nat (length pobjs)), set_heap h' st) /\
    shows h' dates ((Some <$> seq n (length pobjs)) ++ els)
      ((Some ∘ gray <$> pobjs) ++ L).
Proof.
  intros Hshows [Harr Hobjs] Hdn Hln.
  pose proof Hshows as (Hd & Hnd & Hall).
  destruct (fill_start_run (n + length pobjs) dates n (length pobjs)
              (length pobjs) e els st)
    as (h' & Hrun & Hlen & Hd' & Hgray & Hframe);
    [lia|exact Harr|exact Hd|lia|lia|lia| |].
  { intros i Hi. destruct (lookup_lt_is_Some_2 pobjs i Hi) as [o Ho].
    exists o. auto. }
  exists h'. split; [exact Hrun|]. split; [exact Hd'|]. split.
  - rewrite locs_app, locs_some. apply NoDup_app.
    split; [apply NoDup_seq|]. split; [|done].
    intros l Hl Hl'. apply elem_of_seq in Hl. apply Hln in Hl'. lia.
  - apply Forall2_app.
    + apply slot_grid. intros i o Ho.
      rewrite Hgray by (by eapply lookup_lt_Some).
      by rewrite (Hobjs i o Ho).
    + eapply slot_frame; [exact Hall|]. intros l Hl. apply Hframe.
      * by eapply shows_not_dates.
      * apply Hln in Hl. lia.
Qed.

Lemma fill_tail_shows (dates n : loc) (nobjs : list DateObj) (e : Z)
    (els : list (option loc)) (L : list (option DateObj)) (st : Store) :
  shows (heap st) dates els L ->
  grid (heap st) n nobjs ->
  (dates < n)%nat ->
  (forall l, l ∈ locs els -> (l < n)%nat) ->
  exists h',
    fill_tail (length nobjs) (n + length nobjs) dates 0 e st
    = (Ok (e - Z.of_nat (length nobjs)), set_heap h' st) /\
    shows h' dates (els ++ (Some <$> seq n (length nobjs)))
      (L ++ (Some ∘ gray <$> nobjs)).
Proof.
  intros Hshows [Harr Hobjs] Hdn Hln.
  pose proof Hshows as (Hd & Hnd & Hall).
  destruct (fill_tail_run (n + length nobjs) dates n (length nobjs)
              (length nobjs) 0 e els st)
    as (h' & Hrun & Hlen & Hd' & Hgray & Hframe);
    [lia|exact Harr|exact Hd|lia|lia|lia| |].
  { intros i Hi. destruct (lookup_lt_is_Some_2 nobjs i ltac:(lia)) as [o Ho].
    exists o. auto. }
  rewrite Nat.add_0_r in Hd'.
  exists h'. split; [exact Hrun|]. split; [exact Hd'|]. split.
  - rewrite locs_app, locs_some. apply NoDup_app.
    split; [done|]. split; [|apply NoDup_seq].
    intros l Hl' Hl. apply elem_of_seq in Hl. apply Hln in Hl'. lia.
  - apply Forall2_app.
    + eapply slot_frame; [exact Hall|]. intros l Hl. apply Hframe.
      * by eapply shows_not_dates.
      * apply Hln in Hl. lia.
    + apply slot_grid. intros i o Ho.
      pose proof (lookup_lt_Some _ _ _ Ho).
      rewrite Hgray by lia.
      by rewrite (Hobjs i o Ho).
Qed.

Lemma fill_start_null_shows (dates : loc) (e : Z) (els : list (option loc))
    (L : list (option DateObj)) (st : Store) :
  shows (heap st) dates els L ->
  exists v h',
    fill_start_null (Z.to_nat e) dates e st = (Ok v, set_heap h' st) /\
    shows h' dates (replicate (Z.to_nat e) None ++ els)
      (replicate (Z.to_nat e) None ++ L).
Proof.
  intros Hshows. pose proof Hshows as (Hd & Hnd & Hall).
  destruct (fill_start_null_run dates (Z.to_nat e) e els st eq_refl Hd)
    as (v & h' & Hrun & Hlen & Hd' & Hframe).
  exists v, h'. split; [exact Hrun|]. split; [exact Hd'|]. split.
  - by rewrite locs_app, locs_none.
  - apply Forall2_app; [apply slot_none|].
    eapply slot_frame; [exact Hall|]. intros l Hl. apply Hframe.
    by eapply shows_not_dates.
Qed.

Lemma fill_tail_null_shows (dates : loc) (e : Z) (els : list (option loc))
    (L : list (option DateObj)) (st : Store) :
  shows (heap st) dates els L ->
  exists v h',
    fill_tail_null (Z.to_nat e) dates e st = (Ok v, set_heap h' st) /\
    shows h' dates (els ++ replicate (Z.to_nat e) None)
      (L ++ replicate (Z.to_nat e) None).
Proof.
  intros Hshows. pose proof Hshows as (Hd & Hnd & Hall).
  destruct (fill_tail_null_run dates (Z.to_nat e) e els st eq_refl Hd)
    as (v & h' & Hrun & Hlen & Hd' & Hframe).
  exists v, h'. split; [exact Hrun|]. split; [exact Hd'|]. split.
  - by rewrite locs_app, locs_none, app_nil_r.
  - apply Forall2_app; [|apply slot_none].
    eapply slot_frame; [exact Hall|]. intros l Hl. apply Hframe.
    by eapply shows_not_dates.
Qed.

Lemma tag_all_shows (datePicked : option DateObj) (dates : loc)
    (els : list (option loc)) (L : list (option DateObj)) (st : Store) :
  shows (heap st) dates els L ->
  exists h',
    tag_all datePicked els st = (Ok tt, set_heap h' st) /\
    shows h' dates els (option_map (tag datePicked) <$> L).
Proof.
  intros Hshows. pose proof Hshows as (Hd & Hnd & Hall).
  destruct (tag_all_run datePicked els st Hnd)
    as (h' & Hrun & Hlen & Htag & Hframe).
  { intros l Hl. by eapply slot_is_obj. }
  exists h'. split; [exact Hrun|]. split.
  - rewrite Hframe; [done|]. intros Hl.
    by eapply shows_not_dates.
  - split; [done|]. by eapply slot_change.
Qed.

(** *** Where [_getDatesWithCache] puts its result *)

Lemma copy_objs_layout (els : list (option loc)) :
  forall (st : Store) (copies : list (option loc)) (st' : Store),
    copy_objs els st = (Ok copies, st') ->
    exists os,
      copies = Some <$> seq (length (heap st)) (length os) /\
      st' = set_heap (heap st ++ (CObj <$> os)) st.
Proof.
  induction els as [|[l|] els IH]; intros st copies st' Hrun.
  - injection Hrun as <- <-. exists []. simpl.
    by rewrite app_nil_r, set_heap_same.
  - cbn [copy_objs] in Hrun. unfold bind at 1, read_obj in Hrun.
    destruct (heap st !! l) as [[o|?]|]; try discriminate.
    unfold bind at 1, alloc in Hrun. unfold bind at 1 in Hrun.
    destruct (copy_objs els _) as [[rest| |] st1] eqn:Hrest; try discriminate.
    injection Hrun as <- <-.
    apply IH in Hrest as (os & -> & ->). exists (o :: os). simpl.
    rewrite length_app. simpl.
    replace (length (heap st) + 1)%nat with (S (length (heap st))) by lia.
    by rewrite <- app_assoc.
  - discriminate.
Qed.

Lemma copy_dates_layout (r0 : ref) (st : Store) (r : ref) (st' : Store) :
  copy_dates r0 st = (Ok r, st') ->
  match r with
  | RArr a =>
      exists os, a = (length (heap st) + length os)%nat /\ st' = with_copy st os
  | _ => st' = st
  end.
Proof.
  destruct r0 as [| |a0]; simpl; intros Hrun.
  - by injection Hrun as <- <-.
  - by injection Hrun as <- <-.
  - unfold bind at 1, read_arr in Hrun.
    destruct (heap st !! a0) as [[?|els]|]; try discriminate.
    unfold bind at 1 in Hrun.
    destruct (copy_objs els st) as [[copies| |] st1] eqn:Hcopies;
      try discriminate.
    apply copy_objs_layout in Hcopies as (os & -> & ->).
    injection Hrun as <- <-. exists os. simpl.
    rewrite length_app, length_fmap. split; [done|].
    unfold with_copy, set_heap. simpl. by rewrite <- app_assoc.
Qed.

(** *** The list in terms of the calendar *)

(** The dates of a neighbouring month, when the picker has room for them:
    [wanted] says whether it has, [t] is the month. No dates when the
    calendar answers [null] or [undefined]. *)
Definition neighbour_dates (calendar : Calendar) (wanted : bool)
    (t : res YearMonth) : res (option (list DateObj)) :=
  if wanted then
    match t with
    | Ok ym =>
        Ok match getDates calendar (ym_year ym) (ym_month ym) with
           | DatesArray l => Some l
           | _ => None
           end
    | Throw e => Throw e
    | Stuck => Stuck
    end
  else Ok None.

(** What comes before the dates of the month, for [firstDayIdx] days of the
    week before its first date: every date of the previous month, marked,
    and [null] for the days that are left. *)
Definition shown_before (firstDayIdx : Z) (prevDates : option (list DateObj))
    : list (option DateObj) :=
  match prevDates with
  | Some prev =>
      replicate (Z.to_nat (firstDayIdx - len prev)) None
      ++ (Some ∘ gray <$> prev)
  | None => replicate (Z.to_nat firstDayIdx) None
  end.

(** What comes behind them, for [room] places left. *)
Definition shown_after (room : Z) (nextDates : option (list DateObj))
    : list (option DateObj) :=
  match nextDates with
  | Some next =>
      (Some ∘ gray <$> next) ++ replicate (Z.to_nat (room - len next)) None
  | None => replicate (Z.to_nat room) None
  end.

(** The place of the first date of the month in the week: the index of its
    day among the days of the calendar, -1 when the day is not one of them
    or the calendar has no day, and a TypeError when the calendar has days
    but the month has no first date. *)
Definition first_day_index (days : list Entry) (dates : list DateObj)
    : res Z :=
  match days, dates with
  | [], _ => Ok (-1)
  | _ :: _, first :: _ => Ok (findIndex (fun d => value d =? day first) days)
  | _ :: _, [] => Throw TypeError
  end.

(** The entries of the date picker for a month, from what the calendar
    answers. *)
Definition displayed_dates (calendar : Calendar)
    (MAX_COUNT_DATES_IN_DATE_PICKER year month : Z)
    (datePicked : option DateObj) : res (list (option DateObj)) :=
  match getDates calendar year month with
  | DatesArray dates =>
      let months := getMonths calendar year in
      match first_day_index (getDays calendar) dates with
      | Ok firstDayIdx =>
          match neighbour_dates calendar (firstDayIdx >? 0)
                  (_calcPrevLocalMonth year month months) with
          | Ok prevDates =>
              let before := shown_before firstDayIdx prevDates in
              let room :=
                MAX_COUNT_DATES_IN_DATE_PICKER
                - len (before ++ (Some <$> dates)) in
              match neighbour_dates calendar (room >? 0)
                      (_calcNextLocalMonth year month months) with
              | Ok nextDates =>
                  Ok (option_map (tag datePicked)
                        <$> (before ++ (Some <$> dates))
                            ++ shown_after room nextDates)
              | Throw e => Throw e
              | Stuck => Stuck
              end
          | Throw e => Throw e
          | Stuck => Stuck
          end
      | Throw e => Throw e
      | Stuck => Stuck
      end
  | _ => Throw TypeError
  end.

Section DisplayedDates.
Variable calendar : Calendar.

Let Inv := StoreInv calendar.

#[local] Arguments copy_dates : simpl never.

Lemma getDatesWithCache_layout (y m : Z) (st : Store) (r : ref) (st' : Store) :
  _getDatesWithCache calendar y m st = (Ok r, st') ->
  exists stm,
    (forall l c, heap st !! l = Some c -> heap stm !! l = Some c) /\
    match r with
    | RArr a =>
        exists os,
          a = (length (heap stm) + length os)%nat /\ st' = with_copy stm os
    | _ => st' = stm
    end.
Proof.
  unfold _getDatesWithCache, bind, get, modify. simpl.
  set (c := match default ∅ (_datesCache st) !! y with
            | Some _ => default ∅ (_datesCache st)
            | None => <[y := ∅]> (default ∅ (_datesCache st))
            end).
  destruct (cache_lookup c y m) as [| |a].
  - unfold calendar_getDates, bind, emitS, modify. simpl.
    destruct (getDates calendar y m) as [| |objs]; simpl.
    + intros Hrun. injection Hrun as <- <-.
      eexists. split; [|reflexivity]. done.
    + intros Hrun. injection Hrun as <- <-.
      eexists. split; [|reflexivity]. done.
    + rewrite alloc_objs_run. unfold alloc, ret. simpl.
      intros Hrun. apply copy_dates_layout in Hrun.
      eexists. split; [|exact Hrun].
      intros l c' Hl. simpl. rewrite <- app_assoc.
      by apply lookup_app_l_Some.
  - simpl. intros Hrun. injection Hrun as <- <-.
      eexists. split; [|reflexivity]. done.
  - intros Hrun. apply copy_dates_layout in Hrun.
    eexists. split; [|exact Hrun]. done.
Qed.

(** [_getDatesWithCache] for a month of which the calendar has dates: the
    dates are copied to the end of the store, which is otherwise as it
    was. *)
Lemma getDatesWithCache_grid (y m : Z) (st : Store) :
  Inv st ->
  exists r st',
    _getDatesWithCache calendar y m st = (Ok r, st') /\
    Inv st' /\ ext st st' /\
    (forall l c, heap st !! l = Some c -> heap st' !! l = Some c) /\
    match getDates calendar y m with
    | DatesArray objs =>
        exists n,
          r = RArr (n + length objs)%nat /\
          working_arr st' (n + length objs)%nat /\
          (length (heap st) <= n)%nat /\
          grid (heap st') n objs
    | _ => forall a, r <> RArr a
    end.
Proof.
  intros Hinv.
  destruct (getDatesWithCache_run calendar y m st Hinv)
    as (r & st' & Hrun & Hinv' & Hext & Hf & _).
  exists r, st'. split; [exact Hrun|]. split; [exact Hinv'|].
  split; [exact Hext|].
  apply getDatesWithCache_layout in Hrun as (stm & Hmono & Hlay).
  destruct r as [| |a]; simpl in Hf.
  - subst st'. split; [done|]. by rewrite Hf.
  - subst st'. split; [done|]. by rewrite Hf.
  - destruct Hlay as (os & -> & ->).
    destruct Hf as (Hwork & objs & Hget & ls & Harr & Hall).
    rewrite with_copy_lookup_arr in Harr.
    injection Harr as Hls. apply (inj (fmap Some)) in Hls. subst ls.
    pose proof (Forall2_length _ _ _ Hall) as Hlen.
    rewrite length_seq in Hlen.
    split.
    { intros l c Hl. apply Hmono in Hl.
      rewrite with_copy_lookup_old by (by eapply lookup_lt_Some). done. }
    rewrite Hget. exists (length (heap stm)).
    unfold grid. rewrite <- Hlen.
    split; [done|]. split; [done|]. split.
    { destruct (decide (length (heap st) <= length (heap stm))%nat) as [|Hn];
        [done|].
      destruct (lookup_lt_is_Some_2 (heap st) (length (heap stm)) ltac:(lia))
        as [c Hc].
      apply Hmono, lookup_lt_Some in Hc. lia. }
    split; [apply with_copy_lookup_arr|].
    intros i o Ho.
    destruct (Forall2_lookup_r _ _ _ _ _ Hall Ho) as (l & Hl & Hcell).
    apply lookup_seq in Hl as [-> _]. exact Hcell.
Qed.

Lemma run_inv {A} (Pre : Store -> Prop) (m : M Store A)
    (Post : A -> Store -> Prop) (st : Store) (r : res A) (st' : Store) :
  spec calendar Pre m Post -> Inv st -> Pre st -> m st = (r, st') ->
  Inv st' /\ ext st st'.
Proof.
  intros Hspec Hinv Hpre Hrun.
  destruct (Hspec st Hinv Hpre) as (H1 & H2 & _).
  rewrite Hrun in H1, H2. done.
Qed.

(** The dates of a neighbouring month are fetched when they are wanted. *)
Lemma neighbour_run (wanted : bool) (t : res YearMonth) (st : Store) :
  Inv st ->
  let fetch : M Store ref :=
    if wanted then
      let* ym := lift t in
      _getDatesWithCache calendar (ym_year ym) (ym_month ym)
    else ret RNull in
  match neighbour_dates calendar wanted t with
  | Ok nd =>
      exists r st',
        fetch st = (Ok r, st') /\
        Inv st' /\ ext st st' /\
        (forall l c, heap st !! l = Some c -> heap st' !! l = Some c) /\
        match nd with
        | Some objs =>
            exists n,
              r = RArr (n + length objs)%nat /\
              working_arr st' (n + length objs)%nat /\
              (length (heap st) <= n)%nat /\
              grid (heap st') n objs
        | None => forall a, r <> RArr a
        end
  | Throw e => fetch st = (Throw e, st)
  | Stuck => fetch st = (Stuck, st)
  end.
Proof.
  intros Hinv fetch. unfold neighbour_dates, fetch.
  destruct wanted.
  - destruct t as [ym|e|]; [|done..].
    destruct (getDatesWithCache_grid (ym_year ym) (ym_month ym) st Hinv)
      as (r & st' & Hrun & Hinv' & Hext & Hmono & Hgrid).
    exists r, st'. unfold bind, lift. rewrite Hrun.
    split; [done|]. split; [done|]. split; [done|]. split; [done|].
    by destruct (getDates calendar (ym_year ym) (ym_month ym)).
  - exists RNull, st. split; [done|]. split; [done|].
    split; [apply ext_refl|]. split; [done|]. done.
Qed.

Lemma ext_working_arr (st st' : Store) (a : loc) :
  ext st st' -> working_arr st a -> working_arr st' a.
Proof. intros (_ & Ha & _). apply Ha. Qed.

Lemma len_seq_some (n k : nat) : len (Some <$> seq n k) = Z.of_nat k.
Proof. unfold len. by rewrite length_fmap, length_seq. Qed.

(** [findIndex] over the days, on the array of a month. *)
Lemma findIndex_day_run (days : list Entry) (n : loc) (objs : list DateObj)
    (st : Store) :
  grid (heap st) n objs ->
  findIndex_day days (n + length objs) st
  = (first_day_index days objs, st).
Proof.
  intros [Harr Hobjs]. destruct days as [|d0 r0]; [done|].
  destruct objs as [|first rest].
  - cbn [findIndex_day first_day_index]. unfold bind at 1, element, bind.
    by rewrite (read_arr_run _ _ _ Harr).
  - pose proof (element_run _ 0 _ _ st Harr
                  (nth_Z_seq n (length (first :: rest)) 0
                     ltac:(simpl; lia))) as Helement.
    pose proof (read_obj_run _ _ st (Hobjs 0%nat first eq_refl)) as Hfirst.
    unfold first_day_index. generalize (d0 :: r0). clear d0 r0.
    intros days. induction days as [|d r IH]; [done|].
    cbn [findIndex_day findIndex].
    rewrite (bind_ok _ _ _ _ _ Helement), (bind_ok _ _ _ _ _ Hfirst).
    destruct (value d =? day first); [done|].
    by rewrite (bind_ok _ _ _ _ _ IH).
Qed.

(** The part of [_getLocalDatesToDisplay] that works on the start of the
    array, followed by [k]. *)
Lemma start_phase_run (t : res YearMonth) (dates : loc) (fd : Z)
    (els : list (option loc)) (L : list (option DateObj)) (st : Store) :
  Inv st -> working_arr st dates -> shows (heap st) dates els L ->
  match neighbour_dates calendar (fd >? 0) t with
  | Ok pd =>
      exists v st' els',
        Inv st' /\ working_arr st' dates /\
        shows (heap st') dates els' (shown_before fd pd ++ L) /\
        forall B (k : Z -> M Store B),
          (let* prevDates :=
             if fd >? 0 then
               let* prev := lift t in
               _getDatesWithCache calendar (ym_year prev) (ym_month prev)
             else ret RNull in
           let* e :=
             match prevDates with
             | RArr prevDates =>
                 let* n := array_length prevDates in
                 fill_start (Z.to_nat n) prevDates dates (n - 1) fd
             | _ => ret fd
             end in
           bind (fill_start_null (Z.to_nat e) dates e) k) st
          = k v st'
  | Throw e =>
      forall B (k : ref -> M Store B),
        fst (bind (if fd >? 0 then
                     let* prev := lift t in
                     _getDatesWithCache calendar (ym_year prev) (ym_month prev)
                   else ret RNull) k st) = Throw e
  | Stuck =>
      forall B (k : ref -> M Store B),
        fst (bind (if fd >? 0 then
                     let* prev := lift t in
                     _getDatesWithCache calendar (ym_year prev) (ym_month prev)
                   else ret RNull) k st) = Stuck
  end.
Proof.
  intros Hinv Hw Hshows.
  pose proof (neighbour_run (fd >? 0) t st Hinv) as Hn. cbv zeta in Hn.
  destruct (neighbour_dates calendar (fd >? 0) t) as [pd|e|].
  - destruct Hn as (r & st1 & Hrun & Hinv1 & Hext1 & Hmono & Hcase).
    pose proof (ext_working_arr _ _ _ Hext1 Hw) as Hw1.
    pose proof (shows_mono _ _ _ _ _ Hmono Hshows) as Hs1.
    destruct pd as [pobjs|].
    + destruct Hcase as (n & -> & Hwp & Hn & Hgrid).
      destruct (shows_bound _ _ _ _ Hshows) as [Hdb Hlb].
      pose proof Hgrid as [Harr _].
      destruct (fill_start_shows dates n pobjs fd els L st1 Hs1 Hgrid)
        as (h2 & Hrun2 & Hs2); [lia|intros l Hl; apply Hlb in Hl; lia|].
      destruct (run_inv _ _ _ _ _ _
                  (spec_fill_start calendar _ _ _ _ _) Hinv1 (conj Hwp Hw1)
                  Hrun2) as [Hinv2 Hext2].
      pose proof (ext_working_arr _ _ _ Hext2 Hw1) as Hw2.
      destruct (fill_start_null_shows dates (fd - Z.of_nat (length pobjs))
                  _ _ (set_heap h2 st1) Hs2)
        as (v & h3 & Hrun3 & Hs3).
      destruct (run_inv _ _ _ _ _ _
                  (spec_fill_start_null calendar _ _ _) Hinv2 Hw2 Hrun3)
        as [Hinv3 Hext3].
      pose proof (ext_working_arr _ _ _ Hext3 Hw2) as Hw3.
      exists v, (set_heap h3 (set_heap h2 st1)). eexists.
      split; [exact Hinv3|]. split; [exact Hw3|]. split.
      { unfold shown_before. rewrite <- app_assoc. exact Hs3. }
      intros B k. rewrite (bind_ok _ _ _ _ _ Hrun).
      assert (Hinner :
                (let* n0 := array_length (n + length pobjs)%nat in
                 fill_start (Z.to_nat n0) (n + length pobjs)%nat dates
                   (n0 - 1) fd) st1
                = (Ok (fd - Z.of_nat (length pobjs)), set_heap h2 st1)).
      { rewrite (bind_ok _ _ _ _ _ (array_length_run _ _ st1 Harr)).
        rewrite len_seq_some, Nat2Z.id. exact Hrun2. }
      rewrite (bind_ok _ _ _ _ _ Hinner).
      by rewrite (bind_ok _ _ _ _ _ Hrun3).
    + destruct (fill_start_null_shows dates fd _ _ st1 Hs1)
        as (v & h3 & Hrun3 & Hs3).
      destruct (run_inv _ _ _ _ _ _
                  (spec_fill_start_null calendar _ _ _) Hinv1 Hw1 Hrun3)
        as [Hinv3 Hext3].
      pose proof (ext_working_arr _ _ _ Hext3 Hw1) as Hw3.
      exists v, (set_heap h3 st1). eexists.
      split; [exact Hinv3|]. split; [exact Hw3|]. split; [exact Hs3|].
      intros B k. rewrite (bind_ok _ _ _ _ _ Hrun).
      assert (Hinner :
                match r with
                | RArr prevDates =>
                    let* n := array_length prevDates in
                    fill_start (Z.to_nat n) prevDates dates (n - 1) fd
                | _ => ret fd
                end st1 = (Ok fd, st1)).
      { destruct r as [| |a]; [done|done|by destruct (Hcase a)]. }
      rewrite (bind_ok _ _ _ _ _ Hinner).
      by rewrite (bind_ok _ _ _ _ _ Hrun3).
  - intros B k. unfold bind at 1. by rewrite Hn.
  - intros B k. unfold bind at 1. by rewrite Hn.
Qed.

(** The part that works on the end of the array. *)
Lemma tail_phase_run (t : res YearMonth) (dates : loc) (COUNT : Z)
    (els : list (option loc)) (L : list (option DateObj)) (st : Store) :
  Inv st -> working_arr st dates -> shows (heap st) dates els L ->
  match neighbour_dates calendar (COUNT - len L >? 0) t with
  | Ok nd =>
      exists v st' els',
        Inv st' /\
        shows (heap st') dates els' (L ++ shown_after (COUNT - len L) nd) /\
        forall B (k : Z -> M Store B),
          (let* n := array_length dates in
           let* nextDates :=
             if COUNT - n >? 0 then
               let* next := lift t in
               _getDatesWithCache calendar (ym_year next) (ym_month next)
             else ret RNull in
           let* e :=
             match nextDates with
             | RArr nextDates =>
                 let* n0 := array_length nextDates in
                 fill_tail (Z.to_nat n0) nextDates dates 0 (COUNT - n)
             | _ => ret (COUNT - n)
             end in
           bind (fill_tail_null (Z.to_nat e) dates e) k) st
          = k v st'
  | Throw e =>
      forall B (k : Z -> ref -> M Store B),
        fst ((let* n := array_length dates in
              bind (if COUNT - n >? 0 then
                      let* next := lift t in
                      _getDatesWithCache calendar (ym_year next) (ym_month next)
                    else ret RNull) (k n)) st) = Throw e
  | Stuck =>
      forall B (k : Z -> ref -> M Store B),
        fst ((let* n := array_length dates in
              bind (if COUNT - n >? 0 then
                      let* next := lift t in
                      _getDatesWithCache calendar (ym_year next) (ym_month next)
                    else ret RNull) (k n)) st) = Stuck
  end.
Proof.
  intros Hinv Hw Hshows.
  pose proof Hshows as (Hd & _ & Hall).
  assert (Hlen : len els = len L).
  { unfold len. by rewrite (Forall2_length _ _ _ Hall). }
  pose proof (neighbour_run (COUNT - len L >? 0) t st Hinv) as Hn.
  cbv zeta in Hn.
  destruct (neighbour_dates calendar (COUNT - len L >? 0) t) as [nd|e|].
  - destruct Hn as (r & st1 & Hrun & Hinv1 & Hext1 & Hmono & Hcase).
    pose proof (ext_working_arr _ _ _ Hext1 Hw) as Hw1.
    pose proof (shows_mono _ _ _ _ _ Hmono Hshows) as Hs1.
    destruct nd as [nobjs|].
    + destruct Hcase as (n & -> & Hwq & Hn & Hgrid).
      destruct (shows_bound _ _ _ _ Hshows) as [Hdb Hlb].
      pose proof Hgrid as [Harr _].
      destruct (fill_tail_shows dates n nobjs (COUNT - len L) els L st1
                  Hs1 Hgrid)
        as (h2 & Hrun2 & Hs2); [lia|intros l Hl; apply Hlb in Hl; lia|].
      destruct (run_inv _ _ _ _ _ _
                  (spec_fill_tail calendar _ _ _ _ _) Hinv1 (conj Hwq Hw1)
                  Hrun2) as [Hinv2 Hext2].
      pose proof (ext_working_arr _ _ _ Hext2 Hw1) as Hw2.
      destruct (fill_tail_null_shows dates
                  (COUNT - len L - Z.of_nat (length nobjs))
                  _ _ (set_heap h2 st1) Hs2)
        as (v & h3 & Hrun3 & Hs3).
      destruct (run_inv _ _ _ _ _ _
                  (spec_fill_tail_null calendar _ _ _) Hinv2 Hw2 Hrun3)
        as [Hinv3 Hext3].
      exists v, (set_heap h3 (set_heap h2 st1)). eexists.
      split; [exact Hinv3|]. split.
      { unfold shown_after. rewrite app_assoc. exact Hs3. }
      intros B k.
      rewrite (bind_ok _ _ _ _ _ (array_length_run _ _ st Hd)).
      rewrite Hlen, (bind_ok _ _ _ _ _ Hrun).
      assert (Hinner :
                (let* n0 := array_length (n + length nobjs)%nat in
                 fill_tail (Z.to_nat n0) (n + length nobjs)%nat dates 0
                   (COUNT - len L)) st1
                = (Ok (COUNT - len L - Z.of_nat (length nobjs)),
                   set_heap h2 st1)).
      { rewrite (bind_ok _ _ _ _ _ (array_length_run _ _ st1 Harr)).
        rewrite len_seq_some, Nat2Z.id. exact Hrun2. }
      rewrite (bind_ok _ _ _ _ _ Hinner).
      by rewrite (bind_ok _ _ _ _ _ Hrun3).
    + destruct (fill_tail_null_shows dates (COUNT - len L) _ _ st1 Hs1)
        as (v & h3 & Hrun3 & Hs3).
      destruct (run_inv _ _ _ _ _ _
                  (spec_fill_tail_null calendar _ _ _) Hinv1 Hw1 Hrun3)
        as [Hinv3 Hext3].
      exists v, (set_heap h3 st1). eexists.
      split; [exact Hinv3|]. split; [exact Hs3|].
      intros B k.
      rewrite (bind_ok _ _ _ _ _ (array_length_run _ _ st Hd)).
      rewrite Hlen, (bind_ok _ _ _ _ _ Hrun).
      assert (Hinner :
                match r with
                | RArr nextDates =>
                    let* n0 := array_length nextDates in
                    fill_tail (Z.to_nat n0) nextDates dates 0 (COUNT - len L)
                | _ => ret (COUNT - len L)
                end st1 = (Ok (COUNT - len L), st1)).
      { destruct r as [| |a]; [done|done|by destruct (Hcase a)]. }
      rewrite (bind_ok _ _ _ _ _ Hinner).
      by rewrite (bind_ok _ _ _ _ _ Hrun3).
  - intros B k.
    rewrite (bind_ok _ _ _ _ _ (array_length_run _ _ st Hd)).
    rewrite Hlen. unfold bind at 1. by rewrite Hn.
  - intros B k.
    rewrite (bind_ok _ _ _ _ _ (array_length_run _ _ st Hd)).
    rewrite Hlen. unfold bind at 1. by rewrite Hn.
Qed.

End DisplayedDates.

(** [_getLocalDatesToDisplay] against [displayed_dates]: the array that it
    returns stands for that list, each date object behind one element. *)
Lemma getLocalDatesToDisplay_run (calendar : Calendar)
    (COUNT y m : Z) (datePicked : option DateObj) (st : Store) :
  StoreInv calendar st ->
  match displayed_dates calendar COUNT y m datePicked with
  | Ok L =>
      exists a st' els,
        _getLocalDatesToDisplay calendar COUNT y m datePicked st = (Ok a, st') /\
        shows (heap st') a els L
  | Throw e =>
      fst (_getLocalDatesToDisplay calendar COUNT y m datePicked st) = Throw e
  | Stuck =>
      fst (_getLocalDatesToDisplay calendar COUNT y m datePicked st) = Stuck
  end.
Proof.
  intros Hinv. unfold displayed_dates, _getLocalDatesToDisplay. cbv zeta.
  destruct (getDatesWithCache_grid calendar y m st Hinv)
    as (r & st1 & Hrun1 & Hinv1 & Hext1 & Hmono1 & Hcase).
  rewrite (bind_ok _ _ _ _ _ Hrun1).
  destruct (getDates calendar y m) as [| |objs].
  - destruct r as [| |a]; [done|done|by destruct (Hcase a)].
  - destruct r as [| |a]; [done|done|by destruct (Hcase a)].
  - destruct Hcase as (n & -> & Hw1 & Hn & Hgrid).
    pose proof (findIndex_day_run (getDays calendar) n objs st1 Hgrid)
      as Hfirst.
    destruct (first_day_index (getDays calendar) objs) as [fd|e|].
    2: { unfold bind at 1. by rewrite Hfirst. }
    2: { unfold bind at 1. by rewrite Hfirst. }
    + rewrite (bind_ok _ _ _ _ _ Hfirst).
      pose proof (start_phase_run calendar
                    (_calcPrevLocalMonth y m (getMonths calendar y))
                    _ fd _ _ st1 Hinv1 Hw1 (shows_grid _ _ _ Hgrid)) as Hstart.
      destruct (neighbour_dates calendar (fd >? 0)
                  (_calcPrevLocalMonth y m (getMonths calendar y)))
        as [pd|e|]; [|apply Hstart..].
      destruct Hstart as (v2 & st2 & els2 & Hinv2 & Hw2 & Hs2 & Hrun2).
      rewrite Hrun2.
      pose proof (tail_phase_run calendar
                    (_calcNextLocalMonth y m (getMonths calendar y))
                    _ COUNT _ _ st2 Hinv2 Hw2 Hs2) as Htail.
      destruct (neighbour_dates calendar _
                  (_calcNextLocalMonth y m (getMonths calendar y)))
        as [nd|e|]; [|apply Htail..].
      destruct Htail as (v3 & st3 & els3 & Hinv3 & Hs3 & Hrun3).
      rewrite Hrun3.
      pose proof Hs3 as (Hd3 & _).
      rewrite (bind_ok _ _ _ _ _ (read_arr_run _ _ st3 Hd3)).
      destruct (tag_all_shows datePicked _ _ _ st3 Hs3) as (h4 & Hrun4 & Hs4).
      rewrite (bind_ok _ _ _ _ _ Hrun4).
      do 3 eexists. split; [reflexivity|]. exact Hs4.
Qed.

(** X15. From a store whose cache is faithful to the calendar,
    [_getLocalDatesToDisplay] returns an array that stands for the list
    [displayed_dates]: [null] for the days of the week that are left before
    the previous month, every date of the previous month marked [grayOut]
    (when the first date of the month is not on the first day of the week),
    the dates of the month, then, while the picker has room, every date of
    the next month marked [grayOut] and [null] for the places left; each
    date object tagged with [special], [picked], [text] and [value]. It
    throws a TypeError when the calendar answers [null] or [undefined] for
    the month, or an empty array while it has days of the week, and what
    [_calcPrevLocalMonth] or [_calcNextLocalMonth] throws when a
    neighbouring month is wanted. For a calendar without days of the week
    nothing comes before the dates of the month, also when it has none. *)
Theorem getLocalDatesToDisplay_displayed (calendar : Calendar)
    (COUNT y m : Z) (datePicked : option DateObj) (st : Store) :
  StoreInv calendar st ->
  match displayed_dates calendar COUNT y m datePicked with
  | Ok L =>
      exists a st',
        _getLocalDatesToDisplay calendar COUNT y m datePicked st = (Ok a, st') /\
        objects_at (heap st') a = Some L
  | Throw e =>
      fst (_getLocalDatesToDisplay calendar COUNT y m datePicked st) = Throw e
  | Stuck =>
      fst (_getLocalDatesToDisplay calendar COUNT y m datePicked st) = Stuck
  end.
Proof.
  intros Hinv.
  pose proof (getLocalDatesToDisplay_run calendar COUNT y m datePicked st Hinv)
    as H.
  destruct (displayed_dates calendar COUNT y m datePicked) as [L|e|];
    [|exact H..].
  destruct H as (a & st' & els & Hrun & Hshows).
  exists a, st'. split; [exact Hrun|].
  by eapply objects_at_shows.
Qed.

Lemma getLocalDatesToDisplay_displayed_witness :
  StoreInv (Gregorian.calendar 0 1900 2100) (mkStore None [] []) /\
  match displayed_dates (Gregorian.calendar 0 1900 2100) 42 2018 2 None with
  | Ok L =>
      exists a st',
        _getLocalDatesToDisplay (Gregorian.calendar 0 1900 2100) 42 2018 2 None
          (mkStore None [] [])
        = (Ok a, st') /\
        objects_at (heap st') a = Some L
  | Throw e =>
      fst (_getLocalDatesToDisplay (Gregorian.calendar 0 1900 2100) 42 2018 2
             None (mkStore None [] []))
      = Throw e
  | Stuck =>
      fst (_getLocalDatesToDisplay (Gregorian.calendar 0 1900 2100) 42 2018 2
             None (mkStore None [] []))
      = Stuck
  end.
Proof.
  split; [apply StoreInv_empty|].
  apply (getLocalDatesToDisplay_displayed (Gregorian.calendar 0 1900 2100)
           42 2018 2 None).
  apply StoreInv_empty.
Defined.

Lemma len_app {A} (a b : list A) : len (a ++ b) = len a + len b.
Proof. unfold len. rewrite length_app. lia. Qed.

Lemma len_replicate {A} (e : Z) (x : A) :
  len (replicate (Z.to_nat e) x) = Z.max 0 e.
Proof. unfold len. rewrite length_replicate. lia. Qed.

Lemma len_fmap {A B} (f : A -> B) (l : list A) : len (f <$> l) = len l.
Proof. unfold len. by rewrite length_fmap. Qed.

Lemma displayed_dates_count (calendar : Calendar) (COUNT y m : Z)
    (datePicked : option DateObj) (L : list (option DateObj)) :
  displayed_dates calendar COUNT y m datePicked = Ok L -> COUNT <= len L.
Proof.
  unfold displayed_dates.
  destruct (getDates calendar y m) as [| |objs]; try discriminate.
  cbv zeta.
  destruct (first_day_index _ _) as [fd| |]; try discriminate.
  destruct (neighbour_dates _ _ (_calcPrevLocalMonth _ _ _)) as [pd| |];
    try discriminate.
  set (shown := shown_before _ pd ++ _).
  unfold neighbour_dates.
  destruct (COUNT - len shown >? 0) eqn:Hroom.
  - destruct (_calcNextLocalMonth _ _ _) as [next| |]; try discriminate.
    intros [= <-]. rewrite len_fmap, len_app.
    apply Z.gtb_lt in Hroom.
    destruct (getDates calendar (ym_year next) (ym_month next)) as [| |nobjs];
      unfold shown_after; rewrite ?len_app, ?len_fmap, len_replicate; lia.
  - intros [= <-]. rewrite len_fmap, len_app.
    unfold shown_after. rewrite len_replicate.
    rewrite Z.gtb_ltb in Hroom. apply Z.ltb_ge in Hroom. lia.
Qed.

(** X16. The array that [_getLocalDatesToDisplay] returns never has fewer
    than [MAX_COUNT_DATES_IN_DATE_PICKER] elements: the picker gets an
    entry for every one of its cells, whatever the calendar answers for the
    neighbouring months. *)
Theorem getLocalDatesToDisplay_fills_picker (calendar : Calendar)
    (COUNT y m : Z) (datePicked : option DateObj) (st : Store) (a : loc) :
  StoreInv calendar st ->
  fst (_getLocalDatesToDisplay calendar COUNT y m datePicked st) = Ok a ->
  exists L,
    objects_at
      (heap (snd (_getLocalDatesToDisplay calendar COUNT y m datePicked st))) a
    = Some L /\
    COUNT <= len L.
Proof.
  intros Hinv Hrun.
  pose proof (getLocalDatesToDisplay_run calendar COUNT y m datePicked st Hinv)
    as H.
  destruct (displayed_dates calendar COUNT y m datePicked) as [L|e|] eqn:HL.
  - destruct H as (a' & st' & els & Heq & Hshows). rewrite Heq in Hrun |- *.
    injection Hrun as ->. exists L.
    split; [by eapply objects_at_shows|].
    by eapply displayed_dates_count.
  - congruence.
  - congruence.
Qed.

Lemma getLocalDatesToDisplay_fills_picker_witness :
  StoreInv (Gregorian.calendar 0 1900 2100) (mkStore None [] []) /\
  fst (_getLocalDatesToDisplay (Gregorian.calendar 0 1900 2100) 42 2018 2 None
         (mkStore None [] [])) = Ok 63%nat /\
  exists L,
    objects_at
      (heap (snd (_getLocalDatesToDisplay (Gregorian.calendar 0 1900 2100) 42
                    2018 2 None (mkStore None [] [])))) 63%nat
    = Some L /\
    42 <= len L.
Proof.
  split; [apply StoreInv_empty|].
  split; [vm_compute; reflexivity|].
  apply (getLocalDatesToDisplay_fills_picker (Gregorian.calendar 0 1900 2100)
           42 2018 2 None (mkStore None [] []) 63%nat).
  - apply StoreInv_empty.
  - vm_compute. reflexivity.
Defined.

(** *** What the calendar is opened with *)

(** The parameters of the date picker for a month whose neighbours are
    known: the dates are those of [displayed_dates], and only the store of
    the controller changes. *)
Lemma getDatePickerParams_run (calendar : Calendar) (COUNT y m : Z)
    (datePicked : option DateObj) (prev next : YearMonth)
    (L : list (option DateObj)) (s : State) :
  StoreInv calendar (store s) ->
  _calcPrevLocalMonth y m (getMonths calendar y) = Ok prev ->
  _calcNextLocalMonth y m (getMonths calendar y) = Ok next ->
  displayed_dates calendar COUNT y m datePicked = Ok L ->
  exists p st',
    _getDatePickerParams calendar COUNT y m datePicked s
    = (Ok p, set_store st' s) /\
    objects_at (heap st') (dp_dates p) = Some L /\
    dp_value p = month_value y m /\
    dp_pickerBtns p = _getPickerBtnsParams calendar y m /\
    dp_weekHeaders p = List.map text (getDays calendar) /\
    dp_rtl p = _rtl s.
Proof.
  intros Hinv Hprev Hnext HL.
  pose proof (getLocalDatesToDisplay_run calendar COUNT y m datePicked
                (store s) Hinv) as H.
  rewrite HL in H. destruct H as (a & st' & els & Hrun & Hshows).
  unfold _getDatePickerParams, bind, get, lift, liftS, ret. simpl.
  rewrite Hprev, Hnext.
  destruct (_rtl s) eqn:Hrtl; simpl; rewrite Hrun; simpl;
    do 2 eexists; (split; [reflexivity|]); simpl;
    (split; [by eapply objects_at_shows|]); done.
Qed.

(** X17. The frame that [openCalendar] asks for opens the calendar on the
    month of the picked date, or on the month of [getNow] when no date is
    picked: for a month whose neighbours exist and of which the calendar
    has dates, [_openCalendar] returns, the last thing it does is to open
    the calendar with the parameters of that month, whose dates are the
    list [displayed_dates] with the picked date marked, and the calendar is
    open afterwards. *)
Theorem openCalendar_frame_opens_month (calendar : Calendar) (COUNT : Z)
    (prev next : YearMonth) (L : list (option DateObj)) (s : State) :
  let datePicked := _localDate s in
  let dateLocal := default (getNow calendar) datePicked in
  StoreInv calendar (store s) ->
  _calcPrevLocalMonth (year dateLocal) (month dateLocal)
    (getMonths calendar (year dateLocal)) = Ok prev ->
  _calcNextLocalMonth (year dateLocal) (month dateLocal)
    (getMonths calendar (year dateLocal)) = Ok next ->
  displayed_dates calendar COUNT (year dateLocal) (month dateLocal) datePicked
  = Ok L ->
  exists p s',
    _openCalendar calendar COUNT s = (Ok tt, s') /\
    last (trace (store s')) = Some (OpenCalendar p) /\
    objects_at (heap (store s')) (dp_dates p) = Some L /\
    dp_value p = month_value (year dateLocal) (month dateLocal) /\
    dp_weekHeaders p = List.map text (getDays calendar) /\
    calendar_is_open s' = true /\
    _localDate s' = _localDate s.
Proof.
  intros datePicked dateLocal Hinv Hprev Hnext HL.
  destruct (getDatePickerParams_run calendar COUNT _ _ datePicked prev next L s
              Hinv Hprev Hnext HL)
    as (p & st' & Hrun & Hat & Hvalue & _ & Hweek & _).
  exists p. eexists. split.
  - unfold _openCalendar, bind at 1, get.
    fold datePicked. fold dateLocal.
    rewrite (bind_ok _ _ _ _ _ Hrun).
    unfold bind, emit, liftS, emitS, modify. simpl. reflexivity.
  - simpl. split; [apply last_snoc|]. done.
Qed.

Lemma openCalendar_frame_opens_month_witness :
  exists L,
    displayed_dates (Gregorian.calendar 0 1900 2100) 42 2018 2
      (Some (Gregorian.mkDay 2018 2 14))
    = Ok L /\
    exists p s',
      _openCalendar (Gregorian.calendar 0 1900 2100) 42
        (set_picked (Some (JSDate.mkDate (JSDate.Int 1520985600000))) (Some (Gregorian.mkDay 2018 2 14))
           "" (fresh false "" true false false))
      = (Ok tt, s') /\
      last (trace (store s')) = Some (OpenCalendar p) /\
      objects_at (heap (store s')) (dp_dates p) = Some L /\
      dp_value p = month_value 2018 2 /\
      dp_weekHeaders p = List.map text (getDays (Gregorian.calendar 0 1900 2100)) /\
      calendar_is_open s' = true /\
      _localDate s' = Some (Gregorian.mkDay 2018 2 14).
Proof.
  eexists. split; [vm_compute; reflexivity|].
  apply (openCalendar_frame_opens_month (Gregorian.calendar 0 1900 2100) 42
           (mkYearMonth 2018 1) (mkYearMonth 2018 3) _
           (set_picked (Some (JSDate.mkDate (JSDate.Int 1520985600000))) (Some (Gregorian.mkDay 2018 2 14))
              "" (fresh false "" true false false))).
  - apply StoreInv_empty.
  - reflexivity.
  - reflexivity.
  - vm_compute. reflexivity.
Defined.
